(** * The retrieval engine of [ir.py] ([InformationRetrievalSystem])

    A shallow embedding of the indexing and query code of [src/ir.py]:
    corpus loading, tokenisation, the inverted index with its IDF table,
    the TF-IDF document vectors, the pickled index, cosine-similarity
    search with snippet extraction, the interactive loop and [main].

    Conventions of the embedding.
    - Python [dict]s keep insertion order and the code iterates over them,
      so a dict is an association list with unique keys, updated in place
      ([dict_set]); a [defaultdict] is read through [dict_get_default].
    - Python [float]s are read in two ways.  In the main development they
      are idealised as real numbers ([R] of the Standard Library): [/] is
      real division, [math.log] is [ln] and [math.sqrt] is [sqrt], with the
      exceptions the Python functions raise outside their domain written
      out; what is proved there of the value of a number holds up to
      rounding only.  The module [Binary64] follows the same arithmetic with
      IEEE 754 binary64 numbers, as the interpreter computes it, and is
      used to tell where rounding, overflow or underflow breaks a property
      of the real-number reading.
    - Python [int]s are [Z] (document ids, [top_k]) or [nat] (counts, [len]).
    - Texts are strings of 8-bit characters; case folding and the character
      classes are those of ASCII.
    - A raised exception is the [Err] case of [result]; what a method had
      already written to [self] when it raised is not kept.
    - The files of the corpus are a [file_system] value; the contents of the
      index file are a [blob] of an abstract [pickle].
    - The lines typed at the prompt are a list of strings, one per call of
      [input]; what is printed is not modelled. *)

From Stdlib Require Import String Ascii List Bool Arith ZArith Lia.
From Stdlib Require Import Reals Lra Sorting.Sorted Sorting.Permutation.
From Stdlib Require Floats QArith.
Import ListNotations.

(** ** Exceptions *)

Inductive exn : Type :=
| ValueError
| TypeError
| KeyError
| ZeroDivisionError
| FileNotFoundError
| UnpicklingError
| EOFError
| OverflowError.

Inductive result (A : Type) : Type :=
| Ok (a : A)
| Err (e : exn).

Arguments Ok {A} a.
Arguments Err {A} e.

Definition bind {A B : Type} (m : result A) (k : A -> result B) : result B :=
  match m with
  | Ok a => k a
  | Err e => Err e
  end.

Notation "x <- m ;; k" := (bind m (fun x => k))
  (at level 61, m at next level, right associativity).

(** A [for] loop whose body may raise. *)
Fixpoint foldM {A S : Type} (body : S -> A -> result S) (l : list A) (s : S)
  : result S :=
  match l with
  | [] => Ok s
  | x :: l' => s' <- body s x ;; foldM body l' s'
  end.

Definition raises {A : Type} (m : result A) : Prop := exists e, m = Err e.

(** ** Insertion-ordered dictionaries *)

Class EqDec (K : Type) := eq_dec : forall x y : K, {x = y} + {x <> y}.

#[export] Instance string_EqDec : EqDec string := string_dec.
#[export] Instance Z_EqDec : EqDec Z := Z.eq_dec.

Definition dict (K V : Type) := list (K * V).

Section Dict.
Context {K V : Type} `{EqDec K}.

Fixpoint dict_get (k : K) (d : dict K V) : option V :=
  match d with
  | [] => None
  | (k', v) :: d' => if eq_dec k k' then Some v else dict_get k d'
  end.

(** [d[k]], raising [KeyError] on a missing key. *)
Definition dict_item (k : K) (d : dict K V) : result V :=
  match dict_get k d with
  | Some v => Ok v
  | None => Err KeyError
  end.

(** Reading [d[k]] in a [defaultdict] whose factory yields [dflt]. *)
Definition dict_get_default (dflt : V) (k : K) (d : dict K V) : V :=
  match dict_get k d with
  | Some v => v
  | None => dflt
  end.

(** [d[k] = v]: an existing key keeps its position, a new key goes last. *)
Fixpoint dict_set (k : K) (v : V) (d : dict K V) : dict K V :=
  match d with
  | [] => [(k, v)]
  | (k', v') :: d' =>
      if eq_dec k k' then (k, v) :: d' else (k', v') :: dict_set k v d'
  end.

Definition keys (d : dict K V) : list K := map fst d.
Definition values (d : dict K V) : list V := map snd d.
End Dict.

(** ** Text primitives (ASCII) *)

Open Scope string_scope.
Open Scope list_scope.

Definition is_upper (c : ascii) : bool :=
  let n := nat_of_ascii c in (65 <=? n)%nat && (n <=? 90)%nat.

Definition is_az (c : ascii) : bool :=
  let n := nat_of_ascii c in (97 <=? n)%nat && (n <=? 122)%nat.

Definition lower_char (c : ascii) : ascii :=
  if is_upper c then ascii_of_nat (nat_of_ascii c + 32) else c.

(** [str.lower()] *)
Fixpoint lower (s : string) : string :=
  match s with
  | EmptyString => EmptyString
  | String c s' => String (lower_char c) (lower s')
  end.

Definition is_empty (s : string) : bool :=
  match s with
  | EmptyString => true
  | String _ _ => false
  end.

(** [re.findall(r'[a-z]+', s)]: the maximal runs of lower-case letters;
    [cur] is the run being read. *)
Fixpoint findall_az (cur s : string) : list string :=
  match s with
  | EmptyString => if is_empty cur then [] else [cur]
  | String c s' =>
      if is_az c then findall_az (cur ++ String c EmptyString)%string s'
      else (if is_empty cur then [] else [cur]) ++ findall_az EmptyString s'
  end.

Definition is_terminator (c : ascii) : bool :=
  (Ascii.eqb c "."%char || Ascii.eqb c "!"%char || Ascii.eqb c "?"%char)%bool.

(** [re.split(r'[.!?]', s)]: the pieces between terminators, empty pieces
    included; [cur] is the piece being read. *)
Fixpoint re_split (cur s : string) : list string :=
  match s with
  | EmptyString => [cur]
  | String c s' =>
      if is_terminator c then cur :: re_split EmptyString s'
      else re_split (cur ++ String c EmptyString)%string s'
  end.

(** The ASCII characters [str.strip()] removes. *)
Definition is_space (c : ascii) : bool :=
  let n := nat_of_ascii c in
  ((9 <=? n)%nat && (n <=? 13)%nat) || ((28 <=? n)%nat && (n <=? 32)%nat).

Fixpoint lstrip (s : string) : string :=
  match s with
  | EmptyString => EmptyString
  | String c s' => if is_space c then lstrip s' else s
  end.

Fixpoint rstrip (s : string) : string :=
  match s with
  | EmptyString => EmptyString
  | String c s' =>
      let r := rstrip s' in
      if is_empty r && is_space c then EmptyString else String c r
  end.

Definition strip (s : string) : string := rstrip (lstrip s).

(** [needle in hay] on strings. *)
Fixpoint contains (needle hay : string) : bool :=
  prefix needle hay ||
  match hay with
  | EmptyString => false
  | String _ hay' => contains needle hay'
  end.

(** [sep.join(l)] *)
Definition join (sep : string) (l : list string) : string :=
  String.concat sep l.

(** [int(s)] on a string: surrounding white space, an optional sign, then
    decimal digits, single underscores allowed between digits.  [None]
    stands for [ValueError].  Strings are ASCII and shorter than the
    interpreter's limit on the digits of a converted number (4300 by
    default). *)
Definition digit_val (c : ascii) : option Z :=
  let n := nat_of_ascii c in
  if (48 <=? n)%nat && (n <=? 57)%nat then Some (Z.of_nat (n - 48)) else None.

Fixpoint int_digits (s : string) (acc : Z) (after_digit : bool) : option Z :=
  match s with
  | EmptyString => if after_digit then Some acc else None
  | String c s' =>
      if Ascii.eqb c "_"%char then
        if after_digit then int_digits s' acc false else None
      else
        match digit_val c with
        | Some d => int_digits s' (10 * acc + d)%Z true
        | None => None
        end
  end.

(** The characters [int] skips around a number in an ASCII string: blank,
    tab, line feed, vertical tab, form feed and carriage return. *)
Definition is_int_space (c : ascii) : bool :=
  let n := nat_of_ascii c in
  ((9 <=? n)%nat && (n <=? 13)%nat) || (n =? 32)%nat.

Fixpoint int_lstrip (s : string) : string :=
  match s with
  | EmptyString => EmptyString
  | String c s' => if is_int_space c then int_lstrip s' else s
  end.

Fixpoint int_rstrip (s : string) : string :=
  match s with
  | EmptyString => EmptyString
  | String c s' =>
      let r := int_rstrip s' in
      if is_empty r && is_int_space c then EmptyString else String c r
  end.

Definition py_int (s : string) : option Z :=
  match int_rstrip (int_lstrip s) with
  | String "+"%char r => int_digits r 0%Z false
  | String "-"%char r => option_map Z.opp (int_digits r 0%Z false)
  | r => int_digits r 0%Z false
  end.

(** ** Tokenizer: [preprocess_text] *)

Definition stopwords : list string :=
  ["the"; "a"; "an"; "and"; "or"; "but"; "in"; "on"; "at"; "to"; "for";
   "of"; "with"; "by"; "from"; "is"; "are"; "was"; "were"; "been"; "be";
   "have"; "has"; "had"; "do"; "does"; "did"; "will"; "would"; "should";
   "could"; "may"; "might"; "must"; "shall"; "can"; "this"; "that"; "these";
   "those"; "i"; "you"; "he"; "she"; "it"; "we"; "they"; "them"; "their";
   "what"; "which"; "who"; "when"; "where"; "why"; "how"; "all"; "each";
   "every"; "some"; "any"; "many"; "much"; "most"; "other"; "another";
   "such"; "no"; "not"; "only"; "own"; "same"; "so"; "than"; "too";
   "very"; "s"; "t"; "just"; "now"; "here"; "there"; "also"; "as"].

Definition in_list (w : string) (l : list string) : bool :=
  existsb (String.eqb w) l.

Definition preprocess_text (text : string) : list string :=
  let text := lower text in
  let words := findall_az EmptyString text in
  filter (fun w => negb (in_list w stopwords) && (2 <? String.length w)%nat)
         words.

(** ** Engine state *)

Open Scope R_scope.

(** A metadata entry; a field is [None] when the row of the table gave no
    value for it. *)
Module Meta.
Record t : Type := mk
  { title : option string; filename : option string;
    url : option string; date : option string }.
End Meta.

(** One search result, the dict built at the end of [search]. *)
Module Hit.
Record t : Type := mk
  { doc_id : Z; score : R; title : option string; summary : string;
    url : option string; date : option string }.
End Hit.

(** A posting: [(doc_id, tf)]. *)
Abbreviation posting := (Z * R)%type.

Record engine : Type := mk_engine
  { documents : dict Z string;
    metadata : dict Z Meta.t;
    inverted_index : dict string (list posting);
    doc_vectors : dict Z (dict string R);
    doc_lengths : dict Z R;
    idf_values : dict string R;
    N : nat }.

(** [__init__] *)
Definition init : engine :=
  {| documents := []; metadata := []; inverted_index := [];
     doc_vectors := []; doc_lengths := []; idf_values := []; N := 0 |}.

(** ** Corpus on disk *)

(** A row of the metadata table as [csv.DictReader] yields it: a dict from
    the field names of the header to the values of the row, [None] where
    the row is shorter than the header. *)
Definition csv_row : Type := dict string (option string).

(** A row of a table whose header is [id,title,url,date,filename]. *)
Definition mk_row (id : option string) (title url date filename : string)
  : csv_row :=
  [("id", id); ("title", Some title); ("url", Some url); ("date", Some date);
   ("filename", Some filename)].

(** [metadata_file] is [None] when the table cannot be opened;
    [articles_dir name] is the text of the file [name] of the articles
    directory, [None] when there is no such file. *)
Record file_system : Type := mk_fs
  { metadata_file : option (list csv_row);
    articles_dir : string -> option string }.

(** ** [load_documents] *)

(** [int(value)] of a field of a row: [TypeError] for [None], [ValueError]
    for a string that is not an integer. *)
Definition int_of_field (value : option string) : result Z :=
  match value with
  | None => Err TypeError
  | Some s =>
      match py_int s with
      | None => Err ValueError
      | Some n => Ok n
      end
  end.

(** The body of the loop over the rows; [row['id']] and the other lookups
    raise [KeyError] when the table has no such column. *)
Definition load_row (md : dict Z Meta.t) (row : csv_row)
  : result (dict Z Meta.t) :=
  value <- dict_item "id" row ;;
  doc_id <- int_of_field value ;;
  title <- dict_item "title" row ;;
  filename <- dict_item "filename" row ;;
  url <- dict_item "url" row ;;
  date <- dict_item "date" row ;;
  Ok (dict_set doc_id (Meta.mk title filename url date) md).

(** The body of the loop over the metadata; [os.path.join] raises
    [TypeError] on a file name that is [None]. *)
Definition load_content (fs : file_system) (docs : dict Z string)
  (item : Z * Meta.t) : result (dict Z string) :=
  let (doc_id, meta) := item in
  match Meta.filename meta with
  | None => Err TypeError
  | Some name =>
      match articles_dir fs name with
      | None => Err FileNotFoundError
      | Some content => Ok (dict_set doc_id content docs)
      end
  end.

Definition load_documents (fs : file_system) (self : engine) : result engine :=
  match metadata_file fs with
  | None => Err FileNotFoundError
  | Some rows =>
      md <- foldM load_row rows (metadata self) ;;
      docs <- foldM (load_content fs) md (documents self) ;;
      Ok {| documents := docs; metadata := md;
            inverted_index := inverted_index self;
            doc_vectors := doc_vectors self;
            doc_lengths := doc_lengths self;
            idf_values := idf_values self;
            N := length docs |}
  end.

(** ** [build_inverted_index] *)

(** The [word_count] loop: a [defaultdict(int)] incremented per word. *)
Definition count_words (words : list string) : dict string nat :=
  fold_left (fun wc w => dict_set w (S (dict_get_default 0%nat w wc)) wc)
            words [].

(** [count / len(words) if words else 0] *)
Definition term_frequency (count : nat) (words : list string) : R :=
  match words with
  | [] => 0
  | _ :: _ => INR count / INR (length words)
  end.

Definition add_posting (doc_id : Z) (words : list string)
  (index : dict string (list posting)) (wc : string * nat)
  : dict string (list posting) :=
  let (word, count) := wc in
  let tf := term_frequency count words in
  dict_set word (dict_get_default [] word index ++ [(doc_id, tf)]) index.

Definition index_document (index : dict string (list posting))
  (doc : Z * string) : dict string (list posting) :=
  let (doc_id, content) := doc in
  let words := preprocess_text content in
  let word_count := count_words words in
  fold_left (add_posting doc_id words) word_count index.

(** [a / b] on two [int]s *)
Definition py_div (a b : nat) : result R :=
  match b with
  | O => Err ZeroDivisionError
  | S _ => Ok (INR a / INR b)
  end.

Definition math_log (x : R) : result R :=
  if Rlt_dec 0 x then Ok (ln x) else Err ValueError.

Definition math_sqrt (x : R) : result R :=
  if Rle_dec 0 x then Ok (sqrt x) else Err ValueError.

Definition set_idf (n : nat) (idf : dict string R)
  (item : string * list posting) : result (dict string R) :=
  let (term, postings) := item in
  let df := length postings in
  q <- py_div n df ;;
  v <- math_log q ;;
  Ok (dict_set term v idf).

Definition build_inverted_index (self : engine) : result engine :=
  let index := fold_left index_document (documents self) (inverted_index self) in
  idf <- foldM (set_idf (N self)) index (idf_values self) ;;
  Ok {| documents := documents self; metadata := metadata self;
        inverted_index := index;
        doc_vectors := doc_vectors self;
        doc_lengths := doc_lengths self;
        idf_values := idf;
        N := N self |}.

(** ** [compute_document_vectors] *)

Definition add_weight (idf : dict string R) (doc_id : Z) (term : string)
  (vec : dict string R) (p : posting) : result (dict string R) :=
  let (posting_doc_id, tf) := p in
  if Z.eqb posting_doc_id doc_id then
    i <- dict_item term idf ;;
    Ok (dict_set term (tf * i) vec)
  else Ok vec.

Definition add_term_weights (idf : dict string R) (doc_id : Z)
  (vec : dict string R) (item : string * list posting)
  : result (dict string R) :=
  let (term, postings) := item in
  foldM (add_weight idf doc_id term) postings vec.

(** [sum(val ** 2 for val in vals)] *)
Definition sum_squares (vals : list R) : R :=
  fold_left Rplus (map (fun val => val ^ 2) vals) 0.

Definition vector_length (vec : dict string R) : result R :=
  math_sqrt (sum_squares (values vec)).

Definition document_vector (self : engine)
  (st : dict Z (dict string R) * dict Z R) (doc_id : Z)
  : result (dict Z (dict string R) * dict Z R) :=
  let (vectors, lengths) := st in
  vec <- foldM (add_term_weights (idf_values self) doc_id)
               (inverted_index self) [] ;;
  len <- vector_length vec ;;
  Ok (dict_set doc_id vec vectors, dict_set doc_id len lengths).

Definition compute_document_vectors (self : engine) : result engine :=
  st <- foldM (document_vector self) (keys (documents self))
              (doc_vectors self, doc_lengths self) ;;
  Ok {| documents := documents self; metadata := metadata self;
        inverted_index := inverted_index self;
        doc_vectors := fst st;
        doc_lengths := snd st;
        idf_values := idf_values self;
        N := N self |}.

(** ** The pickled index: [save_index], [load_index] *)

(** The dict handed to [pickle.dump]. *)
Module Pickled.
Record t : Type := mk
  { inverted_index : dict string (list posting);
    idf_values : dict string R;
    doc_vectors : dict Z (dict string R);
    doc_lengths : dict Z R;
    N : nat }.
End Pickled.

(** [pickle.dump] and [pickle.load] over some type of file contents.
    [pickle_load] gives the five entries [load_index] reads from the object
    in the file, or the exception raised on the way: by [pickle.load]
    ([EOFError] on an empty file, [UnpicklingError] on contents it cannot
    decode) or by a lookup in the object ([KeyError] for a dict without
    one of the five keys, [TypeError] for an object that is no dict). *)
Record pickle : Type := mk_pickle
  { blob : Type;
    pickle_dump : Pickled.t -> blob;
    pickle_load : blob -> result Pickled.t }.

(** What the pickle module promises: loading a dump gives the object back. *)
Definition pickle_faithful (P : pickle) : Prop :=
  forall data, pickle_load P (pickle_dump P data) = Ok data.

(** [save_index]: the contents written to the index file. *)
Definition save_index (P : pickle) (self : engine) : blob P :=
  pickle_dump P
    (Pickled.mk (inverted_index self) (idf_values self) (doc_vectors self)
                (doc_lengths self) (N self)).

(** [load_index]; [index_file] is [None] when the file does not exist. *)
Definition load_index (P : pickle) (index_file : option (blob P))
  (self : engine) : result engine :=
  match index_file with
  | None => Err FileNotFoundError
  | Some contents =>
      data <- pickle_load P contents ;;
      Ok {| documents := documents self; metadata := metadata self;
            inverted_index := Pickled.inverted_index data;
            doc_vectors := Pickled.doc_vectors data;
            doc_lengths := Pickled.doc_lengths data;
            idf_values := Pickled.idf_values data;
            N := Pickled.N data |}
  end.

(** ** [build_index] *)

Definition build_index (P : pickle) (fs : file_system) (self : engine)
  : result (engine * blob P) :=
  self <- load_documents fs self ;;
  self <- build_inverted_index self ;;
  self <- compute_document_vectors self ;;
  Ok (self, save_index P self).

(** ** [search] *)

Definition Rgtb (x y : R) : bool := if Rgt_dec x y then true else false.
Definition Rltb (x y : R) : bool := if Rlt_dec x y then true else false.

(** The query vector: [tf * idf] for the query terms of the vocabulary. *)
Definition add_query_weight (idf : dict string R) (query_terms : list string)
  (query_vector : dict string R) (item : string * nat) : dict string R :=
  let (term, count) := item in
  match dict_get term idf with
  | Some i =>
      let tf := INR count / INR (length query_terms) in
      dict_set term (tf * i) query_vector
  | None => query_vector
  end.

Definition build_query_vector (idf : dict string R) (query_terms : list string)
  : dict string R :=
  fold_left (add_query_weight idf query_terms) (count_words query_terms) [].

(** The inner loop of the scoring loop. *)
Definition add_product (self : engine) (doc_id : Z) (score : R)
  (item : string * R) : result R :=
  let (term, query_weight) := item in
  vec <- dict_item doc_id (doc_vectors self) ;;
  match dict_get term vec with
  | Some w => Ok (score + query_weight * w)
  | None => Ok score
  end.

(** [score] as it stands before the test [score > 0]. *)
Definition document_score (self : engine) (query_vector : dict string R)
  (query_length : R) (doc_id : Z) : result R :=
  score <- foldM (add_product self doc_id) query_vector 0 ;;
  len <- dict_item doc_id (doc_lengths self) ;;
  Ok (if Rgtb len 0 && Rgtb query_length 0
      then score / (len * query_length) else score).

Definition add_score (self : engine) (query_vector : dict string R)
  (query_length : R) (scores : dict Z R) (doc_id : Z) : result (dict Z R) :=
  score <- document_score self query_vector query_length doc_id ;;
  Ok (if Rgtb score 0 then dict_set doc_id score scores else scores).

(** [sorted(items, key=lambda x: x[1], reverse=True)]: Python's sort is
    stable, also under [reverse=True]; the result is the stable arrangement
    in descending key order, computed here by insertion. *)
Fixpoint insert_desc (x : Z * R) (l : list (Z * R)) : list (Z * R) :=
  match l with
  | [] => [x]
  | y :: l' =>
      if Rltb (snd x) (snd y) then y :: insert_desc x l' else x :: y :: l'
  end.

Definition sorted_desc (l : list (Z * R)) : list (Z * R) :=
  fold_right insert_desc [] l.

(** The slice [l[:k]], a negative [k] counting from the end. *)
Definition slice_to {A : Type} (k : Z) (l : list A) : list A :=
  if (k <? 0)%Z then firstn (Z.to_nat (Z.of_nat (length l) + k)) l
  else firstn (Z.to_nat k) l.

(** The loop over [query_terms] with its [break]. *)
Fixpoint any_term_in (query_terms : list string) (sentence_lower : string)
  : bool :=
  match query_terms with
  | [] => false
  | term :: rest =>
      if contains term sentence_lower then true
      else any_term_in rest sentence_lower
  end.

Definition add_sentence (query_terms : list string)
  (matching_sentences : list string) (sentence : string) : list string :=
  let sentence_lower := lower sentence in
  if any_term_in query_terms sentence_lower
  then matching_sentences ++ [strip sentence]
  else matching_sentences.

Definition summarize (query_terms : list string) (content : string) : string :=
  let sentences := re_split EmptyString content in
  let matching_sentences := fold_left (add_sentence query_terms) sentences [] in
  match matching_sentences with
  | [] => EmptyString
  | _ :: _ => (join ". " (firstn 3 matching_sentences) ++ ".")%string
  end.

Definition add_result (self : engine) (query_terms : list string)
  (results : list Hit.t) (item : Z * R) : result (list Hit.t) :=
  let (doc_id, score) := item in
  content <- dict_item doc_id (documents self) ;;
  let summary := summarize query_terms content in
  meta <- dict_item doc_id (metadata self) ;;
  Ok (results ++ [Hit.mk doc_id score (Meta.title meta) summary
                         (Meta.url meta) (Meta.date meta)]).

Definition search (self : engine) (query : string) (top_k : Z)
  : result (list Hit.t) :=
  let query_terms := preprocess_text query in
  match query_terms with
  | [] => Ok []
  | _ :: _ =>
      let query_vector := build_query_vector (idf_values self) query_terms in
      match query_vector with
      | [] => Ok []
      | _ :: _ =>
          query_length <- vector_length query_vector ;;
          scores <- foldM (add_score self query_vector query_length)
                          (keys (documents self)) [] ;;
          let sorted_results := slice_to top_k (sorted_desc scores) in
          foldM (add_result self query_terms) sorted_results []
      end
  end.

(** ** [interactive_search] *)

(** How a session ends: the user typed [quit], [input] met the end of the
    input (it raises [EOFError]), or a call raised. *)
Inductive ending : Type :=
  | Quit
  | EndOfInput
  | Raised (e : exn).

(** The loop of [interactive_search] over [inputs], the lines that [input]
    returns, one per turn.  A session is the list of the searches made,
    each query with the results printed for it, and the way the loop ends;
    the layout of the printed lines is not modelled. *)
Fixpoint interactive_search (self : engine) (inputs : list string)
  : list (string * list Hit.t) * ending :=
  match inputs with
  | [] => ([], EndOfInput)
  | line :: rest =>
      let query := strip line in
      if String.eqb (lower query) "quit" then ([], Quit)
      else if is_empty query then interactive_search self rest
      else
        match search self query 10 with
        | Err e => ([], Raised e)
        | Ok results =>
            let (searches, how) := interactive_search self rest in
            ((query, results) :: searches, how)
        end
  end.

(** ** [main] *)

(** [index_file] is the contents of [index.pkl], [None] when the file does
    not exist; when it exists the first line of [inputs] answers the
    question whether to rebuild.  [main] gives the session and the contents
    of [index.pkl] when it ends. *)
Definition main (P : pickle) (fs : file_system) (index_file : option (blob P))
  (inputs : list string)
  : list (string * list Hit.t) * ending * option (blob P) :=
  let ir_system := init in
  match index_file with
  | Some _ =>
      match inputs with
      | [] => ([], EndOfInput, index_file)
      | answer :: inputs =>
          let choice := lower (strip answer) in
          if String.eqb choice "y" then
            match build_index P fs ir_system with
            | Err e => ([], Raised e, index_file)
            | Ok (ir_system, saved) =>
                (interactive_search ir_system inputs, Some saved)
            end
          else
            match (ir_system <- load_index P index_file ir_system ;;
                   load_documents fs ir_system) with
            | Err e => ([], Raised e, index_file)
            | Ok ir_system =>
                (interactive_search ir_system inputs, index_file)
            end
      end
  | None =>
      match build_index P fs ir_system with
      | Err e => ([], Raised e, None)
      | Ok (ir_system, saved) =>
          (interactive_search ir_system inputs, Some saved)
      end
  end.

(** * The arithmetic in binary64

    The numbers of [build_inverted_index], [compute_document_vectors] and
    [search] as the interpreter computes them: IEEE 754 binary64, every
    operation rounded to nearest (Rocq's primitive floats).  The
    definitions follow the same lines of [ir.py] as the ones above, which
    they repeat but for the numbers; loading, tokenising and summaries
    involve no [float] and are shared.  [math.log] is the logarithm of the
    C library of the platform and is a parameter, [libm_log]. *)
Module Binary64.
Import PrimFloat.
Local Open Scope float_scope.

Module Hit.
Record t : Type := mk
  { doc_id : Z; score : float; title : option string; summary : string;
    url : option string; date : option string }.
End Hit.

Abbreviation posting := (Z * float)%type.

Record engine : Type := mk_engine
  { documents : dict Z string;
    metadata : dict Z Meta.t;
    inverted_index : dict string (list posting);
    doc_vectors : dict Z (dict string float);
    doc_lengths : dict Z float;
    idf_values : dict string float;
    N : nat }.

Definition init : engine :=
  {| documents := []; metadata := []; inverted_index := [];
     doc_vectors := []; doc_lengths := []; idf_values := []; N := 0 |}.

Definition load_documents (fs : file_system) (self : engine) : result engine :=
  match metadata_file fs with
  | None => Err FileNotFoundError
  | Some rows =>
      md <- foldM load_row rows (metadata self) ;;
      docs <- foldM (load_content fs) md (documents self) ;;
      Ok {| documents := docs; metadata := md;
            inverted_index := inverted_index self;
            doc_vectors := doc_vectors self;
            doc_lengths := doc_lengths self;
            idf_values := idf_values self;
            N := length docs |}
  end.

(** An [int] as a [float]; exact below [2^53], as all counts are. *)
Definition of_nat (n : nat) : float := of_uint63 (Uint63.of_Z (Z.of_nat n)).

(** [count / len(words) if words else 0] *)
Definition term_frequency (count : nat) (words : list string) : float :=
  match words with
  | [] => 0
  | _ :: _ => of_nat count / of_nat (length words)
  end.

Definition add_posting (doc_id : Z) (words : list string)
  (index : dict string (list posting)) (wc : string * nat)
  : dict string (list posting) :=
  let (word, count) := wc in
  let tf := term_frequency count words in
  dict_set word (dict_get_default [] word index ++ [(doc_id, tf)]) index.

Definition index_document (index : dict string (list posting))
  (doc : Z * string) : dict string (list posting) :=
  let (doc_id, content) := doc in
  let words := preprocess_text content in
  let word_count := count_words words in
  fold_left (add_posting doc_id words) word_count index.

(** [a / b] on two [int]s *)
Definition py_div (a b : nat) : result float :=
  match b with
  | O => Err ZeroDivisionError
  | S _ => Ok (of_nat a / of_nat b)
  end.

Section Platform.
Variable libm_log : float -> float.

(** [math.log(x)]: a domain error unless [x > 0] (or [x] is not a
    number). *)
Definition math_log (x : float) : result float :=
  if x <=? 0 then Err ValueError else Ok (libm_log x).

Definition set_idf (n : nat) (idf : dict string float)
  (item : string * list posting) : result (dict string float) :=
  let (term, postings) := item in
  let df := length postings in
  q <- py_div n df ;;
  v <- math_log q ;;
  Ok (dict_set term v idf).

Definition build_inverted_index (self : engine) : result engine :=
  let index := fold_left index_document (documents self) (inverted_index self) in
  idf <- foldM (set_idf (N self)) index (idf_values self) ;;
  Ok {| documents := documents self; metadata := metadata self;
        inverted_index := index;
        doc_vectors := doc_vectors self;
        doc_lengths := doc_lengths self;
        idf_values := idf;
        N := N self |}.
End Platform.

Definition add_weight (idf : dict string float) (doc_id : Z) (term : string)
  (vec : dict string float) (p : posting) : result (dict string float) :=
  let (posting_doc_id, tf) := p in
  if Z.eqb posting_doc_id doc_id then
    i <- dict_item term idf ;;
    Ok (dict_set term (tf * i) vec)
  else Ok vec.

Definition add_term_weights (idf : dict string float) (doc_id : Z)
  (vec : dict string float) (item : string * list posting)
  : result (dict string float) :=
  let (term, postings) := item in
  foldM (add_weight idf doc_id term) postings vec.

(** [val ** 2]: the rounded square; [OverflowError] when the square of a
    finite number is not finite. *)
Definition square (val : float) : result float :=
  let sq := val * val in
  if is_finite val && is_infinity sq then Err OverflowError else Ok sq.

(** [sum(val ** 2 for val in vals)], added from left to right (as
    CPython does up to 3.11; later versions also carry a correction for the
    rounding errors of the additions). *)
Definition sum_squares (vals : list float) : result float :=
  foldM (fun acc val => sq <- square val ;; Ok (acc + sq)) vals 0.

Definition math_sqrt (x : float) : result float :=
  if x <? 0 then Err ValueError else Ok (sqrt x).

Definition vector_length (vec : dict string float) : result float :=
  s <- sum_squares (values vec) ;;
  math_sqrt s.

Definition document_vector (self : engine)
  (st : dict Z (dict string float) * dict Z float) (doc_id : Z)
  : result (dict Z (dict string float) * dict Z float) :=
  let (vectors, lengths) := st in
  vec <- foldM (add_term_weights (idf_values self) doc_id)
               (inverted_index self) [] ;;
  len <- vector_length vec ;;
  Ok (dict_set doc_id vec vectors, dict_set doc_id len lengths).

Definition compute_document_vectors (self : engine) : result engine :=
  st <- foldM (document_vector self) (keys (documents self))
              (doc_vectors self, doc_lengths self) ;;
  Ok {| documents := documents self; metadata := metadata self;
        inverted_index := inverted_index self;
        doc_vectors := fst st;
        doc_lengths := snd st;
        idf_values := idf_values self;
        N := N self |}.

(** [build_index] without [save_index], which changes no number. *)
Definition build_index (libm_log : float -> float) (fs : file_system)
  (self : engine) : result engine :=
  self <- load_documents fs self ;;
  self <- build_inverted_index libm_log self ;;
  compute_document_vectors self.

Definition add_query_weight (idf : dict string float)
  (query_terms : list string) (query_vector : dict string float)
  (item : string * nat) : dict string float :=
  let (term, count) := item in
  match dict_get term idf with
  | Some i =>
      let tf := of_nat count / of_nat (length query_terms) in
      dict_set term (tf * i) query_vector
  | None => query_vector
  end.

Definition build_query_vector (idf : dict string float)
  (query_terms : list string) : dict string float :=
  fold_left (add_query_weight idf query_terms) (count_words query_terms) [].

Definition add_product (self : engine) (doc_id : Z) (score : float)
  (item : string * float) : result float :=
  let (term, query_weight) := item in
  vec <- dict_item doc_id (doc_vectors self) ;;
  match dict_get term vec with
  | Some w => Ok (score + query_weight * w)
  | None => Ok score
  end.

(** [score] as it stands before the test [score > 0]; the division raises
    [ZeroDivisionError] when the product of the norms is zero. *)
Definition document_score (self : engine) (query_vector : dict string float)
  (query_length : float) (doc_id : Z) : result float :=
  score <- foldM (add_product self doc_id) query_vector 0 ;;
  len <- dict_item doc_id (doc_lengths self) ;;
  if (0 <? len) && (0 <? query_length) then
    let norms := len * query_length in
    if norms =? 0 then Err ZeroDivisionError else Ok (score / norms)
  else Ok score.

Definition add_score (self : engine) (query_vector : dict string float)
  (query_length : float) (scores : dict Z float) (doc_id : Z)
  : result (dict Z float) :=
  score <- document_score self query_vector query_length doc_id ;;
  Ok (if 0 <? score then dict_set doc_id score scores else scores).

Fixpoint insert_desc (x : Z * float) (l : list (Z * float))
  : list (Z * float) :=
  match l with
  | [] => [x]
  | y :: l' =>
      if snd x <? snd y then y :: insert_desc x l' else x :: y :: l'
  end.

Definition sorted_desc (l : list (Z * float)) : list (Z * float) :=
  fold_right insert_desc [] l.

Definition add_result (self : engine) (query_terms : list string)
  (results : list Hit.t) (item : Z * float) : result (list Hit.t) :=
  let (doc_id, score) := item in
  content <- dict_item doc_id (documents self) ;;
  let summary := summarize query_terms content in
  meta <- dict_item doc_id (metadata self) ;;
  Ok (results ++ [Hit.mk doc_id score (Meta.title meta) summary
                         (Meta.url meta) (Meta.date meta)]).

Definition search (self : engine) (query : string) (top_k : Z)
  : result (list Hit.t) :=
  let query_terms := preprocess_text query in
  match query_terms with
  | [] => Ok []
  | _ :: _ =>
      let query_vector := build_query_vector (idf_values self) query_terms in
      match query_vector with
      | [] => Ok []
      | _ :: _ =>
          query_length <- vector_length query_vector ;;
          scores <- foldM (add_score self query_vector query_length)
                          (keys (documents self)) [] ;;
          let sorted_results := slice_to top_k (sorted_desc scores) in
          foldM (add_result self query_terms) sorted_results []
      end
  end.

(** The value of a finite float as a fraction. *)
Definition exact (x : float) : option QArith_base.Q :=
  match FloatOps.Prim2SF x with
  | SpecFloat.S754_zero _ => Some (QArith_base.Qmake 0 1)
  | SpecFloat.S754_finite s m e =>
      let n := if s then Z.neg m else Z.pos m in
      Some (match e with
            | Z0 => QArith_base.Qmake n 1
            | Zpos p => QArith_base.Qmake (n * 2 ^ Zpos p) 1
            | Zneg p => QArith_base.Qmake n (2 ^ p)
            end)
  | _ => None
  end.

(** The sum of finite floats as a fraction, without rounding. *)
Definition exact_sum (l : list float) : option QArith_base.Q :=
  fold_left (fun acc x =>
               match acc, exact x with
               | Some a, Some q => Some (QArith_base.Qplus a q)
               | _, _ => None
               end)
            l (Some (QArith_base.Qmake 0 1)).

(** The sum of floats added one after the other with [+]. *)
Definition float_sum (l : list float) : float := fold_left add l 0.

(** The test [x > 0]. *)
Definition positive (x : float) : bool := 0 <? x.

(** The term frequencies stored for one document, over all posting lists. *)
Definition doc_frequencies (index : dict string (list posting)) (doc_id : Z)
  : list float :=
  flat_map (fun item => map snd (filter (fun p => Z.eqb (fst p) doc_id) (snd item)))
           index.

(** [math.log] where the examples need it: at [2.0] it is the float
    nearest to the logarithm of 2, printed [0.6931471805599453], and at
    [1.0] it is [0.0]. *)
Definition ln2 : float := 0x1.62e42fefa39efp-1.

Definition example_log (x : float) : float :=
  if x =? 2 then ln2 else if x =? 1 then 0 else nan.

End Binary64.

(** * Vocabulary of the properties *)

(** ** The index *)

(** One step of the [word_count] loop. *)
Definition count_step (wc : dict string nat) (w : string) : dict string nat :=
  dict_set w (S (dict_get_default 0%nat w wc)) wc.

(** The posting list of a term, read as the [defaultdict] gives it. *)
Definition postings_of (index : dict string (list posting)) (term : string)
  : list posting :=
  dict_get_default [] term index.

(** The postings one document contributes to the list of [term]. *)
Definition doc_posting (term : string) (doc : Z * string) : list posting :=
  let words := preprocess_text (snd doc) in
  match count_occ string_dec words term with
  | O => []
  | S n => [(fst doc, INR (S n) / INR (length words))]
  end.

(** Every key of the index has a posting. *)
Definition no_empty_list (index : dict string (list posting)) : Prop :=
  forall term ps, In (term, ps) index -> ps <> [].

(** The sum of a list of reals. *)
Definition Rsum (l : list R) : R := fold_right Rplus 0 l.

(** Where a weight of a document vector comes from. *)
Definition weight_of (idf : dict string R) (index : dict string (list posting))
  (doc_id : Z) (term : string) (w : R) : Prop :=
  exists ps tf i,
    In (term, ps) index /\ In (doc_id, tf) ps /\ dict_get term idf = Some i
    /\ w = tf * i.

(** A document vector: distinct terms, each weight a [tf * idf]. *)
Definition vector_from (idf : dict string R)
  (index : dict string (list posting)) (doc_id : Z) (vec : dict string R) : Prop :=
  NoDup (keys vec)
  /\ forall term w, In (term, w) vec -> weight_of idf index doc_id term w.

(** The vector and the norm stored for a document are those the vector
    loop computes. *)
Definition has_vector (self : engine) (vectors : dict Z (dict string R))
  (lengths : dict Z R) (doc_id : Z) : Prop :=
  exists vec,
    foldM (add_term_weights (idf_values self) doc_id) (inverted_index self) []
    = Ok vec
    /\ dict_get doc_id vectors = Some vec
    /\ dict_get doc_id lengths = Some (sqrt (sum_squares (values vec))).

(** What a build from a fresh engine establishes. *)
Record built (self : engine) : Prop := mk_built
  { built_docs : NoDup (keys (documents self));
    built_meta :
      forall doc_id, In doc_id (keys (documents self)) ->
                     In doc_id (keys (metadata self));
    built_N : N self = length (documents self);
    built_index : NoDup (keys (inverted_index self));
    built_no_empty : no_empty_list (inverted_index self);
    built_postings :
      forall term, postings_of (inverted_index self) term
                   = flat_map (doc_posting term) (documents self);
    built_idf :
      forall term, dict_get term (idf_values self)
                   = match dict_get term (inverted_index self) with
                     | Some ps => Some (ln (INR (N self) / INR (length ps)))
                     | None => None
                     end;
    built_vectors :
      forall doc_id, In doc_id (keys (documents self)) ->
        exists vec,
          dict_get doc_id (doc_vectors self) = Some vec
          /\ dict_get doc_id (doc_lengths self)
             = Some (sqrt (sum_squares (values vec)))
          /\ vector_from (idf_values self) (inverted_index self) doc_id vec }.

(** The term frequencies stored for one document, over all posting lists. *)
Definition doc_frequencies (index : dict string (list posting)) (doc_id : Z)
  : list R :=
  flat_map (fun item => map snd (filter (fun p => Z.eqb (fst p) doc_id) (snd item)))
           index.

(** ** Ranking *)

(** The order of the output: a larger key first and, among equal keys, the
    order [T] in which the items came. *)
Definition key_then (T : Z -> Z -> Prop) (a b : Z * R) : Prop :=
  snd a > snd b \/ (snd a = snd b /\ T (fst a) (fst b)).

(** [x] comes before [y] in [l]. *)
Definition precedes {A : Type} (x y : A) (l : list A) : Prop :=
  exists l1 l2 l3, l = l1 ++ x :: l2 ++ y :: l3.

(** The weight of a term in a vector, 0 when the term is absent. *)
Definition weight_in (vec : dict string R) (term : string) : R :=
  dict_get_default 0 term vec.

(** The dot product over the shared terms. *)
Definition dot (qv vec : dict string R) : R :=
  Rsum (map (fun item => snd item * weight_in vec (fst item)) qv).

(** What the scoring loop records for one document. *)
Definition score_entry (self : engine) (qv : dict string R) (qlen : R)
  (doc_id : Z) : list (Z * R) :=
  match document_score self qv qlen doc_id with
  | Ok s => if Rgtb s 0 then [(doc_id, s)] else []
  | Err _ => []
  end.

(** The ranked [(doc_id, score)] pairs [search] turns into results. *)
Definition ranked (self : engine) (query : string) (top_k : Z) : list (Z * R) :=
  let query_terms := preprocess_text query in
  let qv := build_query_vector (idf_values self) query_terms in
  match query_terms, qv with
  | _ :: _, _ :: _ =>
      slice_to top_k
        (sorted_desc
           (flat_map (score_entry self qv (sqrt (sum_squares (values qv))))
                     (keys (documents self))))
  | _, _ => []
  end.

(** The result built from a ranked pair. *)
Definition hit_of (self : engine) (query_terms : list string) (item : Z * R)
  (h : Hit.t) : Prop :=
  exists content meta,
    dict_get (fst item) (documents self) = Some content
    /\ dict_get (fst item) (metadata self) = Some meta
    /\ h = Hit.mk (fst item) (snd item) (Meta.title meta)
                  (summarize query_terms content) (Meta.url meta)
                  (Meta.date meta).

(** The order of the results: by score, and among equal scores by the
    position of the document in the [documents] dict. *)
Definition ranked_before (self : engine) (h1 h2 : Hit.t) : Prop :=
  Hit.score h1 > Hit.score h2
  \/ (Hit.score h1 = Hit.score h2
      /\ precedes (Hit.doc_id h1) (Hit.doc_id h2) (keys (documents self))).

(** The order the claim words: equal scores by ascending document id. *)
Definition claimed_before (h1 h2 : Hit.t) : Prop :=
  Hit.score h1 > Hit.score h2
  \/ (Hit.score h1 = Hit.score h2 /\ (Hit.doc_id h1 < Hit.doc_id h2)%Z).

(** The sum of the products of the pairs of a list. *)
Definition sum_products (l : list (R * R)) : R :=
  Rsum (map (fun p => fst p * snd p) l).

(** The dict without the key [k]. *)
Definition dict_remove {K V : Type} `{EqDec K} (k : K) (d : dict K V)
  : dict K V :=
  filter (fun e => if eq_dec (fst e) k then false else true) d.

(** Where a weight of the query vector comes from. *)
Definition query_weight (idf : dict string R) (query_terms : list string)
  (term : string) (w : R) : Prop :=
  exists c i,
    In (term, c) (count_words query_terms) /\ dict_get term idf = Some i
    /\ w = INR c / INR (length query_terms) * i.

(** ** Snippets *)

(** The snippet in the words of the claim, amended: the sentences between
    the terminators, those that contain a query term (as a substring of the
    lower-cased sentence) kept in order, the first three of them stripped of
    surrounding white space, joined with [". "] and closed with ["."]. *)
Definition snippet_spec (query_terms : list string) (content : string) : string :=
  let matching :=
    filter (fun sentence =>
              existsb (fun term => contains term (lower sentence)) query_terms)
           (re_split EmptyString content) in
  match matching with
  | [] => EmptyString
  | _ :: _ => (join ". " (map strip (firstn 3 matching)) ++ ".")%string
  end.

(** The snippet as the claim words it: no stripping, no closing period. *)
Definition snippet_claimed (query_terms : list string) (content : string)
  : string :=
  let matching :=
    filter (fun sentence =>
              existsb (fun term => contains term (lower sentence)) query_terms)
           (re_split EmptyString content) in
  join ". " (firstn 3 matching).

(** ** The metadata table *)

(** The id of a row as [int] reads it; [None] when the id is missing or
    does not parse. *)
Definition parsed_id (row : csv_row) : option Z :=
  match dict_get "id" row with
  | Some (Some s) => py_int s
  | _ => None
  end.

(** The metadata entry of a row; [None] when the row lacks one of the four
    columns. *)
Definition row_meta (row : csv_row) : option Meta.t :=
  match dict_get "title" row, dict_get "filename" row,
        dict_get "url" row, dict_get "date" row with
  | Some title, Some filename, Some url, Some date =>
      Some (Meta.mk title filename url date)
  | _, _, _, _ => None
  end.

(** The entries of the rows that give an id that parses and the four
    columns, in table order. *)
Definition row_entries (rows : list csv_row) : dict Z Meta.t :=
  flat_map (fun row => match parsed_id row, row_meta row with
                       | Some doc_id, Some meta => [(doc_id, meta)]
                       | _, _ => []
                       end) rows.

(** A row that gives an id that parses and the four other columns. *)
Definition row_well_formed (row : csv_row) : Prop :=
  parsed_id row <> None /\ row_meta row <> None.

(** The text of the file a metadata entry names, if there is one. *)
Definition named_file (fs : file_system) (meta : Meta.t) : option string :=
  match Meta.filename meta with
  | Some name => articles_dir fs name
  | None => None
  end.

(** A well-formed row whose file is in the articles directory. *)
Definition row_loadable (fs : file_system) (row : csv_row) : Prop :=
  exists doc_id meta content,
    parsed_id row = Some doc_id /\ row_meta row = Some meta
    /\ named_file fs meta = Some content.



(** ** A small corpus *)

(** A pickle that stores the object itself. *)
Definition demo_pickle : pickle :=
  mk_pickle Pickled.t (fun data => data) (fun contents => Ok contents).

(** Three documents, listed in the table in the order 2, 1, 3; documents 2
    and 1 have the same text. *)
Definition demo_text : string := "Alpha. No! Alpha".

Definition demo_rows : list csv_row :=
  [mk_row (Some "2") "Second" "u2" "d2" "b.txt";
   mk_row (Some "1") "First" "u1" "d1" "a.txt";
   mk_row (Some "3") "Third" "u3" "d3" "c.txt"].

Definition demo_files (name : string) : option string :=
  if String.eqb name "a.txt" then Some demo_text
  else if String.eqb name "b.txt" then Some demo_text
  else if String.eqb name "c.txt" then Some "Gamma"
  else None.

Definition demo_fs : file_system := mk_fs (Some demo_rows) demo_files.

(** The engine after [load_documents], after [build_inverted_index] and
    after [compute_document_vectors]. *)
Definition demo_loaded : engine :=
  {| documents := [(2%Z, demo_text); (1%Z, demo_text); (3%Z, "Gamma")];
     metadata := [(2%Z, Meta.mk (Some "Second") (Some "b.txt") (Some "u2") (Some "d2"));
                  (1%Z, Meta.mk (Some "First") (Some "a.txt") (Some "u1") (Some "d1"));
                  (3%Z, Meta.mk (Some "Third") (Some "c.txt") (Some "u3") (Some "d3"))];
     inverted_index := []; doc_vectors := []; doc_lengths := [];
     idf_values := []; N := 3 |}.

Definition demo_index : dict string (list posting) :=
  [("alpha", [(2%Z, INR 2 / INR 2); (1%Z, INR 2 / INR 2)]);
   ("gamma", [(3%Z, INR 1 / INR 1)])].

Definition demo_idf : dict string R :=
  [("alpha", ln (INR 3 / INR 2)); ("gamma", ln (INR 3 / INR 1))].

Definition demo_indexed : engine :=
  {| documents := documents demo_loaded; metadata := metadata demo_loaded;
     inverted_index := demo_index; doc_vectors := []; doc_lengths := [];
     idf_values := demo_idf; N := 3 |}.

Definition demo_alpha : R := INR 2 / INR 2 * ln (INR 3 / INR 2).

Definition demo_gamma : R := INR 1 / INR 1 * ln (INR 3 / INR 1).

Definition demo_engine : engine :=
  {| documents := documents demo_loaded; metadata := metadata demo_loaded;
     inverted_index := demo_index;
     doc_vectors := [(2%Z, [("alpha", demo_alpha)]);
                     (1%Z, [("alpha", demo_alpha)]);
                     (3%Z, [("gamma", demo_gamma)])];
     doc_lengths := [(2%Z, sqrt (sum_squares [demo_alpha]));
                     (1%Z, sqrt (sum_squares [demo_alpha]));
                     (3%Z, sqrt (sum_squares [demo_gamma]))];
     idf_values := demo_idf; N := 3 |}.

(** The query [alpha] on the small corpus. *)
Definition demo_query_weight : R := INR 1 / INR 1 * ln (INR 3 / INR 2).

Definition demo_query_vector : dict string R := [("alpha", demo_query_weight)].

Definition demo_score : R :=
  (0 + dot demo_query_vector [("alpha", demo_alpha)])
  / (sqrt (sum_squares [demo_alpha]) * sqrt (sum_squares [demo_query_weight])).

Definition demo_hits : list Hit.t :=
  [Hit.mk 2 demo_score (Some "Second") "Alpha. Alpha." (Some "u2") (Some "d2");
   Hit.mk 1 demo_score (Some "First") "Alpha. Alpha." (Some "u1") (Some "d1")].

(** ** A corpus of one document *)

Definition solo_fs : file_system :=
  mk_fs (Some [mk_row (Some "7") "Only" "u7" "d7" "only.txt"])
        (fun name => if String.eqb name "only.txt" then Some "Alpha" else None).

Definition solo_loaded : engine :=
  {| documents := [(7%Z, "Alpha")];
     metadata := [(7%Z, Meta.mk (Some "Only") (Some "only.txt") (Some "u7") (Some "d7"))];
     inverted_index := []; doc_vectors := []; doc_lengths := [];
     idf_values := []; N := 1 |}.

Definition solo_weight : R := INR 1 / INR 1 * ln (INR 1 / INR 1).

Definition solo_engine : engine :=
  {| documents := documents solo_loaded; metadata := metadata solo_loaded;
     inverted_index := [("alpha", [(7%Z, INR 1 / INR 1)])];
     doc_vectors := [(7%Z, [("alpha", solo_weight)])];
     doc_lengths := [(7%Z, sqrt (sum_squares [solo_weight]))];
     idf_values := [("alpha", ln (INR 1 / INR 1))]; N := 1 |}.

(** The engine after a second [build_index] on [solo_engine]: the posting
    of the document is there twice. *)
Definition solo_twice_weight : R := INR 1 / INR 1 * ln (INR 1 / INR 2).

Definition solo_twice : engine :=
  {| documents := documents solo_loaded; metadata := metadata solo_loaded;
     inverted_index := [("alpha", [(7%Z, INR 1 / INR 1); (7%Z, INR 1 / INR 1)])];
     doc_vectors := [(7%Z, [("alpha", solo_twice_weight)])];
     doc_lengths := [(7%Z, sqrt (sum_squares [solo_twice_weight]))];
     idf_values := [("alpha", ln (INR 1 / INR 2))]; N := 1 |}.

Definition solo_twice_score : R :=
  (0 + dot [("alpha", solo_twice_weight)] [("alpha", solo_twice_weight)])
  / (sqrt (sum_squares [solo_twice_weight])
     * sqrt (sum_squares [solo_twice_weight])).

(** ** A document of seven distinct words *)

Definition seven_fs : file_system :=
  mk_fs (Some [mk_row (Some "1") "Seven" "u1" "d1" "s.txt"])
        (fun name =>
           if String.eqb name "s.txt"
           then Some "Alpha beta gamma delta epsilon zeta theta."
           else None).

(** ** A corpus with a document without tokens *)

Definition blank_fs : file_system :=
  mk_fs (Some [mk_row (Some "1") "Words" "u1" "d1" "w.txt";
               mk_row (Some "2") "Blank" "u2" "d2" "b.txt"])
        (fun name => if String.eqb name "w.txt" then Some "Alpha beta"
                     else if String.eqb name "b.txt" then Some "It is on!"
                     else None).

Definition blank_loaded : engine :=
  {| documents := [(1%Z, "Alpha beta"); (2%Z, "It is on!")];
     metadata := [(1%Z, Meta.mk (Some "Words") (Some "w.txt") (Some "u1") (Some "d1"));
                  (2%Z, Meta.mk (Some "Blank") (Some "b.txt") (Some "u2") (Some "d2"))];
     inverted_index := []; doc_vectors := []; doc_lengths := [];
     idf_values := []; N := 2 |}.

Definition blank_weight : R := INR 1 / INR 2 * ln (INR 2 / INR 1).

Definition blank_engine : engine :=
  {| documents := documents blank_loaded; metadata := metadata blank_loaded;
     inverted_index := [("alpha", [(1%Z, INR 1 / INR 2)]);
                        ("beta", [(1%Z, INR 1 / INR 2)])];
     doc_vectors := [(1%Z, [("alpha", blank_weight); ("beta", blank_weight)]);
                     (2%Z, [])];
     doc_lengths := [(1%Z, sqrt (sum_squares [blank_weight; blank_weight]));
                     (2%Z, sqrt (sum_squares []))];
     idf_values := [("alpha", ln (INR 2 / INR 1));
                    ("beta", ln (INR 2 / INR 1))];
     N := 2 |}.

(** ** A table with a repeated id *)

(** The ids of a list in the order of their first occurrence. *)
Definition first_seen (l : list Z) : list Z :=
  fold_left (fun seen x => if in_dec Z.eq_dec x seen then seen else seen ++ [x])
            l [].

(** Document 1 is listed twice; the file of its first row does not exist. *)
Definition dup_fs : file_system :=
  mk_fs (Some [mk_row (Some "1") "Old" "u1" "d1" "missing.txt";
               mk_row (Some "2") "Two" "u2" "d2" "b.txt";
               mk_row (Some "1") "New" "v1" "e1" "a.txt"])
        (fun name => if String.eqb name "a.txt" then Some "Alpha"
                     else if String.eqb name "b.txt" then Some "Beta"
                     else None).

Definition dup_loaded : engine :=
  {| documents := [(1%Z, "Alpha"); (2%Z, "Beta")];
     metadata := [(1%Z, Meta.mk (Some "New") (Some "a.txt") (Some "v1") (Some "e1"));
                  (2%Z, Meta.mk (Some "Two") (Some "b.txt") (Some "u2") (Some "d2"))];
     inverted_index := []; doc_vectors := []; doc_lengths := [];
     idf_values := []; N := 2 |}.

(** ** Sessions *)

(** The lines that end a session. *)
Definition is_quit (line : string) : bool :=
  String.eqb (lower (strip line)) "quit".

(** The elements of a list before the first one that [stop] holds of. *)
Fixpoint take_until {A : Type} (stop : A -> bool) (l : list A) : list A :=
  match l with
  | [] => []
  | x :: l' => if stop x then [] else x :: take_until stop l'
  end.

(** ** Tokens *)

(** The strings made of the letters [a] to [z] only. *)
Fixpoint all_az (s : string) : bool :=
  match s with
  | EmptyString => true
  | String c s' => is_az c && all_az s'
  end.

(** * Properties *)

(** Loop bodies and real-number functions are unfolded on demand only. *)
Arguments INR : simpl never.
Arguments pow : simpl never.
Arguments py_div : simpl never.
Arguments math_log : simpl never.
Arguments math_sqrt : simpl never.
Arguments set_idf : simpl never.
Arguments add_weight : simpl never.
Arguments add_term_weights : simpl never.
Arguments document_vector : simpl never.
Arguments add_product : simpl never.
Arguments document_score : simpl never.
Arguments add_score : simpl never.
Arguments add_result : simpl never.
Arguments load_row : simpl never.
Arguments load_content : simpl never.

(** ** Dictionaries *)

Section DictFacts.
Context {K V : Type} `{EqDec K}.
Implicit Types (k : K) (v : V) (d : dict K V).

Lemma dict_get_set_same k v d : dict_get k (dict_set k v d) = Some v.
Proof.
  induction d as [|[k' v'] d IH]; simpl.
  - destruct (eq_dec k k); congruence.
  - destruct (eq_dec k k') as [->|Hne]; simpl.
    + destruct (eq_dec k' k'); congruence.
    + destruct (eq_dec k k'); congruence.
Qed.

Lemma dict_get_set_other k k' v d :
  k <> k' -> dict_get k' (dict_set k v d) = dict_get k' d.
Proof.
  intros Hne. induction d as [|[k0 v0] d IH]; simpl.
  - destruct (eq_dec k' k); congruence.
  - destruct (eq_dec k k0) as [->|Hk]; simpl.
    + destruct (eq_dec k' k0); congruence.
    + destruct (eq_dec k' k0); congruence.
Qed.

Lemma dict_get_None k d : dict_get k d = None <-> ~ In k (keys d).
Proof.
  induction d as [|[k' v'] d IH]; simpl.
  - tauto.
  - destruct (eq_dec k k') as [->|Hne].
    + split; [discriminate | tauto].
    + rewrite IH. split; intros Hn; [intros [E|I]; congruence | tauto].
Qed.

Lemma dict_get_Some_In k v d : dict_get k d = Some v -> In (k, v) d.
Proof.
  induction d as [|[k' v'] d IH]; simpl; [discriminate|].
  destruct (eq_dec k k') as [->|Hne]; intros E.
  - left. congruence.
  - right. auto.
Qed.

Lemma dict_get_Some_key k v d : dict_get k d = Some v -> In k (keys d).
Proof.
  intros E. apply dict_get_Some_In in E.
  apply (in_map fst) in E. exact E.
Qed.

Lemma In_dict_get k v d : NoDup (keys d) -> In (k, v) d -> dict_get k d = Some v.
Proof.
  induction d as [|[k' v'] d IH]; simpl; [tauto|].
  intros Hnd [E|I].
  - inversion E; subst. destruct (eq_dec k k); congruence.
  - inversion Hnd as [|? ? Hni Hnd']; subst.
    destruct (eq_dec k k') as [->|Hne].
    + exfalso. apply Hni. apply (in_map fst) in I. exact I.
    + auto.
Qed.

Lemma In_keys_dict_get k d : In k (keys d) -> exists v, dict_get k d = Some v.
Proof.
  intros I. destruct (dict_get k d) as [v|] eqn:E; [eauto|].
  apply dict_get_None in E. contradiction.
Qed.

(** Setting a new key appends it. *)
Lemma dict_set_absent k v d :
  ~ In k (keys d) -> dict_set k v d = d ++ [(k, v)].
Proof.
  induction d as [|[k' v'] d IH]; simpl; [reflexivity|].
  intros Hni. destruct (eq_dec k k') as [->|Hne]; [tauto|].
  f_equal. apply IH. tauto.
Qed.

Lemma In_keys_dict_set k k' v d :
  In k' (keys (dict_set k v d)) <-> k' = k \/ In k' (keys d).
Proof.
  induction d as [|[k0 v0] d IH]; simpl.
  - intuition congruence.
  - destruct (eq_dec k k0) as [->|Hne]; simpl.
    + intuition congruence.
    + rewrite IH. intuition congruence.
Qed.

Lemma NoDup_keys_dict_set k v d :
  NoDup (keys d) -> NoDup (keys (dict_set k v d)).
Proof.
  induction d as [|[k' v'] d IH]; simpl; intros Hnd.
  - constructor; [simpl; tauto | constructor].
  - inversion Hnd as [|? ? Hni Hnd']; subst.
    destruct (eq_dec k k') as [->|Hne]; simpl.
    + constructor; assumption.
    + constructor; [|auto].
      rewrite In_keys_dict_set. intros [E|I]; congruence.
Qed.

(** Every entry of a dict built by [dict_set] is the old entry or the new one. *)
Lemma In_dict_set k v k' v' d :
  In (k', v') (dict_set k v d) -> (k' = k /\ v' = v) \/ In (k', v') d.
Proof.
  induction d as [|[k0 v0] d IH]; simpl.
  - intros [E|[]]. inversion E. auto.
  - destruct (eq_dec k k0) as [->|Hne]; simpl.
    + intros [E|I]; [inversion E; auto | auto].
    + intros [E|I]; [auto | destruct (IH I); auto].
Qed.
End DictFacts.

(** ** Loops that may raise *)

(** An invariant of a loop that returns. *)
Lemma foldM_invariant {A S : Type} (P : S -> Prop) (body : S -> A -> result S)
  (l : list A) (s s' : S) :
  (forall s x s', In x l -> P s -> body s x = Ok s' -> P s') ->
  P s -> foldM body l s = Ok s' -> P s'.
Proof.
  revert s. induction l as [|x l IH]; intros s Hb Hs E; simpl in E.
  - inversion E; subst. exact Hs.
  - destruct (body s x) as [s1|] eqn:E1; simpl in E; [|discriminate].
    apply (IH s1); auto.
    + intros s2 y s3 I. apply Hb. right. exact I.
    + apply (Hb s x s1); auto. left. reflexivity.
Qed.

(** ** Word counts *)

Lemma count_words_eq words : count_words words = fold_left count_step words [].
Proof. reflexivity. Qed.

Lemma count_fold_get words : forall wc w,
  dict_get_default 0%nat w (fold_left count_step words wc)
  = (count_occ string_dec words w + dict_get_default 0%nat w wc)%nat.
Proof.
  induction words as [|x words IH]; intros wc w; simpl; [reflexivity|].
  rewrite IH. unfold count_step at 1. unfold dict_get_default at 1.
  destruct (string_dec x w) as [->|Hne].
  - rewrite dict_get_set_same. lia.
  - rewrite dict_get_set_other by assumption. reflexivity.
Qed.

Lemma count_fold_keys words : forall wc w,
  In w (keys (fold_left count_step words wc)) <-> In w words \/ In w (keys wc).
Proof.
  induction words as [|x words IH]; intros wc w; simpl; [tauto|].
  rewrite IH. unfold count_step. rewrite In_keys_dict_set. intuition congruence.
Qed.

Lemma count_fold_NoDup words : forall wc,
  NoDup (keys wc) -> NoDup (keys (fold_left count_step words wc)).
Proof.
  induction words as [|x words IH]; intros wc Hnd; simpl; [assumption|].
  apply IH. apply NoDup_keys_dict_set. assumption.
Qed.

Lemma count_words_NoDup words : NoDup (keys (count_words words)).
Proof. apply count_fold_NoDup. constructor. Qed.

Lemma count_words_keys words w : In w (keys (count_words words)) <-> In w words.
Proof. rewrite count_words_eq, count_fold_keys. simpl. tauto. Qed.

(** The count stored for a word is its number of occurrences. *)
Lemma count_words_get words w :
  dict_get w (count_words words)
  = match count_occ string_dec words w with
    | O => None
    | S n => Some (S n)
    end.
Proof.
  pose proof (count_fold_get words [] w) as Hc. simpl in Hc.
  rewrite Nat.add_0_r in Hc. rewrite <- count_words_eq in Hc.
  unfold dict_get_default in Hc.
  destruct (dict_get w (count_words words)) as [c|] eqn:E.
  - rewrite <- Hc. destruct c; [|reflexivity].
    exfalso. apply dict_get_Some_key in E.
    apply (proj1 (count_words_keys _ _)) in E.
    apply (proj1 (count_occ_In string_dec _ _)) in E. lia.
  - rewrite <- Hc. reflexivity.
Qed.

(** ** The inverted index *)

Lemma add_posting_fold_postings doc_id words wc : forall index term,
  NoDup (keys wc) ->
  postings_of (fold_left (add_posting doc_id words) wc index) term
  = postings_of index term
    ++ match dict_get term wc with
       | Some c => [(doc_id, term_frequency c words)]
       | None => []
       end.
Proof.
  induction wc as [|[w c] wc IH]; intros index term Hnd; simpl.
  - now rewrite app_nil_r.
  - inversion Hnd as [|? ? Hni Hnd']; subst.
    rewrite IH by assumption. unfold postings_of, dict_get_default.
    destruct (eq_dec term w) as [->|Hne].
    + rewrite dict_get_set_same.
      apply dict_get_None in Hni. rewrite Hni. rewrite app_nil_r.
      reflexivity.
    + rewrite dict_get_set_other by congruence. reflexivity.
Qed.

Lemma add_posting_fold_NoDup doc_id words wc : forall index,
  NoDup (keys index) ->
  NoDup (keys (fold_left (add_posting doc_id words) wc index)).
Proof.
  induction wc as [|[w c] wc IH]; intros index Hnd; simpl; [assumption|].
  apply IH. apply NoDup_keys_dict_set. assumption.
Qed.

Lemma add_posting_fold_no_empty doc_id words wc : forall index,
  no_empty_list index ->
  no_empty_list (fold_left (add_posting doc_id words) wc index).
Proof.
  induction wc as [|[w c] wc IH]; intros index Hne; simpl; [assumption|].
  apply IH. intros term ps I. apply In_dict_set in I.
  destruct I as [[_ ->]|I]; [|eauto].
  intros E. apply app_eq_nil in E. destruct E; discriminate.
Qed.

Lemma index_document_postings index doc term :
  postings_of (index_document index doc) term
  = postings_of index term ++ doc_posting term doc.
Proof.
  destruct doc as [doc_id content]. unfold index_document, doc_posting.
  rewrite add_posting_fold_postings by apply count_words_NoDup.
  rewrite count_words_get. simpl.
  destruct (count_occ string_dec (preprocess_text content) term) eqn:Ec;
    [reflexivity|].
  unfold term_frequency.
  destruct (preprocess_text content); [discriminate | reflexivity].
Qed.

Lemma index_fold_postings docs : forall index term,
  postings_of (fold_left index_document docs index) term
  = postings_of index term ++ flat_map (doc_posting term) docs.
Proof.
  induction docs as [|doc docs IH]; intros index term; simpl.
  - now rewrite app_nil_r.
  - rewrite IH, index_document_postings, app_assoc. reflexivity.
Qed.

Lemma index_fold_NoDup docs : forall index,
  NoDup (keys index) -> NoDup (keys (fold_left index_document docs index)).
Proof.
  induction docs as [|[doc_id content] docs IH]; intros index Hnd; simpl;
    [assumption|].
  apply IH. apply add_posting_fold_NoDup. assumption.
Qed.

Lemma index_fold_no_empty docs : forall index,
  no_empty_list index -> no_empty_list (fold_left index_document docs index).
Proof.
  induction docs as [|[doc_id content] docs IH]; intros index Hne; simpl;
    [assumption|].
  apply IH. apply add_posting_fold_no_empty. assumption.
Qed.

(** Reading a key of the index gives its posting list and conversely. *)
Lemma postings_of_In index term ps :
  NoDup (keys index) -> In (term, ps) index -> postings_of index term = ps.
Proof.
  intros Hnd I. unfold postings_of, dict_get_default.
  now rewrite (In_dict_get _ _ _ Hnd I).
Qed.

(** ** Document frequency *)

Lemma doc_posting_In term doc p :
  In p (doc_posting term doc) ->
  fst p = fst doc /\ In term (preprocess_text (snd doc))
  /\ 0 < snd p <= 1.
Proof.
  unfold doc_posting.
  pose proof (count_occ_bound string_dec term (preprocess_text (snd doc))) as Hb.
  destruct (count_occ string_dec (preprocess_text (snd doc)) term) as [|n] eqn:Ec;
    [intros []|].
  intros [<-|[]]. cbn [fst snd]. split; [reflexivity|]. split.
  - apply (count_occ_In string_dec). lia.
  - assert (Hl : 0 < INR (length (preprocess_text (snd doc)))).
    { apply lt_0_INR. lia. }
    assert (Hn : 0 < INR (S n)) by (apply lt_0_INR; lia).
    apply le_INR in Hb. split.
    + apply Rdiv_lt_0_compat; assumption.
    + apply Rmult_le_reg_r with (r := INR (length (preprocess_text (snd doc))));
        [assumption|].
      unfold Rdiv. rewrite Rmult_assoc, Rinv_l by lra. lra.
Qed.

Lemma doc_posting_length term doc :
  length (doc_posting term doc)
  = if in_dec string_dec term (preprocess_text (snd doc)) then 1%nat else 0%nat.
Proof.
  unfold doc_posting.
  destruct (in_dec string_dec term (preprocess_text (snd doc))) as [I|Hni].
  - apply (count_occ_In string_dec) in I.
    destruct (count_occ string_dec (preprocess_text (snd doc)) term);
      [lia | reflexivity].
  - apply (count_occ_not_In string_dec) in Hni. rewrite Hni. reflexivity.
Qed.

(** A term's postings are at most one per document, and one per document
    exactly when each document has the term. *)
Lemma df_le_N term docs :
  (length (flat_map (doc_posting term) docs) <= length docs)%nat.
Proof.
  induction docs as [|doc docs IH]; simpl; [lia|].
  rewrite length_app, doc_posting_length.
  destruct (in_dec string_dec term (preprocess_text (snd doc))); lia.
Qed.

Lemma df_eq_N term docs :
  length (flat_map (doc_posting term) docs) = length docs
  <-> forall doc, In doc docs -> In term (preprocess_text (snd doc)).
Proof.
  induction docs as [|doc docs IH]; simpl.
  - split; [intros _ doc [] | reflexivity].
  - rewrite length_app, doc_posting_length.
    pose proof (df_le_N term docs) as Hle.
    destruct (in_dec string_dec term (preprocess_text (snd doc))) as [I|Hni].
    + split.
      * intros E d [<-|Id]; [assumption|]. apply IH; [lia | assumption].
      * intros Hall. simpl. f_equal. apply IH. auto.
    + split; [lia|]. intros Hall. exfalso. apply Hni. apply Hall. auto.
Qed.

(** ** The IDF loop *)

Lemma set_idf_Ok n idf term ps idf' :
  set_idf n idf (term, ps) = Ok idf' ->
  length ps <> 0%nat /\ 0 < INR n / INR (length ps)
  /\ idf' = dict_set term (ln (INR n / INR (length ps))) idf.
Proof.
  unfold set_idf, py_div, math_log.
  destruct (length ps) as [|m] eqn:El; cbn [bind]; [discriminate|].
  destruct (Rlt_dec 0 (INR n / INR (S m))) as [Hpos|Hneg]; cbn [bind];
    [|discriminate].
  intros E. inversion E. auto.
Qed.

Lemma set_idf_total n idf term ps :
  (1 <= n)%nat -> ps <> [] ->
  set_idf n idf (term, ps)
  = Ok (dict_set term (ln (INR n / INR (length ps))) idf).
Proof.
  intros Hn Hps. unfold set_idf, py_div, math_log.
  destruct ps as [|p ps]; [congruence|]. cbn [length bind].
  destruct (Rlt_dec 0 (INR n / INR (S (length ps)))) as [Hpos|Hneg];
    [reflexivity|].
  exfalso. apply Hneg. apply Rdiv_lt_0_compat; apply lt_0_INR; lia.
Qed.

Lemma idf_loop_get n index : forall idf0 idf term,
  NoDup (keys index) ->
  foldM (set_idf n) index idf0 = Ok idf ->
  dict_get term idf
  = match dict_get term index with
    | Some ps => Some (ln (INR n / INR (length ps)))
    | None => dict_get term idf0
    end.
Proof.
  induction index as [|[t ps] index IH]; intros idf0 idf term Hnd E; simpl in *.
  - inversion E. reflexivity.
  - inversion Hnd as [|? ? Hni Hnd']; subst.
    destruct (set_idf n idf0 (t, ps)) as [idf1|] eqn:E1; simpl in E;
      [|discriminate].
    apply set_idf_Ok in E1. destruct E1 as (_ & _ & ->).
    rewrite (IH _ _ term Hnd' E).
    destruct (eq_dec term t) as [->|Hne].
    + apply dict_get_None in Hni. rewrite Hni.
      apply dict_get_set_same.
    + destruct (dict_get term index); [reflexivity|].
      apply dict_get_set_other. congruence.
Qed.

Lemma idf_loop_total n index : forall idf0,
  (1 <= n)%nat \/ index = [] -> no_empty_list index ->
  exists idf, foldM (set_idf n) index idf0 = Ok idf.
Proof.
  induction index as [|[t ps] index IH]; intros idf0 Hn Hne; simpl.
  - eauto.
  - destruct Hn as [Hn|Hn]; [|discriminate].
    rewrite set_idf_total; [simpl|assumption|].
    + apply IH; [auto|]. intros t' ps' I. apply (Hne t'). right. exact I.
    + apply (Hne t). left. reflexivity.
Qed.

(** ** Sums of reals *)

Lemma fold_left_Rplus l : forall a, fold_left Rplus l a = a + Rsum l.
Proof.
  induction l as [|x l IH]; intros a; simpl; [lra|]. rewrite IH. lra.
Qed.

Lemma sum_squares_Rsum vals : sum_squares vals = Rsum (map (fun v => v ^ 2) vals).
Proof. unfold sum_squares. rewrite fold_left_Rplus. lra. Qed.

Lemma Rsum_nonneg l : Forall (fun x => 0 <= x) l -> 0 <= Rsum l.
Proof. induction 1; simpl; lra. Qed.

Lemma sum_squares_nonneg vals : 0 <= sum_squares vals.
Proof.
  rewrite sum_squares_Rsum. apply Rsum_nonneg.
  apply Forall_forall. intros x I. apply in_map_iff in I.
  destruct I as [v [<- _]]. apply pow2_ge_0.
Qed.

Lemma Rsum_app l1 l2 : Rsum (l1 ++ l2) = Rsum l1 + Rsum l2.
Proof. induction l1 as [|x l1 IH]; simpl; [lra|]. rewrite IH. lra. Qed.

(** A sum of squares vanishes only when every term does. *)
Lemma sum_squares_zero vals : sum_squares vals = 0 -> Forall (fun v => v = 0) vals.
Proof.
  rewrite sum_squares_Rsum. induction vals as [|v vals IH]; simpl; intros E.
  - constructor.
  - assert (H1 : 0 <= v ^ 2) by apply pow2_ge_0.
    assert (H2 : 0 <= Rsum (map (fun v => v ^ 2) vals)).
    { rewrite <- sum_squares_Rsum. apply sum_squares_nonneg. }
    constructor.
    + assert (Hv : v ^ 2 = 0) by lra.
      unfold pow in Hv. apply Rmult_integral in Hv. destruct Hv; lra.
    + apply IH. lra.
Qed.

Lemma vector_length_Ok vec :
  vector_length vec = Ok (sqrt (sum_squares (values vec))).
Proof.
  unfold vector_length, math_sqrt.
  destruct (Rle_dec 0 (sum_squares (values vec))) as [_|Hn]; [reflexivity|].
  exfalso. apply Hn. apply sum_squares_nonneg.
Qed.

(** ** The document vectors *)

Lemma add_weight_Ok idf doc_id term vec p vec' :
  add_weight idf doc_id term vec p = Ok vec' ->
  (fst p <> doc_id /\ vec' = vec)
  \/ (fst p = doc_id
      /\ exists i, dict_get term idf = Some i
                   /\ vec' = dict_set term (snd p * i) vec).
Proof.
  unfold add_weight, dict_item. destruct p as [pd tf]. simpl.
  destruct (Z.eqb_spec pd doc_id) as [->|Hne].
  - destruct (dict_get term idf) as [i|]; simpl; [|discriminate].
    intros E. inversion E. right. eauto.
  - intros E. inversion E. left. auto.
Qed.

Lemma vector_from_set idf index doc_id term ps tf i vec :
  In (term, ps) index -> In (doc_id, tf) ps -> dict_get term idf = Some i ->
  vector_from idf index doc_id vec ->
  vector_from idf index doc_id (dict_set term (tf * i) vec).
Proof.
  intros It Ip Ei [Hnd Hw]. split.
  - apply NoDup_keys_dict_set. exact Hnd.
  - intros t w I. apply In_dict_set in I. destruct I as [[-> ->]|I]; [|auto].
    exists ps, tf, i. auto.
Qed.

Lemma vector_loop_from idf doc_id index vec :
  foldM (add_term_weights idf doc_id) index [] = Ok vec ->
  vector_from idf index doc_id vec.
Proof.
  apply foldM_invariant.
  - intros v [t ps] v' It Hv E. unfold add_term_weights in E.
    revert E. apply foldM_invariant; [|exact Hv].
    intros v1 [pd tf] v2 Ip Hv1 E. apply add_weight_Ok in E.
    destruct E as [[_ ->]|[Eq [i [Ei ->]]]]; [exact Hv1|].
    simpl in Eq. subst pd. simpl. eapply vector_from_set; eassumption.
  - split; [constructor | intros ? ? []].
Qed.

(** The vector loop returns when the IDF table covers the index. *)
Lemma vector_loop_total idf doc_id index :
  (forall term, In term (keys index) -> In term (keys idf)) ->
  forall vec0, exists vec,
    foldM (add_term_weights idf doc_id) index vec0 = Ok vec.
Proof.
  induction index as [|[t ps] index IH]; intros Hcov vec0; simpl; [eauto|].
  assert (Ht : exists i, dict_get t idf = Some i).
  { apply In_keys_dict_get. apply Hcov. left. reflexivity. }
  destruct Ht as [i Ei].
  assert (Hin : forall v, exists v',
             add_term_weights idf doc_id v (t, ps) = Ok v').
  { unfold add_term_weights. clear Hcov IH.
    induction ps as [|[pd tf] ps IHp]; intros v; simpl; [eauto|].
    unfold add_weight at 1, dict_item. rewrite Ei.
    destruct (Z.eqb pd doc_id); simpl; apply IHp. }
  destruct (Hin vec0) as [v1 ->]. simpl. apply IH.
  intros term I. apply Hcov. right. exact I.
Qed.

Lemma document_vector_Ok self vectors lengths doc_id st :
  document_vector self (vectors, lengths) doc_id = Ok st ->
  exists vec,
    foldM (add_term_weights (idf_values self) doc_id) (inverted_index self) []
    = Ok vec
    /\ st = (dict_set doc_id vec vectors,
             dict_set doc_id (sqrt (sum_squares (values vec))) lengths).
Proof.
  unfold document_vector.
  destruct (foldM (add_term_weights (idf_values self) doc_id)
                  (inverted_index self) []) as [vec|]; simpl; [|discriminate].
  rewrite vector_length_Ok. simpl. intros E. inversion E. eauto.
Qed.

Lemma vectors_loop self ks : forall vectors0 lengths0 vectors lengths,
  foldM (document_vector self) ks (vectors0, lengths0) = Ok (vectors, lengths) ->
  forall doc_id,
    (In doc_id ks -> has_vector self vectors lengths doc_id)
    /\ (~ In doc_id ks ->
        dict_get doc_id vectors = dict_get doc_id vectors0
        /\ dict_get doc_id lengths = dict_get doc_id lengths0).
Proof.
  induction ks as [|k ks IH]; intros V0 L0 V L E d; simpl in E.
  - inversion E; subst. split; [intros [] | auto].
  - destruct (document_vector self (V0, L0) k) as [[V1 L1]|] eqn:E1;
      simpl in E; [|discriminate].
    apply document_vector_Ok in E1. destruct E1 as [vec [Ev E1]].
    inversion E1; subst V1 L1. clear E1.
    destruct (IH _ _ _ _ E d) as [Hin Hout].
    destruct (in_dec Z.eq_dec d ks) as [I|Hni].
    + split; [auto|]. intros Hn. exfalso. apply Hn. right. exact I.
    + destruct (Hout Hni) as [HV HL]. split.
      * intros [->|I]; [|contradiction].
        exists vec. rewrite HV, HL, !dict_get_set_same. auto.
      * intros Hn. rewrite HV, HL.
        rewrite !dict_get_set_other; [auto| |]; intros ->; apply Hn; left;
          reflexivity.
Qed.

Lemma vectors_loop_total self ks :
  (forall term, In term (keys (inverted_index self)) ->
                In term (keys (idf_values self))) ->
  forall st, exists st', foldM (document_vector self) ks st = Ok st'.
Proof.
  intros Hcov. induction ks as [|k ks IH]; intros [V0 L0]; simpl; [eauto|].
  unfold document_vector at 1.
  destruct (vector_loop_total (idf_values self) k (inverted_index self) Hcov [])
    as [vec ->].
  simpl. rewrite vector_length_Ok. simpl. apply IH.
Qed.

(** ** The loader *)

Lemma load_row_Ok md row md' :
  load_row md row = Ok md' ->
  exists doc_id meta,
    parsed_id row = Some doc_id /\ row_meta row = Some meta
    /\ md' = dict_set doc_id meta md.
Proof.
  unfold load_row, parsed_id, row_meta, dict_item, int_of_field.
  destruct (dict_get "id" row) as [[s|]|]; simpl; try discriminate.
  destruct (py_int s) as [doc_id|]; simpl; [|discriminate].
  destruct (dict_get "title" row) as [title|]; simpl; [|discriminate].
  destruct (dict_get "filename" row) as [filename|]; simpl; [|discriminate].
  destruct (dict_get "url" row) as [url|]; simpl; [|discriminate].
  destruct (dict_get "date" row) as [date|]; simpl; [|discriminate].
  intros E. inversion E. eauto.
Qed.

Lemma load_content_Ok fs docs item docs' :
  load_content fs docs item = Ok docs' ->
  exists content,
    named_file fs (snd item) = Some content
    /\ docs' = dict_set (fst item) content docs.
Proof.
  unfold load_content, named_file. destruct item as [doc_id meta]. simpl.
  destruct (Meta.filename meta) as [name|]; [|discriminate].
  destruct (articles_dir fs name) as [content|] eqn:Ea; [|discriminate].
  intros E. inversion E. eauto.
Qed.

Lemma load_contents_NoDup fs items docs0 docs :
  foldM (load_content fs) items docs0 = Ok docs ->
  NoDup (keys docs0) -> NoDup (keys docs).
Proof.
  intros E H0. revert H0 E. apply (foldM_invariant (fun m => NoDup (keys m))).
  intros m item m' _ Hm E. apply load_content_Ok in E.
  destruct E as (content & _ & ->). now apply NoDup_keys_dict_set.
Qed.

Lemma load_contents_keys fs items : forall docs0 docs doc_id,
  foldM (load_content fs) items docs0 = Ok docs ->
  In doc_id (keys docs) <-> In doc_id (keys docs0) \/ In doc_id (keys items).
Proof.
  induction items as [|item items IH]; intros docs0 docs d E; simpl in E.
  - inversion E; subst. simpl. tauto.
  - destruct (load_content fs docs0 item) as [docs1|] eqn:E1; simpl in E;
      [|discriminate].
    apply load_content_Ok in E1. destruct E1 as (content & _ & ->).
    rewrite (IH _ _ d E), In_keys_dict_set. simpl. intuition congruence.
Qed.

(** What a returning [load_documents] did. *)
Lemma load_documents_Ok fs self0 self :
  load_documents fs self0 = Ok self ->
  exists rows,
    metadata_file fs = Some rows
    /\ foldM load_row rows (metadata self0) = Ok (metadata self)
    /\ foldM (load_content fs) (metadata self) (documents self0)
       = Ok (documents self)
    /\ N self = length (documents self)
    /\ inverted_index self = inverted_index self0
    /\ idf_values self = idf_values self0
    /\ doc_vectors self = doc_vectors self0
    /\ doc_lengths self = doc_lengths self0.
Proof.
  unfold load_documents. destruct (metadata_file fs) as [rows|]; [|discriminate].
  destruct (foldM load_row rows (metadata self0)) as [md|] eqn:Em; simpl;
    [|discriminate].
  destruct (foldM (load_content fs) md (documents self0)) as [docs|] eqn:Ed;
    simpl; [|discriminate].
  intros E. inversion E; subst; simpl. exists rows. auto 10.
Qed.

Lemma build_inverted_index_Ok self0 self :
  build_inverted_index self0 = Ok self ->
  inverted_index self
  = fold_left index_document (documents self0) (inverted_index self0)
  /\ foldM (set_idf (N self0)) (inverted_index self) (idf_values self0)
     = Ok (idf_values self)
  /\ documents self = documents self0 /\ metadata self = metadata self0
  /\ N self = N self0
  /\ doc_vectors self = doc_vectors self0
  /\ doc_lengths self = doc_lengths self0.
Proof.
  unfold build_inverted_index.
  destruct (foldM (set_idf (N self0))
              (fold_left index_document (documents self0) (inverted_index self0))
              (idf_values self0)) as [idf|] eqn:Ei; simpl; [|discriminate].
  intros E. inversion E; subst; simpl. auto 10.
Qed.

Lemma compute_document_vectors_Ok self0 self :
  compute_document_vectors self0 = Ok self ->
  foldM (document_vector self0) (keys (documents self0))
        (doc_vectors self0, doc_lengths self0)
  = Ok (doc_vectors self, doc_lengths self)
  /\ documents self = documents self0 /\ metadata self = metadata self0
  /\ N self = N self0
  /\ inverted_index self = inverted_index self0
  /\ idf_values self = idf_values self0.
Proof.
  unfold compute_document_vectors.
  destruct (foldM (document_vector self0) (keys (documents self0))
              (doc_vectors self0, doc_lengths self0)) as [[V L]|] eqn:Ev;
    simpl; [|discriminate].
  intros E. inversion E; subst; simpl. auto 10.
Qed.

Lemma build_index_Ok P fs self0 self b :
  build_index P fs self0 = Ok (self, b) ->
  exists e1 e2,
    load_documents fs self0 = Ok e1
    /\ build_inverted_index e1 = Ok e2
    /\ compute_document_vectors e2 = Ok self
    /\ b = save_index P self.
Proof.
  unfold build_index.
  destruct (load_documents fs self0) as [e1|]; simpl; [|discriminate].
  destruct (build_inverted_index e1) as [e2|] eqn:E2; simpl; [|discriminate].
  destruct (compute_document_vectors e2) as [e3|] eqn:E3; simpl;
    [|discriminate].
  intros E. inversion E; subst. exists e1, e2. auto.
Qed.

(** ** What a build from a fresh engine establishes *)

Lemma build_index_built P fs self b :
  build_index P fs init = Ok (self, b) -> built self.
Proof.
  intros E. apply build_index_Ok in E.
  destruct E as (e1 & e2 & E1 & E2 & E3 & _).
  apply load_documents_Ok in E1.
  destruct E1 as (rows & _ & Hmd & Hdocs & HN & Hidx & Hidf & HV & HL).
  simpl in *.
  apply build_inverted_index_Ok in E2.
  destruct E2 as (Hidx2 & Hidf2 & Hd2 & Hm2 & HN2 & HV2 & HL2).
  apply compute_document_vectors_Ok in E3.
  destruct E3 as (Hvec & Hd3 & Hm3 & HN3 & Hidx3 & Hidf3).
  rewrite Hidx in Hidx2. rewrite Hidf in Hidf2.
  assert (Hnd : NoDup (keys (documents self))).
  { rewrite Hd3, Hd2. eapply load_contents_NoDup; [eassumption | constructor]. }
  assert (Hndi : NoDup (keys (inverted_index self))).
  { rewrite Hidx3, Hidx2. apply index_fold_NoDup. constructor. }
  constructor.
  - exact Hnd.
  - intros d I. rewrite Hd3, Hd2 in I. rewrite Hm3, Hm2.
    apply (load_contents_keys _ _ _ _ d Hdocs) in I. destruct I as [[]|I].
    exact I.
  - rewrite HN3, HN2, Hd3, Hd2. exact HN.
  - exact Hndi.
  - rewrite Hidx3, Hidx2. apply index_fold_no_empty. intros ? ? [].
  - intros t. rewrite Hidx3, Hidx2, Hd3, Hd2.
    rewrite index_fold_postings. reflexivity.
  - intros t. rewrite Hidf3, HN3, HN2. rewrite Hidx3 in Hndi |- *.
    rewrite (idf_loop_get _ _ _ _ t Hndi Hidf2). reflexivity.
  - intros d I. rewrite Hd3 in I.
    destruct (proj1 (vectors_loop _ _ _ _ _ _ Hvec d) I) as (vec & Ev & EV & EL).
    exists vec. split; [exact EV|]. split; [exact EL|].
    rewrite Hidf3, Hidx3. apply vector_loop_from. exact Ev.
Qed.

(** ** The IDF table of a built index *)

Lemma ln_ratio_nonneg (n df : nat) :
  (1 <= df <= n)%nat -> 0 <= ln (INR n / INR df).
Proof.
  intros [H1 H2]. rewrite <- ln_1.
  assert (Hdf : 0 < INR df) by (apply lt_0_INR; lia).
  apply le_INR in H2.
  assert (Hq : 1 <= INR n / INR df).
  { apply Rmult_le_reg_r with (r := INR df); [assumption|].
    unfold Rdiv. rewrite Rmult_assoc, Rinv_l by lra. lra. }
  destruct Hq as [Hlt|<-]; [|lra].
  left. apply ln_increasing; lra.
Qed.

Lemma ln_ratio_zero (n df : nat) :
  (1 <= df <= n)%nat -> (ln (INR n / INR df) = 0 <-> df = n).
Proof.
  intros [H1 H2].
  assert (Hdf : 0 < INR df) by (apply lt_0_INR; lia).
  assert (Hn : 0 < INR n) by (apply lt_0_INR; lia).
  split.
  - intros E. rewrite <- ln_1 in E. apply ln_inv in E;
      [|apply Rdiv_lt_0_compat; assumption | lra].
    apply INR_eq. apply Rmult_eq_reg_r with (r := / INR df).
    + rewrite Rinv_r by lra. symmetry. exact E.
    + apply Rinv_neq_0_compat. lra.
  - intros ->. unfold Rdiv. rewrite Rinv_r by lra. apply ln_1.
Qed.

(** On a built index the posting list of a term holds one posting per
    document that has the term, and the IDF table holds [ln (N / df)]. *)
Lemma built_term self term ps :
  built self ->
  dict_get term (inverted_index self) = Some ps ->
  ps = flat_map (doc_posting term) (documents self)
  /\ (1 <= length ps <= N self)%nat
  /\ dict_get term (idf_values self)
     = Some (ln (INR (N self) / INR (length ps))).
Proof.
  intros B E.
  assert (Eps : ps = flat_map (doc_posting term) (documents self)).
  { rewrite <- (built_postings _ B). unfold postings_of, dict_get_default.
    now rewrite E. }
  split; [exact Eps|]. split.
  - split.
    + assert (Hne : ps <> []).
      { apply (built_no_empty _ B term). apply dict_get_Some_In. exact E. }
      destruct ps; [congruence | simpl; lia].
    + rewrite (built_N _ B), Eps. apply df_le_N.
  - rewrite (built_idf _ B), E. reflexivity.
Qed.

Lemma built_idf_nonneg self term i :
  built self -> dict_get term (idf_values self) = Some i -> 0 <= i.
Proof.
  intros B E. rewrite (built_idf _ B) in E.
  destruct (dict_get term (inverted_index self)) as [ps|] eqn:Ei;
    [|discriminate].
  inversion E; subst. apply ln_ratio_nonneg.
  apply (built_term _ _ _ B Ei).
Qed.

(** ** C3 *)

(** C3 (amended). After a build from a fresh engine, for every term [t] of
    the index, [idf(t)] is [ln (N / df(t))] with [df(t)] the length of
    [t]'s posting list (and [N >= 1]); [idf(t) >= 0], and [idf(t) = 0]
    exactly when [t] occurs in every loaded document.  (A build on an
    engine that was built before appends to the posting lists, so [df]
    counts postings twice and the sign is lost.) *)
Theorem idf_is_log_ratio (P : pickle) (fs : file_system) (self : engine)
  (b : blob P) (term : string) (ps : list posting) :
  build_index P fs init = Ok (self, b) ->
  dict_get term (inverted_index self) = Some ps ->
  let idf := ln (INR (N self) / INR (length ps)) in
  (1 <= N self)%nat
  /\ dict_get term (idf_values self) = Some idf
  /\ 0 <= idf
  /\ (idf = 0 <->
      forall doc_id content,
        In (doc_id, content) (documents self) ->
        In term (preprocess_text content)).
Proof.
  intros E Ei idf. apply build_index_built in E.
  destruct (built_term _ _ _ E Ei) as (Eps & Hdf & Eidf).
  split; [lia|]. split; [exact Eidf|]. split.
  - apply ln_ratio_nonneg. exact Hdf.
  - unfold idf. rewrite (ln_ratio_zero _ _ Hdf).
    rewrite (built_N _ E), Eps, df_eq_N. split.
    + intros H d c I. apply (H (d, c) I).
    + intros H [d c] I. apply (H d c I).
Qed.

(** ** C8 *)

(** Of the postings of a term, those of one document. *)
Lemma filter_doc_postings term docs doc_id content :
  NoDup (keys docs) -> In (doc_id, content) docs ->
  filter (fun p => Z.eqb (fst p) doc_id) (flat_map (doc_posting term) docs)
  = doc_posting term (doc_id, content).
Proof.
  assert (Hself : forall doc,
             filter (fun p => Z.eqb (fst p) (fst doc)) (doc_posting term doc)
             = doc_posting term doc).
  { intros doc. unfold doc_posting.
    destruct (count_occ string_dec (preprocess_text (snd doc)) term);
      [reflexivity|].
    simpl. now rewrite Z.eqb_refl. }
  assert (Hother : forall doc, fst doc <> doc_id ->
             filter (fun p => Z.eqb (fst p) doc_id) (doc_posting term doc) = []).
  { intros doc Hne. unfold doc_posting.
    destruct (count_occ string_dec (preprocess_text (snd doc)) term);
      [reflexivity|].
    simpl. destruct (Z.eqb_spec (fst doc) doc_id); [contradiction | reflexivity]. }
  induction docs as [|doc docs IH]; intros Hnd I; [destruct I|].
  simpl in Hnd. inversion Hnd as [|? ? Hni Hnd']; subst.
  cbn [flat_map]. rewrite filter_app. destruct I as [->|I].
  - pose proof (Hself (doc_id, content)) as Hs. cbn [fst] in Hs. rewrite Hs.
    assert (Hrest : filter (fun p => Z.eqb (fst p) doc_id)
                      (flat_map (doc_posting term) docs) = []).
    { clear IH Hnd Hnd'. induction docs as [|d docs IH]; [reflexivity|].
      cbn [flat_map]. rewrite filter_app, Hother, IH; [reflexivity| |].
      - intros I. apply Hni. right. exact I.
      - intros E. apply Hni. left. exact E. }
    rewrite Hrest. apply app_nil_r.
  - rewrite Hother, IH; [reflexivity|assumption|assumption|].
    intros E. apply Hni. rewrite E.
    apply (in_map fst) in I. exact I.
Qed.

Lemma doc_frequencies_sum index doc_id (g : string -> R) :
  (forall term ps, In (term, ps) index ->
     Rsum (map snd (filter (fun p => Z.eqb (fst p) doc_id) ps)) = g term) ->
  Rsum (doc_frequencies index doc_id) = Rsum (map g (keys index)).
Proof.
  induction index as [|[t ps] index IH]; intros Hg; [reflexivity|].
  unfold doc_frequencies in *. simpl. rewrite Rsum_app, IH.
  - rewrite (Hg t ps) by (left; reflexivity). reflexivity.
  - intros t' ps' I. apply Hg. right. exact I.
Qed.

Lemma list_sum_count_occ (L words : list string) :
  NoDup L -> incl words L ->
  list_sum (map (count_occ string_dec words) L) = length words.
Proof.
  intros Hnd. induction words as [|w words IH]; intros Hincl.
  - clear Hnd Hincl. induction L as [|t L IHL]; simpl; auto.
  - assert (Hw : In w L) by (apply Hincl; left; reflexivity).
    assert (Hsplit : forall M,
               list_sum (map (count_occ string_dec (w :: words)) M)
               = (count_occ string_dec M w
                  + list_sum (map (count_occ string_dec words) M))%nat).
    { induction M as [|t M IHM]; [reflexivity|].
      change (list_sum (map (count_occ string_dec (w :: words)) (t :: M)))
        with (count_occ string_dec (w :: words) t
              + list_sum (map (count_occ string_dec (w :: words)) M))%nat.
      change (list_sum (map (count_occ string_dec words) (t :: M)))
        with (count_occ string_dec words t
              + list_sum (map (count_occ string_dec words) M))%nat.
      rewrite IHM. simpl.
      destruct (string_dec w t) as [->|Hne].
      - destruct (string_dec t t); [lia | congruence].
      - destruct (string_dec t w); [congruence | lia]. }
    rewrite Hsplit, IH.
    + rewrite (proj1 (NoDup_count_occ' string_dec L) Hnd w Hw). reflexivity.
    + intros x I. apply Hincl. right. exact I.
Qed.

Lemma Rsum_INR_div (c : string -> nat) (x : R) (L : list string) :
  Rsum (map (fun t => INR (c t) / x) L) = INR (list_sum (map c L)) / x.
Proof.
  induction L as [|t L IH]; simpl.
  - unfold Rdiv. change (INR 0) with 0. lra.
  - rewrite IH, plus_INR. unfold Rdiv. lra.
Qed.

(** C8 (amended). After a build from a fresh engine, for every document
    whose filtered token sequence is not empty, the normalized term
    frequencies of its postings, read as the exact quotients [count / len],
    sum to 1 over its distinct terms, and each of them lies in [0,1].  (As
    stored they are the quotients rounded to binary64, and the sum of the
    rounded numbers need not be 1.) *)
Theorem term_frequencies_sum_to_one (P : pickle) (fs : file_system)
  (self : engine) (b : blob P) (doc_id : Z) (content : string) :
  build_index P fs init = Ok (self, b) ->
  In (doc_id, content) (documents self) ->
  preprocess_text content <> [] ->
  Rsum (doc_frequencies (inverted_index self) doc_id) = 1
  /\ Forall (fun tf => 0 <= tf <= 1)
            (doc_frequencies (inverted_index self) doc_id).
Proof.
  intros E Id Hne. apply build_index_built in E.
  set (words := preprocess_text content) in *.
  assert (Hps : forall term ps, In (term, ps) (inverted_index self) ->
             ps = flat_map (doc_posting term) (documents self)).
  { intros t ps I. rewrite <- (built_postings _ E). symmetry.
    apply postings_of_In; [apply (built_index _ E) | exact I]. }
  split.
  - rewrite (doc_frequencies_sum _ _
               (fun t => INR (count_occ string_dec words t) / INR (length words))).
    + rewrite Rsum_INR_div, list_sum_count_occ.
      * unfold Rdiv. apply Rinv_r. apply not_0_INR.
        destruct words; [congruence | discriminate].
      * apply (built_index _ E).
      * intros w Iw.
        destruct (dict_get w (inverted_index self)) as [ps|] eqn:Eg;
          [apply dict_get_Some_key in Eg; exact Eg|].
        exfalso.
        pose proof (built_postings _ E w) as Hp.
        unfold postings_of, dict_get_default in Hp. rewrite Eg in Hp.
        assert (I0 : In (doc_id, INR (count_occ string_dec words w)
                                  / INR (length words))
                        (flat_map (doc_posting w) (documents self))).
        { apply in_flat_map. exists (doc_id, content). split; [exact Id|].
          unfold doc_posting. simpl. fold words.
          apply (count_occ_In string_dec) in Iw.
          destruct (count_occ string_dec words w); [lia|]. left. reflexivity. }
        rewrite <- Hp in I0. destruct I0.
    + intros t ps I. rewrite (Hps t ps I).
      rewrite (filter_doc_postings t _ doc_id content (built_docs _ E) Id).
      unfold doc_posting. simpl. fold words.
      destruct (count_occ string_dec words t); simpl.
      * unfold Rdiv. change (INR 0) with 0. lra.
      * lra.
  - apply Forall_forall. intros tf I. unfold doc_frequencies in I.
    apply in_flat_map in I. destruct I as [[t ps] [It I]]. simpl in I.
    apply in_map_iff in I. destruct I as [p [<- Ip]].
    apply filter_In in Ip. destruct Ip as [Ip _].
    rewrite (Hps t ps It) in Ip. apply in_flat_map in Ip.
    destruct Ip as [doc [_ Ip]]. apply doc_posting_In in Ip. lra.
Qed.

(** ** The stable descending sort *)

Lemma Rgtb_true x y : x > y -> Rgtb x y = true.
Proof. intros H. unfold Rgtb. destruct (Rgt_dec x y); [reflexivity | contradiction]. Qed.

Lemma Rgtb_false x y : ~ x > y -> Rgtb x y = false.
Proof. intros H. unfold Rgtb. destruct (Rgt_dec x y); [contradiction | reflexivity]. Qed.

Lemma Rgtb_spec x y : Rgtb x y = true <-> x > y.
Proof.
  unfold Rgtb. destruct (Rgt_dec x y); split; auto; discriminate.
Qed.

Lemma Rltb_spec x y : Rltb x y = true <-> x < y.
Proof.
  unfold Rltb. destruct (Rlt_dec x y); split; auto; discriminate.
Qed.

Lemma insert_desc_In x y l : In y (insert_desc x l) <-> y = x \/ In y l.
Proof.
  induction l as [|z l IH]; simpl.
  - intuition congruence.
  - destruct (Rltb (snd x) (snd z)); simpl; [rewrite IH|]; intuition congruence.
Qed.

Lemma sorted_desc_In y l : In y (sorted_desc l) <-> In y l.
Proof.
  induction l as [|x l IH]; simpl; [tauto|].
  rewrite insert_desc_In, IH. intuition congruence.
Qed.

Section StableSort.
Variable T : Z -> Z -> Prop.

Lemma insert_desc_sorted x l :
  StronglySorted (key_then T) l ->
  Forall (fun y => T (fst x) (fst y)) l ->
  StronglySorted (key_then T) (insert_desc x l).
Proof.
  induction l as [|y l IH]; intros Hs Hx; simpl.
  - constructor; constructor.
  - inversion Hs as [|? ? Hs' Hy]; subst.
    inversion Hx as [|? ? Hxy Hx']; subst.
    destruct (Rltb (snd x) (snd y)) eqn:Elt.
    + apply Rltb_spec in Elt. constructor; [apply IH; assumption|].
      apply Forall_forall. intros z Iz. apply insert_desc_In in Iz.
      destruct Iz as [->|Iz].
      * left. lra.
      * rewrite Forall_forall in Hy. apply Hy. exact Iz.
    + assert (Hge : snd x >= snd y).
      { apply Rnot_lt_ge. intros Hlt. apply Rltb_spec in Hlt. congruence. }
      constructor; [exact Hs|].
      constructor.
      * destruct Hge as [Hgt|Heq]; [left; exact Hgt | right; auto].
      * apply Forall_forall. intros z Iz.
        rewrite Forall_forall in Hy, Hx'.
        destruct (Hy z Iz) as [Hgt|[Heq Hyz]].
        -- left. lra.
        -- destruct Hge as [Hgt|Heq']; [left; lra | right].
           split; [lra | apply Hx'; exact Iz].
Qed.

Lemma sorted_desc_sorted l :
  StronglySorted (fun a b => T (fst a) (fst b)) l ->
  StronglySorted (key_then T) (sorted_desc l).
Proof.
  induction l as [|x l IH]; intros Hs; simpl.
  - constructor.
  - inversion Hs as [|? ? Hs' Hx]; subst.
    apply insert_desc_sorted; [apply IH; exact Hs'|].
    apply Forall_forall. intros y Iy. apply (proj1 (sorted_desc_In _ _)) in Iy.
    rewrite Forall_forall in Hx. apply Hx. exact Iy.
Qed.
End StableSort.

Lemma In_firstn {A : Type} (x : A) n : forall l, In x (firstn n l) -> In x l.
Proof.
  induction n as [|n IH]; intros l I; simpl in I; [destruct I|].
  destruct l as [|y l]; [destruct I|].
  destruct I as [E|I]; [left; exact E | right; apply IH; exact I].
Qed.

Lemma StronglySorted_firstn {A : Type} (R : A -> A -> Prop) n : forall l,
  StronglySorted R l -> StronglySorted R (firstn n l).
Proof.
  induction n as [|n IH]; intros l Hs; simpl; [constructor|].
  destruct l as [|x l]; [constructor|].
  inversion Hs as [|? ? Hs' Hx]; subst. constructor; [apply IH; exact Hs'|].
  apply Forall_forall. intros y Iy. rewrite Forall_forall in Hx. apply Hx.
  revert Iy. apply In_firstn.
Qed.

Lemma In_slice_to {A : Type} (k : Z) (l : list A) x :
  In x (slice_to k l) -> In x l.
Proof.
  unfold slice_to. destruct (k <? 0)%Z; apply In_firstn.
Qed.

Lemma StronglySorted_slice_to {A : Type} (R : A -> A -> Prop) k l :
  StronglySorted R l -> StronglySorted R (slice_to k l).
Proof.
  unfold slice_to. destruct (k <? 0)%Z; apply StronglySorted_firstn.
Qed.

(** A sorted list stays sorted along a position-wise correspondence. *)
Lemma StronglySorted_Forall2 {A B : Type} (R : A -> A -> Prop)
  (R' : B -> B -> Prop) (M : A -> B -> Prop) l l' :
  (forall a b a' b', M a a' -> M b b' -> R a b -> R' a' b') ->
  Forall2 M l l' -> StronglySorted R l -> StronglySorted R' l'.
Proof.
  intros HM HF. induction HF as [|a a' l l' Ha HF IH]; intros Hs.
  - constructor.
  - inversion Hs as [|? ? Hs' Hx]; subst. constructor; [apply IH; exact Hs'|].
    clear IH Hs Hs'. induction HF as [|b b' l l' Hb HF IH]; constructor.
    + inversion Hx; subst. eapply HM; eassumption.
    + apply IH. inversion Hx; assumption.
Qed.

(** Items collected while walking [ks] come in the order of [ks]. *)
Lemma flat_map_in_order (f : Z -> list (Z * R)) (ks : list Z) :
  (forall d p, In p (f d) -> fst p = d) ->
  (forall d, (length (f d) <= 1)%nat) ->
  StronglySorted (fun a b => precedes (fst a) (fst b) ks) (flat_map f ks).
Proof.
  intros Hf Hlen.
  assert (G : forall todo done, ks = done ++ todo ->
             StronglySorted (fun a b => precedes (fst a) (fst b) ks)
                            (flat_map f todo)).
  { induction todo as [|d todo IH]; intros done E; simpl; [constructor|].
    assert (Hrest : StronglySorted (fun a b => precedes (fst a) (fst b) ks)
                                   (flat_map f todo)).
    { apply (IH (done ++ [d])). rewrite <- app_assoc. exact E. }
    pose proof (Hlen d) as Hl. pose proof (Hf d) as Hd.
    destruct (f d) as [|p [|q r]]; simpl in *; [exact Hrest| |lia].
    constructor; [exact Hrest|].
    apply Forall_forall. intros b Ib. apply in_flat_map in Ib.
    destruct Ib as [d' [Id' Ib]]. apply Hf in Ib.
    apply in_split in Id'. destruct Id' as [r1 [r2 ->]].
    rewrite (Hd p (or_introl eq_refl)), Ib.
    exists done, r1, r2. exact E. }
  apply (G ks []). reflexivity.
Qed.

(** ** The scoring loop *)

Lemma add_products self doc_id vec qv :
  dict_get doc_id (doc_vectors self) = Some vec ->
  forall s0, foldM (add_product self doc_id) qv s0 = Ok (s0 + dot qv vec).
Proof.
  intros Ev. unfold dot.
  induction qv as [|[t qw] qv IH]; intros s0; simpl.
  - f_equal. lra.
  - unfold add_product at 1, dict_item. rewrite Ev. simpl.
    assert (Hw : weight_in vec t
                 = match dict_get t vec with Some w => w | None => 0 end)
      by reflexivity.
    rewrite Hw.
    destruct (dict_get t vec) as [w|]; simpl; rewrite IH; f_equal; lra.
Qed.

Lemma document_score_Ok self qv qlen doc_id vec len :
  dict_get doc_id (doc_vectors self) = Some vec ->
  dict_get doc_id (doc_lengths self) = Some len ->
  document_score self qv qlen doc_id
  = Ok (if Rgtb len 0 && Rgtb qlen 0
        then (0 + dot qv vec) / (len * qlen) else 0 + dot qv vec).
Proof.
  intros Ev El. unfold document_score.
  rewrite (add_products _ _ _ _ Ev). simpl.
  unfold dict_item. rewrite El. reflexivity.
Qed.

Lemma scores_loop self qv qlen ks :
  NoDup ks ->
  (forall d, In d ks -> exists s, document_score self qv qlen d = Ok s) ->
  forall acc, (forall d, In d ks -> ~ In d (keys acc)) ->
  foldM (add_score self qv qlen) ks acc
  = Ok (acc ++ flat_map (score_entry self qv qlen) ks).
Proof.
  induction ks as [|k ks IH]; intros Hnd Hs acc Hacc; simpl.
  - now rewrite app_nil_r.
  - inversion Hnd as [|? ? Hni Hnd']; subst.
    destruct (Hs k (or_introl eq_refl)) as [s Es].
    unfold add_score at 1, score_entry at 1. rewrite Es. simpl.
    destruct (Rgtb s 0).
    + rewrite dict_set_absent by (apply Hacc; left; reflexivity).
      rewrite IH; [rewrite <- app_assoc; reflexivity | assumption | |].
      * intros d I. apply Hs. right. exact I.
      * intros d I. unfold keys. rewrite map_app, in_app_iff. simpl.
        intros [I'|[E|[]]].
        -- apply (Hacc d); [right; exact I | exact I'].
        -- subst. contradiction.
    + rewrite IH; [reflexivity | assumption | |].
      * intros d I. apply Hs. right. exact I.
      * intros d I. apply Hacc. right. exact I.
Qed.

Lemma score_entry_In self qv qlen doc_id p :
  In p (score_entry self qv qlen doc_id) ->
  fst p = doc_id /\ document_score self qv qlen doc_id = Ok (snd p)
  /\ snd p > 0.
Proof.
  unfold score_entry.
  destruct (document_score self qv qlen doc_id) as [s|]; [|intros []].
  destruct (Rgtb s 0) eqn:Eg; [|intros []].
  intros [<-|[]]. simpl. apply Rgtb_spec in Eg. auto.
Qed.

Lemma score_entry_length self qv qlen doc_id :
  (length (score_entry self qv qlen doc_id) <= 1)%nat.
Proof.
  unfold score_entry.
  destruct (document_score self qv qlen doc_id) as [s|]; [|simpl; lia].
  destruct (Rgtb s 0); simpl; lia.
Qed.

Lemma results_loop self query_terms items :
  (forall item, In item items ->
     In (fst item) (keys (documents self))
     /\ In (fst item) (keys (metadata self))) ->
  forall acc, exists hs,
    foldM (add_result self query_terms) items acc = Ok (acc ++ hs)
    /\ Forall2 (hit_of self query_terms) items hs.
Proof.
  induction items as [|[d s] items IH]; intros Hin acc; simpl.
  - exists []. rewrite app_nil_r. split; [reflexivity | constructor].
  - destruct (Hin (d, s) (or_introl eq_refl)) as [Id Im]. simpl in Id, Im.
    apply In_keys_dict_get in Id. destruct Id as [content Ec].
    apply In_keys_dict_get in Im. destruct Im as [meta Em].
    unfold add_result at 1, dict_item. rewrite Ec, Em. simpl.
    destruct (IH (fun item I => Hin item (or_intror I))
                 (acc ++ [Hit.mk d s (Meta.title meta)
                            (summarize query_terms content) (Meta.url meta)
                            (Meta.date meta)])) as [hs [E HF]].
    exists (Hit.mk d s (Meta.title meta) (summarize query_terms content)
                   (Meta.url meta) (Meta.date meta) :: hs).
    split.
    + rewrite E, <- app_assoc. reflexivity.
    + constructor; [|exact HF]. exists content, meta. auto.
Qed.

(** On a built index every document has a score. *)
Lemma built_document_score self qv qlen doc_id :
  built self -> In doc_id (keys (documents self)) ->
  exists vec len,
    dict_get doc_id (doc_vectors self) = Some vec
    /\ dict_get doc_id (doc_lengths self) = Some len
    /\ len = sqrt (sum_squares (values vec))
    /\ vector_from (idf_values self) (inverted_index self) doc_id vec
    /\ document_score self qv qlen doc_id
       = Ok (if Rgtb len 0 && Rgtb qlen 0
             then (0 + dot qv vec) / (len * qlen) else 0 + dot qv vec).
Proof.
  intros B I. destruct (built_vectors _ B doc_id I) as (vec & Ev & El & Hv).
  exists vec, (sqrt (sum_squares (values vec))).
  repeat split; try assumption; try apply Hv.
  apply document_score_Ok; assumption.
Qed.

(** [search] on a built index returns, and returns the ranked pairs turned
    into results. *)
Lemma search_built self query top_k :
  built self ->
  exists hits,
    search self query top_k = Ok hits
    /\ Forall2 (hit_of self (preprocess_text query))
               (ranked self query top_k) hits.
Proof.
  intros B. unfold search, ranked.
  destruct (preprocess_text query) as [|w ws] eqn:Eq.
  - exists []. split; [reflexivity | constructor].
  - destruct (build_query_vector (idf_values self) (w :: ws)) as [|e qv] eqn:Ev.
    + exists []. split; [reflexivity | constructor].
    + rewrite vector_length_Ok. simpl bind.
      rewrite scores_loop.
      * simpl bind. simpl app.
        destruct (results_loop self (w :: ws)
                    (slice_to top_k
                       (sorted_desc
                          (flat_map
                             (score_entry self (e :: qv)
                                (sqrt (sum_squares (values (e :: qv)))))
                             (keys (documents self))))))
          with (acc := @nil Hit.t) as [hs [E HF]].
        -- intros item I. apply In_slice_to in I.
           apply (proj1 (sorted_desc_In _ _)) in I.
           apply in_flat_map in I. destruct I as [d [Id I]].
           apply score_entry_In in I. destruct I as [-> _].
           split; [exact Id | apply (built_meta _ B); exact Id].
        -- exists hs. split; [exact E | exact HF].
      * apply (built_docs _ B).
      * intros d I.
        destruct (built_document_score self (e :: qv)
                    (sqrt (sum_squares (values (e :: qv)))) d B I)
          as (vec & len & _ & _ & _ & _ & Es).
        eexists. exact Es.
      * intros d _ [].
Qed.

(** ** C1 *)

Lemma ranked_sorted self query top_k :
  StronglySorted
    (key_then (fun d1 d2 => precedes d1 d2 (keys (documents self))))
    (ranked self query top_k).
Proof.
  unfold ranked. destruct (preprocess_text query) as [|w ws]; [constructor|].
  destruct (build_query_vector (idf_values self) (w :: ws)) as [|e qv];
    [constructor|].
  apply StronglySorted_slice_to, sorted_desc_sorted, flat_map_in_order.
  - intros doc_id p I. apply score_entry_In in I. tauto.
  - intros doc_id. apply score_entry_length.
Qed.

(** C1 (amended). On every built index and for every query, [search]
    returns a sequence sorted by score in descending order, and any two
    results with equal score appear in the order in which their documents
    were loaded (their order in the [documents] dict, whose keys are
    distinct). *)
Theorem search_sorted_by_score_then_load_order (P : pickle) (fs : file_system)
  (self : engine) (b : blob P) (query : string) (top_k : Z) :
  build_index P fs init = Ok (self, b) ->
  NoDup (keys (documents self))
  /\ exists hits,
       search self query top_k = Ok hits
       /\ StronglySorted (ranked_before self) hits.
Proof.
  intros E. apply build_index_built in E.
  split; [apply (built_docs _ E)|].
  destruct (search_built self query top_k E) as [hits [Es HF]].
  exists hits. split; [exact Es|].
  eapply StronglySorted_Forall2; [|exact HF|apply ranked_sorted].
  intros a c h1 h2 (c1 & m1 & _ & _ & ->) (c2 & m2 & _ & _ & ->) Hk.
  exact Hk.
Qed.

(** ** Cauchy-Schwarz over lists *)

Lemma quadratic_sum (l : list (R * R)) (t : R) :
  Rsum (map (fun p => (fst p * t + snd p) ^ 2) l)
  = sum_squares (map fst l) * t ^ 2 + 2 * sum_products l * t
    + sum_squares (map snd l).
Proof.
  rewrite !sum_squares_Rsum. unfold sum_products.
  induction l as [|[a c] l IH]; simpl; [ring|].
  rewrite IH. ring.
Qed.

Lemma cauchy_schwarz (l : list (R * R)) :
  sum_products l ^ 2 <= sum_squares (map fst l) * sum_squares (map snd l).
Proof.
  set (A := sum_squares (map fst l)). set (B := sum_squares (map snd l)).
  set (C := sum_products l).
  assert (HA : 0 <= A) by apply sum_squares_nonneg.
  assert (HB : 0 <= B) by apply sum_squares_nonneg.
  assert (Hq : forall t, 0 <= A * t ^ 2 + 2 * C * t + B).
  { intros t. unfold A, B, C. rewrite <- quadratic_sum.
    apply Rsum_nonneg. apply Forall_forall. intros x I.
    apply in_map_iff in I. destruct I as [p [<- _]]. apply pow2_ge_0. }
  destruct (Req_dec A 0) as [EA|NA].
  - rewrite EA in *. assert (EC : C = 0).
    { destruct (Req_dec C 0) as [|NC]; [assumption|]. exfalso.
      pose proof (Hq (- (B + 1) / (2 * C))) as H.
      replace (0 * (- (B + 1) / (2 * C)) ^ 2
               + 2 * C * (- (B + 1) / (2 * C)) + B) with (-1) in H
        by (field; exact NC).
      lra. }
    rewrite EC. simpl. lra.
  - assert (HApos : 0 < A) by lra.
    pose proof (Hq (- C / A)) as H.
    replace (A * (- C / A) ^ 2 + 2 * C * (- C / A) + B)
      with ((A * B - C ^ 2) / A) in H by (field; exact NA).
    assert (H' : 0 <= (A * B - C ^ 2) / A * A).
    { apply Rmult_le_pos; lra. }
    unfold Rdiv in H'. rewrite Rmult_assoc, Rinv_l, Rmult_1_r in H' by exact NA.
    lra.
Qed.

(** ** Removing a key *)

Section DictRemove.
Context {K V : Type} `{EqDec K}.
Implicit Types (k : K) (v : V) (d : dict K V).

Lemma dict_get_remove_other k k' d :
  k' <> k -> dict_get k' (dict_remove k d) = dict_get k' d.
Proof.
  intros Hne. induction d as [|[k0 v0] d IH]; simpl; [reflexivity|].
  destruct (eq_dec k0 k) as [->|Hk]; simpl.
  - destruct (eq_dec k' k); [congruence | exact IH].
  - destruct (eq_dec k' k0); [reflexivity | exact IH].
Qed.

Lemma In_keys_remove k k' d :
  In k' (keys (dict_remove k d)) <-> k' <> k /\ In k' (keys d).
Proof.
  induction d as [|[k0 v0] d IH]; simpl; [tauto|].
  destruct (eq_dec k0 k) as [->|Hk]; simpl; rewrite IH;
    intuition congruence.
Qed.

Lemma NoDup_keys_remove k d : NoDup (keys d) -> NoDup (keys (dict_remove k d)).
Proof.
  induction d as [|[k0 v0] d IH]; simpl; intros Hnd; [constructor|].
  inversion Hnd as [|? ? Hni Hnd']; subst.
  destruct (eq_dec k0 k) as [->|Hk]; simpl; [auto|].
  constructor; [|auto]. rewrite In_keys_remove. tauto.
Qed.

Lemma dict_remove_absent k d : ~ In k (keys d) -> dict_remove k d = d.
Proof.
  induction d as [|[k0 v0] d IH]; simpl; intros Hni; [reflexivity|].
  destruct (eq_dec k0 k) as [->|Hk]; [tauto|]. f_equal. apply IH. tauto.
Qed.


End DictRemove.

(** ** Bounds on the dot product *)

Lemma sum_squares_cons v vals : sum_squares (v :: vals) = v ^ 2 + sum_squares vals.
Proof. rewrite !sum_squares_Rsum. reflexivity. Qed.

Lemma weight_in_remove_other vec t t' :
  t' <> t -> weight_in (dict_remove t vec) t' = weight_in vec t'.
Proof.
  intros Hne. unfold weight_in, dict_get_default.
  now rewrite dict_get_remove_other.
Qed.

Lemma sum_squares_split vec t :
  NoDup (keys vec) ->
  sum_squares (values vec)
  = weight_in vec t ^ 2 + sum_squares (values (dict_remove t vec)).
Proof.
  induction vec as [|[t0 w0] vec IH]; intros Hnd.
  - unfold weight_in, dict_get_default, sum_squares. simpl. lra.
  - inversion Hnd as [|? ? Hni Hnd']; subst.
    unfold weight_in, dict_get_default. simpl.
    destruct (eq_dec t0 t) as [->|Hne].
    + destruct (eq_dec t t); [|congruence].
      rewrite dict_remove_absent by assumption.
      apply sum_squares_cons.
    + destruct (eq_dec t t0); [congruence|]. simpl.
      rewrite !sum_squares_cons, (IH Hnd').
      unfold weight_in, dict_get_default. lra.
Qed.

(** The squares of the weights read at distinct terms sum to at most the
    squared norm of the vector. *)
Lemma sub_sum_squares L : forall vec,
  NoDup L -> NoDup (keys vec) ->
  sum_squares (map (weight_in vec) L) <= sum_squares (values vec).
Proof.
  induction L as [|t L IH]; intros vec HL Hv.
  - simpl. unfold sum_squares at 1. simpl. apply sum_squares_nonneg.
  - inversion HL as [|? ? Hni HL']; subst.
    simpl. rewrite sum_squares_cons, (sum_squares_split vec t Hv).
    apply Rplus_le_compat_l.
    replace (map (weight_in vec) L) with (map (weight_in (dict_remove t vec)) L).
    + apply IH; [assumption | apply NoDup_keys_remove; assumption].
    + apply map_ext_in. intros t' I. apply weight_in_remove_other.
      intros ->. contradiction.
Qed.

Lemma dot_squared_le qv vec :
  NoDup (keys qv) -> NoDup (keys vec) ->
  dot qv vec ^ 2 <= sum_squares (values qv) * sum_squares (values vec).
Proof.
  intros Hq Hv.
  pose proof (cauchy_schwarz
                (map (fun item => (snd item, weight_in vec (fst item))) qv)) as H.
  unfold sum_products in H. rewrite !map_map in H. simpl in H.
  change (Rsum (map (fun x : string * R => snd x * weight_in vec (fst x)) qv))
    with (dot qv vec) in H.
  change (map (fun x : string * R => snd x) qv) with (values qv) in H.
  eapply Rle_trans; [exact H|].
  apply Rmult_le_compat_l; [apply sum_squares_nonneg|].
  rewrite <- (map_map fst (weight_in vec)).
  apply sub_sum_squares; assumption.
Qed.

Lemma dot_nonneg qv vec :
  (forall t w, In (t, w) qv -> 0 <= w) ->
  (forall t w, In (t, w) vec -> 0 <= w) ->
  0 <= dot qv vec.
Proof.
  intros Hq Hv. unfold dot. apply Rsum_nonneg. apply Forall_forall.
  intros x I. apply in_map_iff in I. destruct I as [[t w] [<- I]]. simpl.
  apply Rmult_le_pos; [eauto|].
  unfold weight_in, dict_get_default.
  destruct (dict_get t vec) as [w'|] eqn:E; [|lra].
  apply dict_get_Some_In in E. eauto.
Qed.

Lemma dot_zero_left qv vec :
  (forall t w, In (t, w) qv -> w = 0) -> dot qv vec = 0.
Proof.
  intros Hq. unfold dot. induction qv as [|[t w] qv IH]; simpl; [reflexivity|].
  rewrite IH by (intros t' w' I; apply (Hq t'); right; exact I).
  rewrite (Hq t w) by (left; reflexivity). lra.
Qed.

Lemma dot_zero_right qv vec :
  (forall t w, In (t, w) vec -> w = 0) -> dot qv vec = 0.
Proof.
  intros Hv. unfold dot. induction qv as [|[t w] qv IH]; simpl; [reflexivity|].
  rewrite IH. unfold weight_in, dict_get_default.
  destruct (dict_get t vec) as [w'|] eqn:E; [|lra].
  apply dict_get_Some_In in E. rewrite (Hv t w' E). lra.
Qed.

Lemma norm_zero (vec : dict string R) :
  sqrt (sum_squares (values vec)) = 0 -> forall t w, In (t, w) vec -> w = 0.
Proof.
  intros E t w I. apply sqrt_eq_0 in E; [|apply sum_squares_nonneg].
  apply sum_squares_zero in E. rewrite Forall_forall in E. apply E.
  apply (in_map snd) in I. exact I.
Qed.

(** The cosine of two non-negative vectors lies in [0,1]. *)
Lemma cosine_bounds qv vec :
  NoDup (keys qv) -> NoDup (keys vec) ->
  (forall t w, In (t, w) qv -> 0 <= w) ->
  (forall t w, In (t, w) vec -> 0 <= w) ->
  sqrt (sum_squares (values vec)) > 0 ->
  sqrt (sum_squares (values qv)) > 0 ->
  0 <= (0 + dot qv vec)
       / (sqrt (sum_squares (values vec)) * sqrt (sum_squares (values qv)))
    <= 1.
Proof.
  intros Hq Hv Hqn Hvn Hlv Hlq.
  set (lv := sqrt (sum_squares (values vec))) in *.
  set (lq := sqrt (sum_squares (values qv))) in *.
  assert (Hd : 0 <= dot qv vec) by (apply dot_nonneg; assumption).
  assert (Hp : 0 < lv * lq) by (apply Rmult_lt_0_compat; lra).
  assert (Hle : dot qv vec <= lv * lq).
  { assert (Hsq : dot qv vec ^ 2 <= (lv * lq) ^ 2).
    { replace ((lv * lq) ^ 2) with (lq ^ 2 * lv ^ 2) by ring.
      unfold lv, lq. rewrite !pow2_sqrt by apply sum_squares_nonneg.
      apply dot_squared_le; assumption. }
    destruct (Rle_dec (dot qv vec) (lv * lq)) as [|Hn]; [assumption|].
    exfalso. apply Rnot_le_lt in Hn.
    assert (Hlt : (lv * lq) ^ 2 < dot qv vec ^ 2).
    { unfold pow. rewrite !Rmult_1_r.
      apply Rmult_le_0_lt_compat; lra. }
    lra. }
  rewrite Rplus_0_l. split.
  - apply Rmult_le_pos; [exact Hd | left; apply Rinv_0_lt_compat; exact Hp].
  - apply Rmult_le_reg_r with (r := lv * lq); [exact Hp|].
    unfold Rdiv. rewrite Rmult_assoc, Rinv_l by lra. lra.
Qed.

(** ** The query vector *)

Lemma fold_left_invariant {A S : Type} (P : S -> Prop) (f : S -> A -> S)
  (l : list A) : forall s,
  (forall s x, In x l -> P s -> P (f s x)) -> P s -> P (fold_left f l s).
Proof.
  induction l as [|x l IH]; intros s Hf Hs; simpl; [exact Hs|].
  apply IH.
  - intros s' y I. apply Hf. right. exact I.
  - apply Hf; [left; reflexivity | exact Hs].
Qed.

Lemma query_vector_from idf query_terms :
  NoDup (keys (build_query_vector idf query_terms))
  /\ forall t w, In (t, w) (build_query_vector idf query_terms) ->
                 query_weight idf query_terms t w.
Proof.
  unfold build_query_vector.
  apply (fold_left_invariant
           (fun qv => NoDup (keys qv)
                      /\ forall t w, In (t, w) qv ->
                                     query_weight idf query_terms t w)).
  - intros qv [t c] I [Hnd Hw]. unfold add_query_weight.
    destruct (dict_get t idf) as [i|] eqn:Ei; [|auto].
    split; [apply NoDup_keys_dict_set; exact Hnd|].
    intros t' w' I'. apply In_dict_set in I'.
    destruct I' as [[-> ->]|I']; [|auto].
    exists c, i. auto.
  - split; [constructor | intros ? ? []].
Qed.

Lemma query_vector_keys idf query_terms wc : forall acc t,
  In t (keys (fold_left (add_query_weight idf query_terms) wc acc))
  <-> In t (keys acc) \/ (In t (keys wc) /\ In t (keys idf)).
Proof.
  induction wc as [|[t0 c] wc IH]; intros acc t; simpl; [tauto|].
  rewrite IH. unfold add_query_weight.
  destruct (dict_get t0 idf) as [i|] eqn:Ei.
  - rewrite In_keys_dict_set. apply dict_get_Some_key in Ei.
    intuition (subst; auto).
  - apply dict_get_None in Ei. intuition (subst; tauto).
Qed.

Lemma query_weight_nonneg self query_terms t w :
  built self -> query_weight (idf_values self) query_terms t w -> 0 <= w.
Proof.
  intros B (c & i & Ic & Ei & ->).
  apply Rmult_le_pos; [|apply (built_idf_nonneg self t i B Ei)].
  assert (It : In t query_terms).
  { apply (count_words_keys query_terms t). apply (in_map fst) in Ic. exact Ic. }
  assert (Hl : 0 < INR (length query_terms)).
  { apply lt_0_INR. destruct query_terms; [destruct It | simpl; lia]. }
  unfold Rdiv. apply Rmult_le_pos; [apply pos_INR|].
  left. apply Rinv_0_lt_compat. exact Hl.
Qed.

Lemma vector_weight_nonneg self doc_id vec t w :
  built self ->
  vector_from (idf_values self) (inverted_index self) doc_id vec ->
  In (t, w) vec -> 0 <= w.
Proof.
  intros B [_ Hw] I. destruct (Hw t w I) as (ps & tf & i & Ip & Itf & Ei & ->).
  apply Rmult_le_pos; [|apply (built_idf_nonneg self t i B Ei)].
  pose proof (postings_of_In _ _ _ (built_index _ B) Ip) as Eps.
  rewrite (built_postings _ B) in Eps. rewrite <- Eps in Itf.
  apply in_flat_map in Itf. destruct Itf as [doc [_ Itf]].
  apply doc_posting_In in Itf. simpl in Itf. lra.
Qed.

Lemma Forall2_In_r {A B : Type} (M : A -> B -> Prop) l l' y :
  Forall2 M l l' -> In y l' -> exists x, In x l /\ M x y.
Proof.
  induction 1 as [|a c l l' Ha HF IH]; intros I; [destruct I|].
  destruct I as [<-|I].
  - exists a. split; [left; reflexivity | exact Ha].
  - destruct (IH I) as [x [Ix Mx]]. exists x. split; [right; exact Ix | exact Mx].
Qed.

(** Every ranked pair is a loaded document with its positive score. *)
Lemma ranked_In self query top_k item :
  In item (ranked self query top_k) ->
  let qv := build_query_vector (idf_values self) (preprocess_text query) in
  In (fst item) (keys (documents self))
  /\ document_score self qv (sqrt (sum_squares (values qv))) (fst item)
     = Ok (snd item)
  /\ snd item > 0.
Proof.
  unfold ranked. destruct (preprocess_text query) as [|w ws]; [intros []|].
  destruct (build_query_vector (idf_values self) (w :: ws)) as [|e qv];
    [intros []|].
  intros I. apply In_slice_to in I. apply (proj1 (sorted_desc_In _ _)) in I.
  apply in_flat_map in I. destruct I as [d [Id I]].
  apply score_entry_In in I. destruct I as (<- & Es & Hs).
  simpl. auto.
Qed.

(** ** The scores in binary64 *)

Lemma Forall_dict_set {K V : Type} `{EqDec K} (Q : K * V -> Prop) (k : K)
  (v : V) (d : dict K V) :
  Forall Q d -> Q (k, v) -> Forall Q (dict_set k v d).
Proof.
  rewrite !Forall_forall. intros Hd Hkv [k' v'] I.
  apply In_dict_set in I. destruct I as [[-> ->]|I]; [exact Hkv | auto].
Qed.

(** The scoring loop records scores that passed the test [score > 0]. *)
Lemma binary64_scores_positive self qv qlen ks scores0 scores :
  foldM (Binary64.add_score self qv qlen) ks scores0 = Ok scores ->
  Forall (fun p => Binary64.positive (snd p) = true) scores0 ->
  Forall (fun p => Binary64.positive (snd p) = true) scores.
Proof.
  intros E H0. revert H0 E.
  apply (foldM_invariant
           (fun m => Forall (fun p => Binary64.positive (snd p) = true) m)).
  intros m d m' _ Hm E. unfold Binary64.add_score in E.
  destruct (Binary64.document_score self qv qlen d) as [s|]; simpl in E;
    [|discriminate].
  inversion E; subst m'.
  destruct (PrimFloat.ltb _ s) eqn:Ep; [|exact Hm].
  apply Forall_dict_set; [exact Hm | exact Ep].
Qed.

Lemma binary64_insert_desc_In x y l :
  In y (Binary64.insert_desc x l) -> y = x \/ In y l.
Proof.
  induction l as [|z l IH]; simpl.
  - intros [<-|[]]. left. reflexivity.
  - destruct (PrimFloat.ltb (snd x) (snd z)).
    + intros [<-|I]; [right; left; reflexivity|].
      destruct (IH I) as [->|I']; [left; reflexivity | right; right; exact I'].
    + intros [<-|I]; [left; reflexivity | right; exact I].
Qed.

Lemma binary64_sorted_desc_In y l : In y (Binary64.sorted_desc l) -> In y l.
Proof.
  induction l as [|x l IH]; simpl; [tauto|].
  intros I. apply binary64_insert_desc_In in I.
  destruct I as [->|I]; [left; reflexivity | right; apply IH; exact I].
Qed.

(** The results carry the scores of the items they are made from. *)
Lemma binary64_results_positive self query_terms items : forall acc hits,
  foldM (Binary64.add_result self query_terms) items acc = Ok hits ->
  Forall (fun p => Binary64.positive (snd p) = true) items ->
  Forall (fun h => Binary64.positive (Binary64.Hit.score h) = true) acc ->
  Forall (fun h => Binary64.positive (Binary64.Hit.score h) = true) hits.
Proof.
  induction items as [|[d s] items IH]; intros acc hits E Hi Ha; simpl in E.
  - inversion E; subst. exact Ha.
  - inversion Hi as [|? ? Hs Hrest]; subst.
    unfold Binary64.add_result at 1 in E.
    destruct (dict_item d (Binary64.documents self)) as [c|]; simpl in E;
      [|discriminate].
    destruct (dict_item d (Binary64.metadata self)) as [m|]; simpl in E;
      [|discriminate].
    apply (IH _ _ E Hrest). apply Forall_app. split; [exact Ha|].
    constructor; [exact Hs | constructor].
Qed.

(** In binary64 too every result has a score that passed [score > 0],
    whatever the state of the engine. *)
Lemma binary64_search_positive self query top_k hits :
  Binary64.search self query top_k = Ok hits ->
  Forall (fun h => Binary64.positive (Binary64.Hit.score h) = true) hits.
Proof.
  unfold Binary64.search.
  destruct (preprocess_text query) as [|w ws];
    [intros E; inversion E; constructor|].
  destruct (Binary64.build_query_vector (Binary64.idf_values self) (w :: ws))
    as [|e qv]; [intros E; inversion E; constructor|].
  destruct (Binary64.vector_length (e :: qv)) as [qlen|]; simpl;
    [|discriminate].
  destruct (foldM (Binary64.add_score self (e :: qv) qlen)
                  (keys (Binary64.documents self)) []) as [scores|] eqn:Es;
    simpl; [|discriminate].
  intros E. apply (binary64_results_positive _ _ _ _ _ E); [|constructor].
  apply Forall_forall. intros p I. apply In_slice_to in I.
  apply binary64_sorted_desc_In in I.
  pose proof (binary64_scores_positive _ _ _ _ _ _ Es (Forall_nil _)) as Hp.
  rewrite Forall_forall in Hp. apply (Hp p I).
Qed.

(** ** C2 *)

(** C2 (amended). For every index built from a fresh engine and every
    query.  Read in exact arithmetic: the weights of the query vector and
    of the document vectors are non-negative and every score the scoring
    loop computes lies in [0,1]; when the norm of the document or of the
    query is 0 the score is 0 and the document is not among the results;
    every result is a loaded document and carries the score computed for
    it, which is above 0 and at most 1.  In binary64, whatever the state of
    the engine, every result has a score that passed the test [score > 0];
    the bound 1 is not kept there, a rounded score can lie above it. *)
Theorem search_scores_in_unit_interval (P : pickle) (fs : file_system)
  (self : engine) (b : blob P) (query : string) (top_k : Z) :
  build_index P fs init = Ok (self, b) ->
  let qv := build_query_vector (idf_values self) (preprocess_text query) in
  (exists qlen hits,
      vector_length qv = Ok qlen
      /\ search self query top_k = Ok hits
      /\ (forall t w, In (t, w) qv -> 0 <= w)
      /\ (forall doc_id, In doc_id (keys (documents self)) ->
          exists vec len s,
            dict_get doc_id (doc_vectors self) = Some vec
            /\ (forall t w, In (t, w) vec -> 0 <= w)
            /\ dict_get doc_id (doc_lengths self) = Some len
            /\ document_score self qv qlen doc_id = Ok s
            /\ 0 <= s <= 1
            /\ (len = 0 \/ qlen = 0 ->
                s = 0 /\ ~ In doc_id (map Hit.doc_id hits)))
      /\ Forall (fun h =>
                   In (Hit.doc_id h) (keys (documents self))
                   /\ document_score self qv qlen (Hit.doc_id h)
                      = Ok (Hit.score h)
                   /\ 0 < Hit.score h <= 1) hits)
  /\ forall (state : Binary64.engine) (hits64 : list Binary64.Hit.t),
       Binary64.search state query top_k = Ok hits64 ->
       Forall (fun h => Binary64.positive (Binary64.Hit.score h) = true)
              hits64.
Proof.
  intros E qv. split; [|intros state hits64; apply binary64_search_positive].
  apply build_index_built in E.
  destruct (search_built self query top_k E) as [hits [Es HF]].
  exists (sqrt (sum_squares (values qv))), hits.
  destruct (query_vector_from (idf_values self) (preprocess_text query))
    as [Hqnd Hqw]. fold qv in Hqnd, Hqw.
  assert (Hq0 : forall t w, In (t, w) qv -> 0 <= w).
  { intros t w I.
    apply (query_weight_nonneg self (preprocess_text query) t w E). auto. }
  assert (Hhit : forall h, In h hits ->
             document_score self qv (sqrt (sum_squares (values qv)))
                            (Hit.doc_id h) = Ok (Hit.score h)
             /\ Hit.score h > 0).
  { intros h I. destruct (Forall2_In_r _ _ _ _ HF I) as [item [Ii Hh]].
    apply ranked_In in Ii. destruct Ii as (_ & Ei & Hpos).
    destruct Hh as (c & m & _ & _ & ->). simpl. auto. }
  assert (Hin : forall h, In h hits ->
                          In (Hit.doc_id h) (keys (documents self))).
  { intros h I. destruct (Forall2_In_r _ _ _ _ HF I) as [item [Ii Hh]].
    apply ranked_In in Ii. destruct Ii as (Id & _).
    destruct Hh as (c & m & _ & _ & ->). exact Id. }
  assert (Hdoc : forall doc_id, In doc_id (keys (documents self)) ->
            exists vec len s,
              dict_get doc_id (doc_vectors self) = Some vec
              /\ (forall t w, In (t, w) vec -> 0 <= w)
              /\ dict_get doc_id (doc_lengths self) = Some len
              /\ document_score self qv (sqrt (sum_squares (values qv)))
                                doc_id = Ok s
              /\ 0 <= s <= 1
              /\ (len = 0 \/ sqrt (sum_squares (values qv)) = 0 ->
                  s = 0 /\ ~ In doc_id (map Hit.doc_id hits))).
  2:{ split; [apply vector_length_Ok|]. split; [exact Es|].
      split; [exact Hq0|]. split; [exact Hdoc|].
      apply Forall_forall. intros h I. destruct (Hhit h I) as [Eh Hpos].
      split; [apply (Hin h I)|]. split; [exact Eh|].
      destruct (Hdoc (Hit.doc_id h) (Hin h I))
        as (vec & len & s & _ & _ & _ & Es' & Hs & _).
      rewrite Eh in Es'. inversion Es'; subst s. lra. }
  - intros d Id.
    destruct (built_document_score self qv (sqrt (sum_squares (values qv)))
                d E Id) as (vec & len & Ev & El & Elen & Hv & Esc).
    assert (Hv0 : forall t w, In (t, w) vec -> 0 <= w).
    { intros t w I. apply (vector_weight_nonneg self d vec t w E Hv I). }
    assert (Hlen0 : 0 <= len) by (rewrite Elen; apply sqrt_pos).
    assert (Hq0' : 0 <= sqrt (sum_squares (values qv))) by apply sqrt_pos.
    assert (Hzero : len = 0 \/ sqrt (sum_squares (values qv)) = 0 ->
                    dot qv vec = 0).
    { intros [E0|E0].
      - apply dot_zero_right. apply norm_zero. rewrite <- Elen. exact E0.
      - apply dot_zero_left. apply norm_zero. exact E0. }
    eexists vec, len, _. split; [exact Ev|]. split; [exact Hv0|].
    split; [exact El|]. split; [exact Esc|].
    destruct (Rgt_dec len 0) as [Hl|Hl];
      destruct (Rgt_dec (sqrt (sum_squares (values qv))) 0) as [Hql|Hql].
    + rewrite (Rgtb_true _ _ Hl), (Rgtb_true _ _ Hql). simpl. split.
      * rewrite Elen. apply cosine_bounds; try assumption;
          [apply Hv | rewrite <- Elen; exact Hl].
      * intros [E0|E0]; lra.
    + rewrite (Rgtb_true _ _ Hl), (Rgtb_false _ _ Hql). simpl.
      assert (E0 : sqrt (sum_squares (values qv)) = 0) by lra.
      rewrite (Hzero (or_intror E0)). split; [lra|].
      intros _. split; [lra|]. intros I. apply in_map_iff in I.
      destruct I as [h [Eh Ih]]. destruct (Hhit h Ih) as [Eh' Hpos].
      rewrite Eh, Esc, (Rgtb_true _ _ Hl), (Rgtb_false _ _ Hql) in Eh'.
      simpl in Eh'. inversion Eh' as [Eq]. rewrite (Hzero (or_intror E0)) in Eq.
      lra.
    + rewrite (Rgtb_false _ _ Hl). simpl.
      assert (E0 : len = 0) by lra.
      rewrite (Hzero (or_introl E0)). split; [lra|].
      intros _. split; [lra|]. intros I. apply in_map_iff in I.
      destruct I as [h [Eh Ih]]. destruct (Hhit h Ih) as [Eh' Hpos].
      rewrite Eh, Esc, (Rgtb_false _ _ Hl) in Eh'.
      simpl in Eh'. inversion Eh' as [Eq]. rewrite (Hzero (or_introl E0)) in Eq.
      lra.
    + rewrite (Rgtb_false _ _ Hl). simpl.
      assert (E0 : len = 0) by lra.
      rewrite (Hzero (or_introl E0)). split; [lra|].
      intros _. split; [lra|]. intros I. apply in_map_iff in I.
      destruct I as [h [Eh Ih]]. destruct (Hhit h Ih) as [Eh' Hpos].
      rewrite Eh, Esc, (Rgtb_false _ _ Hl) in Eh'.
      simpl in Eh'. inversion Eh' as [Eq]. rewrite (Hzero (or_introl E0)) in Eq.
      lra.
Qed.

(** ** C10 *)

Lemma sorted_desc_nil : sorted_desc [] = [].
Proof. reflexivity. Qed.

Lemma slice_to_nil {A : Type} (k : Z) : slice_to k (@nil A) = [].
Proof. unfold slice_to. destruct (k <? 0)%Z; apply firstn_nil. Qed.

Lemma flat_map_nil {A B : Type} (f : A -> list B) (l : list A) :
  (forall x, In x l -> f x = []) -> flat_map f l = [].
Proof.
  induction l as [|x l IH]; intros Hf; simpl; [reflexivity|].
  rewrite Hf by (left; reflexivity). apply IH.
  intros y I. apply Hf. right. exact I.
Qed.

(** A term of every document has IDF 0. *)
Lemma built_idf_everywhere self term :
  built self ->
  In term (keys (idf_values self)) ->
  (forall doc_id content, In (doc_id, content) (documents self) ->
                          In term (preprocess_text content)) ->
  dict_get term (idf_values self) = Some 0.
Proof.
  intros B I Hall. apply In_keys_dict_get in I. destruct I as [i Ei].
  rewrite Ei. f_equal. rewrite (built_idf _ B) in Ei.
  destruct (dict_get term (inverted_index self)) as [ps|] eqn:Eps;
    [|discriminate].
  inversion Ei; subst.
  destruct (built_term self term ps B Eps) as (E & Hdf & _).
  apply (ln_ratio_zero _ _ Hdf). rewrite (built_N _ B), E.
  apply df_eq_N. intros [d c] Id. apply (Hall d c Id).
Qed.

(** C10 (amended). On an index built from a fresh engine, for a query with
    surviving tokens that are all in the vocabulary and each occur in every
    document, the query vector is not empty, all its weights are 0, the
    query norm is 0, and [search] returns the empty list instead of
    raising. *)
Theorem search_with_idf_zero_terms (P : pickle) (fs : file_system)
  (self : engine) (b : blob P) (query : string) (top_k : Z) :
  build_index P fs init = Ok (self, b) ->
  preprocess_text query <> [] ->
  (forall t, In t (preprocess_text query) -> In t (keys (idf_values self))) ->
  (forall t doc_id content,
      In t (preprocess_text query) -> In (doc_id, content) (documents self) ->
      In t (preprocess_text content)) ->
  let qv := build_query_vector (idf_values self) (preprocess_text query) in
  qv <> []
  /\ (forall t w, In (t, w) qv -> w = 0)
  /\ vector_length qv = Ok 0
  /\ search self query top_k = Ok [].
Proof.
  intros E Hne Hvoc Hall qv. apply build_index_built in E.
  assert (Hw : forall t w, In (t, w) qv -> w = 0).
  { intros t w I.
    destruct (proj2 (query_vector_from (idf_values self) (preprocess_text query))
                    t w I) as (c & i & Ic & Ei & ->).
    assert (It : In t (preprocess_text query)).
    { apply (count_words_keys (preprocess_text query) t).
      apply (in_map fst) in Ic. exact Ic. }
    rewrite (built_idf_everywhere self t E (Hvoc t It)) in Ei.
    - inversion Ei. lra.
    - intros d c' Id. apply (Hall t d c' It Id). }
  assert (Hnil : qv <> []).
  { destruct (preprocess_text query) as [|w ws] eqn:Eq; [congruence|].
    assert (I : In w (keys qv)).
    { unfold qv, build_query_vector. apply query_vector_keys. right. split.
      - apply count_words_keys. left. reflexivity.
      - apply Hvoc. left. reflexivity. }
    intros E0. rewrite E0 in I. destruct I. }
  assert (Hss : sum_squares (values qv) = 0).
  { rewrite sum_squares_Rsum. unfold values.
    assert (Hv : forall l : dict string R,
               (forall t w, In (t, w) l -> w = 0) ->
               Rsum (map (fun v => v ^ 2) (map snd l)) = 0).
    { induction l as [|[t w] l IH]; intros Hl; simpl; [reflexivity|].
      rewrite IH by (intros t' w' I; apply (Hl t'); right; exact I).
      rewrite (Hl t w) by (left; reflexivity). lra. }
    apply Hv. exact Hw. }
  split; [exact Hnil|]. split; [exact Hw|]. split.
  - rewrite vector_length_Ok, Hss, sqrt_0. reflexivity.
  - destruct (search_built self query top_k E) as [hits [Es HF]].
    rewrite Es. f_equal.
    assert (Hr : ranked self query top_k = []).
    { unfold ranked. fold qv.
      destruct (preprocess_text query) as [|w ws]; [reflexivity|].
      destruct qv as [|e qv'] eqn:Eqv; [reflexivity|]. rewrite <- Eqv in *.
      rewrite flat_map_nil; [rewrite sorted_desc_nil; apply slice_to_nil|].
      intros d Id. unfold score_entry.
      destruct (built_document_score self qv (sqrt (sum_squares (values qv)))
                  d E Id) as (vec & len & _ & _ & _ & _ & Esc).
      rewrite Esc, Hss, sqrt_0, (Rgtb_false 0 0) by lra.
      rewrite andb_false_r, (dot_zero_left qv vec Hw), (Rgtb_false (0 + 0) 0)
        by lra.
      reflexivity. }
    rewrite Hr in HF. inversion HF. reflexivity.
Qed.

(** ** Building and querying the small corpus *)

Lemma demo_load : load_documents demo_fs init = Ok demo_loaded.
Proof. vm_compute. reflexivity. Qed.

Lemma demo_index_eq :
  fold_left index_document (documents demo_loaded) (inverted_index demo_loaded)
  = demo_index.
Proof. cbv -[INR Rdiv]. reflexivity. Qed.

Lemma demo_build_inverted_index : build_inverted_index demo_loaded = Ok demo_indexed.
Proof.
  unfold build_inverted_index. rewrite demo_index_eq.
  unfold demo_index. cbn [foldM N demo_loaded idf_values].
  rewrite !set_idf_total by (try discriminate; lia). cbn [bind length].
  rewrite !set_idf_total by (try discriminate; cbn; lia). cbn [bind].
  reflexivity.
Qed.

Lemma demo_compute_document_vectors :
  compute_document_vectors demo_indexed = Ok demo_engine.
Proof.
  unfold compute_document_vectors.
  cbn [documents demo_indexed demo_loaded keys map fst foldM].
  unfold document_vector.
  cbv -[vector_length INR Rdiv Rmult ln sqrt sum_squares demo_engine].
  rewrite !vector_length_Ok.
  reflexivity.
Qed.

Lemma demo_build :
  build_index demo_pickle demo_fs init
  = Ok (demo_engine, save_index demo_pickle demo_engine).
Proof.
  unfold build_index.
  rewrite demo_load. cbn [bind].
  rewrite demo_build_inverted_index. cbn [bind].
  rewrite demo_compute_document_vectors. reflexivity.
Qed.

Lemma demo_pickle_faithful : pickle_faithful demo_pickle.
Proof. intros data. reflexivity. Qed.

Lemma demo_ln_pos : 0 < ln (INR 3 / INR 2).
Proof.
  rewrite <- ln_1. apply ln_increasing; [lra|].
  rewrite !INR_IZR_INZ. simpl. lra.
Qed.

Lemma demo_alpha_pos : 0 < demo_alpha.
Proof.
  unfold demo_alpha. pose proof demo_ln_pos.
  apply Rmult_lt_0_compat; [|assumption].
  rewrite !INR_IZR_INZ. simpl. lra.
Qed.

Lemma demo_query_weight_pos : 0 < demo_query_weight.
Proof.
  unfold demo_query_weight. pose proof demo_ln_pos.
  apply Rmult_lt_0_compat; [|assumption].
  rewrite !INR_IZR_INZ. simpl. lra.
Qed.

Lemma norm_single_pos x : 0 < x -> sqrt (sum_squares [x]) > 0.
Proof.
  intros Hx. apply sqrt_lt_R0. rewrite sum_squares_cons.
  pose proof (sum_squares_nonneg []) as H0.
  assert (0 < x ^ 2) by (apply pow_lt; exact Hx). lra.
Qed.

Lemma Rltb_irrefl x : Rltb x x = false.
Proof. unfold Rltb. destruct (Rlt_dec x x); [lra | reflexivity]. Qed.

Lemma demo_dot : dot demo_query_vector [("alpha", demo_alpha)]
                 = demo_query_weight * demo_alpha.
Proof.
  cbv -[Rmult Rplus demo_alpha demo_query_weight IZR]. ring.
Qed.

Lemma demo_dot_gamma : dot demo_query_vector [("gamma", demo_gamma)] = 0.
Proof.
  cbv -[Rmult Rplus demo_gamma demo_query_weight IZR]. ring.
Qed.

Lemma demo_score_pos : demo_score > 0.
Proof.
  unfold demo_score. pose proof demo_alpha_pos. pose proof demo_query_weight_pos.
  rewrite demo_dot. apply Rdiv_lt_0_compat.
  - rewrite Rplus_0_l. apply Rmult_lt_0_compat; assumption.
  - apply Rmult_lt_0_compat; apply norm_single_pos; assumption.
Qed.

Lemma demo_query :
  preprocess_text "alpha" = ["alpha"]
  /\ build_query_vector (idf_values demo_engine) ["alpha"] = demo_query_vector.
Proof.
  split; [vm_compute; reflexivity|].
  cbv -[INR Rdiv Rmult ln]. reflexivity.
Qed.

Lemma demo_scores :
  foldM (add_score demo_engine demo_query_vector
           (sqrt (sum_squares (values demo_query_vector))))
        (keys (documents demo_engine)) []
  = Ok [(2%Z, demo_score); (1%Z, demo_score)].
Proof.
  pose proof (norm_single_pos _ demo_alpha_pos) as Ha.
  pose proof (norm_single_pos _ demo_query_weight_pos) as Hq.
  change (values demo_query_vector) with [demo_query_weight].
  cbn [foldM keys map documents demo_engine demo_loaded fst].
  unfold add_score.
  rewrite (document_score_Ok demo_engine _ _ 2 [("alpha", demo_alpha)]
             (sqrt (sum_squares [demo_alpha])) eq_refl eq_refl).
  rewrite (document_score_Ok demo_engine _ _ 1 [("alpha", demo_alpha)]
             (sqrt (sum_squares [demo_alpha])) eq_refl eq_refl).
  rewrite (document_score_Ok demo_engine _ _ 3 [("gamma", demo_gamma)]
             (sqrt (sum_squares [demo_gamma])) eq_refl eq_refl).
  rewrite (Rgtb_true _ _ Ha), (Rgtb_true _ _ Hq), demo_dot_gamma.
  cbn [andb bind]. fold demo_score.
  rewrite (Rgtb_true _ _ demo_score_pos).
  rewrite Rgtb_false; [reflexivity|].
  destruct (Rgtb (sqrt (sum_squares [demo_gamma])) 0); cbn [andb]; [|lra].
  unfold Rdiv. rewrite Rplus_0_l, Rmult_0_l. lra.
Qed.

Lemma demo_search : search demo_engine "alpha" 10 = Ok demo_hits.
Proof.
  unfold search. destruct demo_query as [-> Hv]. rewrite Hv.
  change (match demo_query_vector with
          | [] => Ok []
          | _ :: _ =>
              query_length <- vector_length demo_query_vector ;;
              scores <- foldM (add_score demo_engine demo_query_vector query_length)
                              (keys (documents demo_engine)) [] ;;
              foldM (add_result demo_engine ["alpha"])
                    (slice_to 10 (sorted_desc scores)) []
          end = Ok demo_hits).
  unfold demo_query_vector at 1.
  rewrite vector_length_Ok. cbn [bind].
  rewrite demo_scores. cbn [bind sorted_desc fold_right insert_desc snd].
  rewrite Rltb_irrefl.
  change (slice_to 10 [(2%Z, demo_score); (1%Z, demo_score)])
    with [(2%Z, demo_score); (1%Z, demo_score)].
  reflexivity.
Qed.

(** C1, the claim as worded, fails: documents 2 and 1 of the small corpus
    have the same score for the query [alpha] and are returned in the order
    2, 1, the order of the metadata table, not in ascending document id. *)
Lemma search_ties_not_by_ascending_id :
  build_index demo_pickle demo_fs init
  = Ok (demo_engine, save_index demo_pickle demo_engine)
  /\ exists hits,
       search demo_engine "alpha" 10 = Ok hits
       /\ ~ StronglySorted claimed_before hits.
Proof.
  split; [exact demo_build|]. exists demo_hits. split; [exact demo_search|].
  intros Hs. inversion Hs as [|? ? _ Hf]; subst.
  inversion Hf as [|? ? Hc _]; subst.
  destruct Hc as [Hgt|[_ Hlt]]; simpl in *; [lra | lia].
Qed.

Lemma search_sorted_by_score_then_load_order_witness :
  NoDup (keys (documents demo_engine))
  /\ exists hits,
       search demo_engine "alpha" 10 = Ok hits
       /\ StronglySorted (ranked_before demo_engine) hits.
Proof.
  exact (search_sorted_by_score_then_load_order demo_pickle demo_fs demo_engine
           (save_index demo_pickle demo_engine) "alpha" 10 demo_build).
Defined.

Lemma idf_is_log_ratio_witness :
  let idf := ln (INR (N demo_engine)
                 / INR (length [(2%Z, INR 2 / INR 2); (1%Z, INR 2 / INR 2)])) in
  (1 <= N demo_engine)%nat
  /\ dict_get "alpha" (idf_values demo_engine) = Some idf
  /\ 0 <= idf
  /\ (idf = 0 <->
      forall doc_id content,
        In (doc_id, content) (documents demo_engine) ->
        In "alpha" (preprocess_text content)).
Proof.
  exact (idf_is_log_ratio demo_pickle demo_fs demo_engine
           (save_index demo_pickle demo_engine) "alpha"
           [(2%Z, INR 2 / INR 2); (1%Z, INR 2 / INR 2)] demo_build eq_refl).
Defined.

Lemma blank_build :
  build_index demo_pickle blank_fs init
  = Ok (blank_engine, save_index demo_pickle blank_engine).
Proof.
  unfold build_index.
  assert (El : load_documents blank_fs init = Ok blank_loaded)
    by (vm_compute; reflexivity).
  rewrite El. cbn [bind]. unfold build_inverted_index.
  assert (Ei : fold_left index_document (documents blank_loaded)
                         (inverted_index blank_loaded)
               = [("alpha", [(1%Z, INR 1 / INR 2)]);
                  ("beta", [(1%Z, INR 1 / INR 2)])])
    by (cbv -[INR Rdiv]; reflexivity).
  rewrite Ei. cbn [foldM N blank_loaded idf_values].
  rewrite !set_idf_total by (try discriminate; lia). cbn [bind length].
  rewrite !set_idf_total by (try discriminate; cbn; lia). cbn [bind].
  unfold compute_document_vectors.
  cbn [documents blank_loaded keys map fst foldM].
  unfold document_vector.
  cbv -[vector_length INR Rdiv Rmult ln sqrt sum_squares blank_engine
        save_index].
  rewrite !vector_length_Ok. reflexivity.
Qed.

Lemma term_frequencies_sum_to_one_witness :
  Rsum (doc_frequencies (inverted_index blank_engine) 1) = 1
  /\ Forall (fun tf => 0 <= tf <= 1)
            (doc_frequencies (inverted_index blank_engine) 1).
Proof.
  apply (term_frequencies_sum_to_one demo_pickle blank_fs blank_engine
           (save_index demo_pickle blank_engine) 1 "Alpha beta" blank_build).
  - simpl. left. reflexivity.
  - vm_compute. discriminate.
Defined.

Lemma search_scores_in_unit_interval_witness :
  let qv := build_query_vector (idf_values demo_engine)
                               (preprocess_text "alpha") in
  (exists qlen hits,
      vector_length qv = Ok qlen
      /\ search demo_engine "alpha" 10 = Ok hits
      /\ (forall t w, In (t, w) qv -> 0 <= w)
      /\ (forall doc_id, In doc_id (keys (documents demo_engine)) ->
          exists vec len s,
            dict_get doc_id (doc_vectors demo_engine) = Some vec
            /\ (forall t w, In (t, w) vec -> 0 <= w)
            /\ dict_get doc_id (doc_lengths demo_engine) = Some len
            /\ document_score demo_engine qv qlen doc_id = Ok s
            /\ 0 <= s <= 1
            /\ (len = 0 \/ qlen = 0 ->
                s = 0 /\ ~ In doc_id (map Hit.doc_id hits)))
      /\ Forall (fun h =>
                   In (Hit.doc_id h) (keys (documents demo_engine))
                   /\ document_score demo_engine qv qlen (Hit.doc_id h)
                      = Ok (Hit.score h)
                   /\ 0 < Hit.score h <= 1) hits)
  /\ forall (state : Binary64.engine) (hits64 : list Binary64.Hit.t),
       Binary64.search state "alpha" 10 = Ok hits64 ->
       Forall (fun h => Binary64.positive (Binary64.Hit.score h) = true)
              hits64.
Proof.
  exact (search_scores_in_unit_interval demo_pickle demo_fs demo_engine
           (save_index demo_pickle demo_engine) "alpha" 10 demo_build).
Defined.

(** ** C7 *)

Lemma build_query_vector_no_idf query_terms :
  build_query_vector [] query_terms = [].
Proof.
  unfold build_query_vector.
  apply (fold_left_invariant (fun qv : dict string R => qv = [])); [|reflexivity].
  intros qv [t c] _ ->. reflexivity.
Qed.

(** C7 (amended). [search] makes no readiness check and raises no
    [NotReadyError]: on an engine whose IDF table is empty, as it is on a
    freshly constructed engine and after [load_documents] alone, it returns
    the empty result list for every query. *)
Theorem search_before_index_returns_nothing (self : engine) (query : string)
  (top_k : Z) :
  idf_values self = [] -> search self query top_k = Ok [].
Proof.
  intros E. unfold search. destruct (preprocess_text query); [reflexivity|].
  rewrite E, build_query_vector_no_idf. reflexivity.
Qed.

Lemma search_before_index_returns_nothing_witness :
  search demo_loaded "alpha" 10 = Ok [].
Proof.
  exact (search_before_index_returns_nothing demo_loaded "alpha" 10 eq_refl).
Defined.

(** C7, the claim as worded, fails: a search on the freshly constructed
    engine returns the empty list and raises nothing. *)
Lemma search_on_fresh_engine_does_not_raise :
  search init "alpha" 10 = Ok [] /\ ~ raises (search init "alpha" 10).
Proof.
  assert (E : search init "alpha" 10 = Ok []) by (vm_compute; reflexivity).
  split; [exact E|]. intros [e He]. rewrite E in He. discriminate.
Qed.

(** ** C4 *)

Lemma load_save_index (P : pickle) (self other : engine) :
  pickle_faithful P ->
  load_index P (Some (save_index P self)) other
  = Ok {| documents := documents other; metadata := metadata other;
          inverted_index := inverted_index self;
          doc_vectors := doc_vectors self;
          doc_lengths := doc_lengths self;
          idf_values := idf_values self;
          N := N self |}.
Proof.
  intros HP. unfold load_index, save_index. rewrite HP. reflexivity.
Qed.

(** C4. Loading a saved index into an engine that holds the same documents
    and metadata (as [main] does, which reloads them from the corpus) gives
    an engine whose [search] answers every query as the engine that was
    saved, given that [pickle.load] gives back what [pickle.dump] wrote. *)
Theorem search_after_save_and_load (P : pickle) (self other : engine)
  (query : string) (top_k : Z) :
  pickle_faithful P ->
  documents other = documents self ->
  metadata other = metadata self ->
  exists loaded,
    load_index P (Some (save_index P self)) other = Ok loaded
    /\ search loaded query top_k = search self query top_k.
Proof.
  intros HP Hd Hm. eexists. split; [apply load_save_index; exact HP|].
  rewrite Hd, Hm. destruct self. reflexivity.
Qed.

Lemma search_after_save_and_load_witness :
  exists loaded,
    load_index demo_pickle (Some (save_index demo_pickle demo_engine)) demo_loaded
    = Ok loaded
    /\ search loaded "alpha" 10 = search demo_engine "alpha" 10.
Proof.
  exact (search_after_save_and_load demo_pickle demo_engine demo_loaded
           "alpha" 10 demo_pickle_faithful eq_refl eq_refl).
Defined.

(** X1. The path of [main] when the index file exists: [load_index] on a
    fresh engine followed by [load_documents] over the same corpus returns,
    and the engine it gives is the one that was built. *)
Theorem reload_gives_built_engine (P : pickle) (fs : file_system)
  (self : engine) (b : blob P) :
  pickle_faithful P ->
  build_index P fs init = Ok (self, b) ->
  exists loaded,
    load_index P (Some b) init = Ok loaded
    /\ load_documents fs loaded = Ok self.
Proof.
  intros HP E. pose proof (build_index_built _ _ _ _ E) as B.
  apply build_index_Ok in E. destruct E as (e1 & e2 & E1 & E2 & E3 & ->).
  eexists. split; [apply load_save_index; exact HP|].
  apply load_documents_Ok in E1.
  destruct E1 as (rows & Er & Em & Ed & HN & _).
  apply build_inverted_index_Ok in E2.
  destruct E2 as (_ & _ & Hd2 & Hm2 & HN2 & _).
  apply compute_document_vectors_Ok in E3.
  destruct E3 as (_ & Hd3 & Hm3 & HN3 & _).
  unfold load_documents. rewrite Er. simpl in *.
  rewrite Em. simpl. rewrite Ed. simpl.
  rewrite <- Hd2, <- Hd3, <- Hm2, <- Hm3.
  rewrite <- (built_N _ B). destruct self. reflexivity.
Qed.

Lemma reload_gives_built_engine_witness :
  exists loaded,
    load_index demo_pickle (Some (save_index demo_pickle demo_engine)) init
    = Ok loaded
    /\ load_documents demo_fs loaded = Ok demo_engine.
Proof.
  exact (reload_gives_built_engine demo_pickle demo_fs demo_engine
           (save_index demo_pickle demo_engine) demo_pickle_faithful demo_build).
Defined.

(** ** C9 *)

Lemma any_term_in_existsb query_terms sentence_lower :
  any_term_in query_terms sentence_lower
  = existsb (fun term => contains term sentence_lower) query_terms.
Proof.
  induction query_terms as [|t ts IH]; simpl; [reflexivity|].
  rewrite IH. destruct (contains t sentence_lower); reflexivity.
Qed.

Lemma matching_sentences_filter query_terms sentences : forall acc,
  fold_left (add_sentence query_terms) sentences acc
  = acc ++ map strip
             (filter (fun sentence =>
                        existsb (fun term => contains term (lower sentence))
                                query_terms)
                     sentences).
Proof.
  induction sentences as [|s ss IH]; intros acc; simpl.
  - now rewrite app_nil_r.
  - rewrite IH. unfold add_sentence. rewrite any_term_in_existsb.
    destruct (existsb (fun term => contains term (lower s)) query_terms);
      simpl; [rewrite <- app_assoc|]; reflexivity.
Qed.

Lemma summarize_spec query_terms content :
  summarize query_terms content = snippet_spec query_terms content.
Proof.
  unfold summarize, snippet_spec. rewrite matching_sentences_filter.
  cbn [app]. rewrite firstn_map.
  destruct (filter _ (re_split EmptyString content)) as [|m ms]; reflexivity.
Qed.

(** C9 (amended). For every result returned by [search] on a built index,
    the snippet is obtained by splitting the document text on ['.'], ['!']
    and ['?'], scanning the sentences in document order, collecting the
    first 3 sentences that contain any query term, each stripped of
    surrounding white space, joining them with [". "] and appending a final
    ["."]; if no sentence contains a query term the snippet is the empty
    string. *)
Theorem search_snippets (P : pickle) (fs : file_system) (self : engine)
  (b : blob P) (query : string) (top_k : Z) :
  build_index P fs init = Ok (self, b) ->
  exists hits,
    search self query top_k = Ok hits
    /\ Forall (fun h =>
                 exists content,
                   dict_get (Hit.doc_id h) (documents self) = Some content
                   /\ Hit.summary h
                      = snippet_spec (preprocess_text query) content)
              hits.
Proof.
  intros E. apply build_index_built in E.
  destruct (search_built self query top_k E) as [hits [Es HF]].
  exists hits. split; [exact Es|].
  apply Forall_forall. intros h I.
  destruct (Forall2_In_r _ _ _ _ HF I) as [item [_ (c & m & Ec & _ & ->)]].
  exists c. simpl. split; [exact Ec | apply summarize_spec].
Qed.

Lemma search_snippets_witness :
  exists hits,
    search demo_engine "alpha" 10 = Ok hits
    /\ Forall (fun h =>
                 exists content,
                   dict_get (Hit.doc_id h) (documents demo_engine) = Some content
                   /\ Hit.summary h
                      = snippet_spec (preprocess_text "alpha") content)
              hits.
Proof.
  exact (search_snippets demo_pickle demo_fs demo_engine
           (save_index demo_pickle demo_engine) "alpha" 10 demo_build).
Defined.

(** C9, the claim as worded, fails: for the query [alpha] the first result
    of the small corpus has the snippet ["Alpha. Alpha."], while joining the
    matching sentences with [". "] gives ["Alpha.  Alpha"]. *)
Lemma search_snippet_is_not_plain_join :
  exists hits h content,
    search demo_engine "alpha" 10 = Ok hits
    /\ In h hits
    /\ dict_get (Hit.doc_id h) (documents demo_engine) = Some content
    /\ Hit.summary h = "Alpha. Alpha."
    /\ snippet_claimed (preprocess_text "alpha") content = "Alpha.  Alpha"
    /\ Hit.summary h <> snippet_claimed (preprocess_text "alpha") content.
Proof.
  exists demo_hits, (Hit.mk 2 demo_score (Some "Second") "Alpha. Alpha." (Some "u2") (Some "d2")),
    demo_text.
  split; [exact demo_search|]. split; [left; reflexivity|].
  split; [reflexivity|]. split; [reflexivity|].
  assert (Ec : snippet_claimed (preprocess_text "alpha") demo_text
               = "Alpha.  Alpha") by (vm_compute; reflexivity).
  split; [exact Ec|]. rewrite Ec. simpl. discriminate.
Qed.

(** ** Building the corpus of one document *)

Lemma solo_build :
  build_index demo_pickle solo_fs init
  = Ok (solo_engine, save_index demo_pickle solo_engine).
Proof.
  unfold build_index.
  assert (El : load_documents solo_fs init = Ok solo_loaded)
    by (vm_compute; reflexivity).
  rewrite El. cbn [bind]. unfold build_inverted_index.
  assert (Ei : fold_left index_document (documents solo_loaded)
                         (inverted_index solo_loaded)
               = [("alpha", [(7%Z, INR 1 / INR 1)])])
    by (cbv -[INR Rdiv]; reflexivity).
  rewrite Ei. cbn [foldM N solo_loaded idf_values].
  rewrite set_idf_total by (try discriminate; lia). cbn [bind length].
  unfold compute_document_vectors.
  cbn [documents solo_loaded keys map fst foldM].
  unfold document_vector.
  cbv -[vector_length INR Rdiv Rmult ln sqrt sum_squares solo_engine
        save_index].
  rewrite !vector_length_Ok. reflexivity.
Qed.

Lemma search_with_idf_zero_terms_witness :
  let qv := build_query_vector (idf_values solo_engine)
                               (preprocess_text "alpha") in
  qv <> []
  /\ (forall t w, In (t, w) qv -> w = 0)
  /\ vector_length qv = Ok 0
  /\ search solo_engine "alpha" 10 = Ok [].
Proof.
  apply (search_with_idf_zero_terms demo_pickle solo_fs solo_engine
           (save_index demo_pickle solo_engine) "alpha" 10 solo_build).
  - vm_compute. discriminate.
  - intros t I. vm_compute in I. destruct I as [<-|[]].
    simpl. left. reflexivity.
  - intros t doc_id content I Id. vm_compute in I. destruct I as [<-|[]].
    simpl in Id. destruct Id as [Ed|[]]. inversion Ed; subst.
    vm_compute. left. reflexivity.
Defined.

(** ** C6 *)

Lemma load_row_good md row doc_id meta :
  parsed_id row = Some doc_id -> row_meta row = Some meta ->
  load_row md row = Ok (dict_set doc_id meta md).
Proof.
  unfold parsed_id, row_meta, load_row, dict_item, int_of_field.
  destruct (dict_get "id" row) as [[s|]|]; try discriminate.
  cbn [bind]. intros ->. cbn [bind].
  destruct (dict_get "title" row) as [title|]; [|discriminate].
  destruct (dict_get "filename" row) as [filename|]; [|discriminate].
  destruct (dict_get "url" row) as [url|]; [|discriminate].
  destruct (dict_get "date" row) as [date|]; [|discriminate].
  intros E. inversion E. reflexivity.
Qed.

(** What a row raises whose id is missing or does not parse. *)
Lemma load_row_bad_id md row :
  (dict_get "id" row = None -> load_row md row = Err KeyError)
  /\ (dict_get "id" row = Some None -> load_row md row = Err TypeError)
  /\ (forall s, dict_get "id" row = Some (Some s) -> py_int s = None ->
                load_row md row = Err ValueError).
Proof.
  unfold load_row, dict_item, int_of_field.
  repeat split; [intros -> | intros -> | intros s -> Ep]; cbn [bind];
    [reflexivity | reflexivity | rewrite Ep; reflexivity].
Qed.

(** Well-formed rows all load; each entry of the table comes from a row
    and each row's id becomes a key. *)
Lemma load_rows_good rows : forall md,
  Forall row_well_formed rows ->
  exists md',
    foldM load_row rows md = Ok md'
    /\ (forall d m, In (d, m) md' -> In (d, m) md \/ In (d, m) (row_entries rows))
    /\ (forall d, In d (keys md') <->
                  In d (keys md) \/ In (Some d) (map parsed_id rows)).
Proof.
  induction rows as [|row rows IH]; intros md Hall; simpl.
  - exists md. split; [reflexivity|]. split; [auto | tauto].
  - inversion Hall as [|? ? [Hid Hmeta] Hrest]; subst.
    destruct (parsed_id row) as [d0|] eqn:Ep; [|congruence].
    destruct (row_meta row) as [m0|] eqn:Em; [|congruence].
    rewrite (load_row_good md row d0 m0 Ep Em). simpl.
    destruct (IH (dict_set d0 m0 md) Hrest) as (md' & E & Hin & Hk).
    exists md'. split; [exact E|]. split.
    + intros d m I.
      destruct (Hin d m I) as [I'|I'].
      * apply In_dict_set in I'. destruct I' as [[-> ->]|I']; [|auto].
        right. left. reflexivity.
      * right. right. exact I'.
    + intros d. rewrite Hk, In_keys_dict_set. split.
      * intros [[->|I]|I]; [right; left; reflexivity | left; exact I
                           | right; right; exact I].
      * intros [I|[Ed|I]]; [left; right; exact I | left; left; congruence
                           | right; exact I].
Qed.

(** The rows after well-formed rows are read as usual: the loop goes on
    from the table those rows gave. *)
Lemma load_rows_app good rest : forall md,
  Forall row_well_formed good ->
  exists md', foldM load_row (good ++ rest) md = foldM load_row rest md'.
Proof.
  induction good as [|row good IH]; intros md Hall; simpl; [eauto|].
  inversion Hall as [|? ? [Hid Hmeta] Hrest]; subst.
  destruct (parsed_id row) as [d0|] eqn:Ep; [|congruence].
  destruct (row_meta row) as [m0|] eqn:Em; [|congruence].
  rewrite (load_row_good md row d0 m0 Ep Em). simpl. apply IH. exact Hrest.
Qed.

Lemma load_content_present fs docs doc_id meta content :
  named_file fs meta = Some content ->
  load_content fs docs (doc_id, meta) = Ok (dict_set doc_id content docs).
Proof.
  unfold load_content, named_file.
  destruct (Meta.filename meta) as [name|]; [|discriminate].
  intros ->. reflexivity.
Qed.

Lemma load_contents_present fs items : forall docs,
  (forall d m, In (d, m) items -> named_file fs m <> None) ->
  exists docs', foldM (load_content fs) items docs = Ok docs'.
Proof.
  induction items as [|[d m] items IH]; intros docs Hall; simpl; [eauto|].
  destruct (named_file fs m) as [c|] eqn:Ea.
  - rewrite (load_content_present fs docs d m c Ea). simpl.
    apply IH. intros d' m' I. apply (Hall d'). right. exact I.
  - exfalso. apply (Hall d m); [left; reflexivity | exact Ea].
Qed.

Lemma row_entries_In rows d m :
  In (d, m) (row_entries rows) ->
  exists row, In row rows /\ parsed_id row = Some d /\ row_meta row = Some m.
Proof.
  unfold row_entries. intros I. apply in_flat_map in I.
  destruct I as [row [Ir I]]. destruct (parsed_id row) as [d0|] eqn:Ep;
    [|destruct I].
  destruct (row_meta row) as [m0|] eqn:Em; [|destruct I].
  destruct I as [E|[]]. inversion E; subst. eauto.
Qed.

(** C6 (amended). The corpus loader skips no row whose id is missing or
    does not parse: the first such row, the rows before it being well
    formed, makes [load_documents] raise, [KeyError] when the table has no
    [id] column, [TypeError] when the row gives no value for [id] and
    [ValueError] when [int] rejects the value, whatever the rows after it.
    It raises [FileNotFoundError] when the metadata table cannot be opened.
    It raises no [EmptyCorpusError]: a table without rows loads the empty
    corpus.  When every row is well formed and names a file that exists, it
    loads one document per distinct id. *)
Theorem load_documents_raises_instead_of_skipping (fs : file_system) :
  match metadata_file fs with
  | None => load_documents fs init = Err FileNotFoundError
  | Some rows =>
      (forall good row rest,
          rows = good ++ row :: rest ->
          Forall row_well_formed good ->
          (dict_get "id" row = None ->
           load_documents fs init = Err KeyError)
          /\ (dict_get "id" row = Some None ->
              load_documents fs init = Err TypeError)
          /\ (forall s, dict_get "id" row = Some (Some s) ->
                        py_int s = None ->
                        load_documents fs init = Err ValueError))
      /\ (Forall (row_loadable fs) rows ->
          exists self,
            load_documents fs init = Ok self
            /\ N self = length (documents self)
            /\ forall doc_id,
                 In doc_id (keys (documents self))
                 <-> In (Some doc_id) (map parsed_id rows))
      /\ (rows = [] -> load_documents fs init = Ok init)
  end.
Proof.
  unfold load_documents. destruct (metadata_file fs) as [rows|]; [|reflexivity].
  simpl. split; [|split].
  - intros good row rest -> Hgood.
    destruct (load_rows_app good (row :: rest) [] Hgood) as [md ->].
    destruct (load_row_bad_id md row) as (Hk & Ht & Hv). simpl.
    repeat split.
    + intros E. rewrite (Hk E). reflexivity.
    + intros E. rewrite (Ht E). reflexivity.
    + intros s E Ep. rewrite (Hv s E Ep). reflexivity.
  - intros Hall.
    assert (Hwf : Forall row_well_formed rows).
    { eapply Forall_impl; [|exact Hall].
      intros row (d & m & c & Ep & Em & _). split; congruence. }
    destruct (load_rows_good rows [] Hwf) as (md & Em & Hin & Hk).
    rewrite Em. simpl.
    destruct (load_contents_present fs md []) as [docs Ed].
    { intros d m I. destruct (Hin d m I) as [[]|I'].
      apply row_entries_In in I'. destruct I' as (row & Ir & _ & Erm).
      rewrite Forall_forall in Hall.
      destruct (Hall row Ir) as (d' & m' & c & _ & Erm' & Ea).
      rewrite Erm in Erm'. inversion Erm'; subst m'. congruence. }
    rewrite Ed. simpl. eexists. split; [reflexivity|]. simpl.
    split; [reflexivity|]. intros d.
    rewrite (load_contents_keys fs md [] docs d Ed), Hk. simpl. tauto.
  - intros ->. reflexivity.
Qed.

Lemma demo_rows_loadable : Forall (row_loadable demo_fs) demo_rows.
Proof.
  repeat constructor; unfold row_loadable; do 3 eexists;
    repeat split; vm_compute; reflexivity.
Qed.

Lemma load_documents_raises_instead_of_skipping_witness :
  exists self,
    load_documents demo_fs init = Ok self
    /\ N self = length (documents self)
    /\ forall doc_id,
         In doc_id (keys (documents self))
         <-> In (Some doc_id) (map parsed_id demo_rows).
Proof.
  pose proof (load_documents_raises_instead_of_skipping demo_fs) as H.
  simpl in H. destruct H as (_ & H & _). apply H.
  exact demo_rows_loadable.
Defined.

(** C6, the claim as worded, fails: a table whose first row has the id [x]
    and whose second row is well formed is not loaded from the second row,
    [load_documents] raises [ValueError]; so does a first row without a
    value for [id], with [TypeError]; and the empty table loads without
    error. *)
Lemma load_documents_does_not_skip :
  load_documents
    (mk_fs (Some [mk_row (Some "x") "Bad" "u0" "d0" "a.txt";
                  mk_row (Some "1") "First" "u1" "d1" "a.txt"]) demo_files)
    init = Err ValueError
  /\ load_documents
       (mk_fs (Some [mk_row None "Bad" "u0" "d0" "a.txt";
                     mk_row (Some "1") "First" "u1" "d1" "a.txt"]) demo_files)
       init = Err TypeError
  /\ load_documents (mk_fs (Some []) demo_files) init = Ok init.
Proof.
  repeat split; vm_compute; reflexivity.
Qed.

(** ** The build returns *)

Lemma idf_covers_index n index idf0 idf :
  NoDup (keys index) ->
  foldM (set_idf n) index idf0 = Ok idf ->
  forall term, In term (keys index) -> In term (keys idf).
Proof.
  intros Hnd E term I. apply In_keys_dict_get in I. destruct I as [ps Eps].
  pose proof (idf_loop_get n index idf0 idf term Hnd E) as Eg.
  rewrite Eps in Eg. apply dict_get_Some_key in Eg. exact Eg.
Qed.

(** After a load that returned, the rest of [build_index] returns too, also
    on an engine that already held an index. *)
Lemma build_after_load (P : pickle) (fs : file_system) (self0 e1 : engine) :
  load_documents fs self0 = Ok e1 ->
  NoDup (keys (inverted_index self0)) ->
  no_empty_list (inverted_index self0) ->
  (1 <= N e1)%nat \/ (documents e1 = [] /\ inverted_index self0 = []) ->
  exists self, build_index P fs self0 = Ok (self, save_index P self).
Proof.
  intros El Hnd Hne HN. unfold build_index. rewrite El. simpl.
  apply load_documents_Ok in El.
  destruct El as (rows & _ & _ & _ & _ & Hidx & _).
  set (index := fold_left index_document (documents e1) (inverted_index e1)).
  assert (Hnd' : NoDup (keys index)).
  { apply index_fold_NoDup. rewrite Hidx. exact Hnd. }
  assert (Hne' : no_empty_list index).
  { apply index_fold_no_empty. rewrite Hidx. exact Hne. }
  destruct (idf_loop_total (N e1) index (idf_values e1)) as [idf Ei].
  { destruct HN as [HN|[Hd Hi]]; [left; exact HN | right].
    unfold index. rewrite Hd, Hidx, Hi. reflexivity. }
  { exact Hne'. }
  unfold build_inverted_index. fold index. rewrite Ei. simpl.
  unfold compute_document_vectors. simpl.
  destruct (vectors_loop_total
              {| documents := documents e1; metadata := metadata e1;
                 inverted_index := index; doc_vectors := doc_vectors e1;
                 doc_lengths := doc_lengths e1; idf_values := idf;
                 N := N e1 |}
              (keys (documents e1))
              (idf_covers_index _ _ _ _ Hnd' Ei)
              (doc_vectors e1, doc_lengths e1)) as [st Es].
  rewrite Es. simpl. eexists. reflexivity.
Qed.

Lemma build_after_fresh_load (P : pickle) (fs : file_system) (e1 : engine) :
  load_documents fs init = Ok e1 ->
  exists self, build_index P fs init = Ok (self, save_index P self).
Proof.
  intros El. apply (build_after_load P fs init e1 El).
  - constructor.
  - intros ? ? [].
  - apply load_documents_Ok in El.
    destruct El as (_ & _ & _ & _ & HN & _).
    destruct (documents e1) as [|doc docs] eqn:Ed; [right; auto|].
    left. rewrite HN. simpl. lia.
Qed.

(** ** Removing a document from the corpus *)





(** ** C5 *)






(** Deleting the text file of a document while its row stays in the
    metadata table does not shrink the index: the build raises. *)
Lemma build_without_text_file_raises :
  build_index demo_pickle
    (mk_fs (Some demo_rows)
           (fun name => if String.eqb name "a.txt" then None
                        else demo_files name))
    init
  = Err FileNotFoundError.
Proof.
  unfold build_index.
  assert (El : load_documents
                 (mk_fs (Some demo_rows)
                        (fun name => if String.eqb name "a.txt" then None
                                     else demo_files name))
                 init = Err FileNotFoundError) by (vm_compute; reflexivity).
  rewrite El. reflexivity.
Qed.

(** * Further properties of the code *)

(** ** [search] outside a built index *)

Lemma keys_nil {K V : Type} (d : dict K V) : keys d = [] -> d = [].
Proof. destruct d; [reflexivity | discriminate]. Qed.

(** X2. On any engine, a query none of whose tokens is a key of the IDF
    table (an empty query, a query of stopwords only, a query of unknown
    words) gets the empty result list: [search] returns at
    [if not query_terms] or at [if not query_vector]. *)
Theorem search_without_vocabulary_terms (self : engine) (query : string)
  (top_k : Z) :
  (forall t, In t (preprocess_text query) ->
             dict_get t (idf_values self) = None) ->
  search self query top_k = Ok [].
Proof.
  intros Hout. unfold search.
  destruct (preprocess_text query) as [|w ws] eqn:Eq; [reflexivity|].
  assert (Ev : build_query_vector (idf_values self) (w :: ws) = []).
  { apply keys_nil. unfold build_query_vector.
    destruct (keys (fold_left (add_query_weight (idf_values self) (w :: ws))
                              (count_words (w :: ws)) [])) as [|t ks] eqn:Ek;
      [reflexivity|].
    exfalso.
    assert (I : In t (keys (fold_left
                              (add_query_weight (idf_values self) (w :: ws))
                              (count_words (w :: ws)) [])))
      by (rewrite Ek; left; reflexivity).
    apply query_vector_keys in I. destruct I as [[]|[Iw Ii]].
    apply (proj1 (count_words_keys _ _)) in Iw.
    apply In_keys_dict_get in Ii. destruct Ii as [i Ei].
    rewrite (Hout t Iw) in Ei. discriminate. }
  rewrite Ev. reflexivity.
Qed.

Lemma search_without_vocabulary_terms_witness :
  search demo_engine "The zebra is in!" 10 = Ok [].
Proof.
  apply (search_without_vocabulary_terms demo_engine "The zebra is in!" 10).
  intros t I. vm_compute in I. destruct I as [<-|[]]. reflexivity.
Defined.

Lemma search_no_documents (self : engine) (query : string) (top_k : Z) :
  documents self = [] -> search self query top_k = Ok [].
Proof.
  intros Ed. unfold search. destruct (preprocess_text query); [reflexivity|].
  destruct (build_query_vector (idf_values self) (s :: l)) as [|e qv];
    [reflexivity|].
  rewrite vector_length_Ok, Ed. simpl. rewrite slice_to_nil. reflexivity.
Qed.

(** X3. [load_index] restores the index and nothing else: an engine
    created fresh and given the index file an earlier build wrote, without
    [load_documents], holds the index of that build, no document and no
    metadata, and answers every query with the empty list ([pickle] giving
    back what it wrote). *)
Theorem search_after_load_index_alone (P : pickle) (fs : file_system)
  (old : engine) (b : blob P) (query : string) (top_k : Z) :
  pickle_faithful P ->
  build_index P fs init = Ok (old, b) ->
  exists loaded,
    load_index P (Some b) init = Ok loaded
    /\ documents loaded = [] /\ metadata loaded = []
    /\ inverted_index loaded = inverted_index old
    /\ idf_values loaded = idf_values old
    /\ doc_vectors loaded = doc_vectors old
    /\ doc_lengths loaded = doc_lengths old
    /\ N loaded = N old
    /\ search loaded query top_k = Ok [].
Proof.
  intros HP E. apply build_index_Ok in E.
  destruct E as (e1 & e2 & _ & _ & _ & ->).
  eexists. split; [apply (load_save_index P old init HP)|]. simpl.
  repeat split. apply search_no_documents. reflexivity.
Qed.

Lemma search_after_load_index_alone_witness :
  exists loaded,
    load_index demo_pickle (Some (save_index demo_pickle demo_engine)) init
    = Ok loaded
    /\ documents loaded = [] /\ metadata loaded = []
    /\ inverted_index loaded = inverted_index demo_engine
    /\ idf_values loaded = idf_values demo_engine
    /\ doc_vectors loaded = doc_vectors demo_engine
    /\ doc_lengths loaded = doc_lengths demo_engine
    /\ N loaded = N demo_engine
    /\ search loaded "alpha" 10 = Ok [].
Proof.
  exact (search_after_load_index_alone demo_pickle demo_fs demo_engine
           (save_index demo_pickle demo_engine) "alpha" 10
           demo_pickle_faithful demo_build).
Defined.

(** ** An index older than the corpus *)

Lemma foldM_raises {A S : Type} (body : S -> A -> result S) (x : exn)
  (l : list A) : forall s e,
  (forall s a e, body s a = Err e -> e = x) ->
  foldM body l s = Err e -> e = x.
Proof.
  induction l as [|a l IH]; intros s e Hb E; simpl in E; [discriminate|].
  destruct (body s a) as [s'|e'] eqn:Eb; simpl in E.
  - apply (IH s' e Hb E).
  - inversion E; subst. apply (Hb s a e Eb).
Qed.

Lemma dict_item_raises {K V : Type} `{EqDec K} (k : K) (d : dict K V) e :
  dict_item k d = Err e -> e = KeyError.
Proof.
  unfold dict_item. destruct (dict_get k d); [discriminate|].
  intros E. inversion E. reflexivity.
Qed.

Lemma document_score_raises self qv qlen doc_id e :
  document_score self qv qlen doc_id = Err e -> e = KeyError.
Proof.
  unfold document_score.
  destruct (foldM (add_product self doc_id) qv 0) as [s|e'] eqn:Ef; simpl.
  - destruct (dict_item doc_id (doc_lengths self)) as [len|e'] eqn:El; simpl;
      [discriminate|].
    intros E. inversion E; subst. apply (dict_item_raises _ _ _ El).
  - intros E. inversion E; subst. revert Ef. apply foldM_raises.
    intros s [t qw] e0. unfold add_product.
    destruct (dict_item doc_id (doc_vectors self)) as [vec|e1] eqn:Ev; simpl.
    + destruct (dict_get t vec); discriminate.
    + intros E0. inversion E0; subst. apply (dict_item_raises _ _ _ Ev).
Qed.

Lemma add_score_raises self qv qlen scores doc_id e :
  add_score self qv qlen scores doc_id = Err e -> e = KeyError.
Proof.
  unfold add_score.
  destruct (document_score self qv qlen doc_id) as [s|e'] eqn:Es; simpl;
    [discriminate|].
  intros E. inversion E; subst. apply (document_score_raises _ _ _ _ _ Es).
Qed.

(** A loop stops with the exception of the first element whose body can
    only raise. *)
Lemma foldM_raises_at {A S : Type} (body : S -> A -> result S) (x : exn)
  (l : list A) (a : A) : forall s,
  (forall s a e, body s a = Err e -> e = x) ->
  In a l -> (forall s, body s a = Err x) ->
  foldM body l s = Err x.
Proof.
  induction l as [|b l IH]; intros s Hb I Ha; [destruct I|]. simpl.
  destruct (body s b) as [s'|e] eqn:Eb; simpl.
  - destruct I as [->|I]; [rewrite Ha in Eb; discriminate|].
    apply IH; assumption.
  - f_equal. apply (Hb s b e Eb).
Qed.

(** A document without an entry in [doc_vectors] makes [search] raise
    [KeyError] as soon as the query has a term of the vocabulary. *)
Lemma search_missing_vector (self : engine) (query : string)
  (top_k : Z) (doc_id : Z) :
  build_query_vector (idf_values self) (preprocess_text query) <> [] ->
  In doc_id (keys (documents self)) ->
  dict_get doc_id (doc_vectors self) = None ->
  search self query top_k = Err KeyError.
Proof.
  intros Hqv Id Ev. unfold search.
  destruct (preprocess_text query) as [|w ws].
  { exfalso. apply Hqv. reflexivity. }
  destruct (build_query_vector (idf_values self) (w :: ws)) as [|[t qw] qv];
    [congruence|].
  rewrite vector_length_Ok. cbn [bind].
  rewrite (foldM_raises_at _ KeyError _ doc_id); [reflexivity | | exact Id |].
  - intros. eapply add_score_raises. eassumption.
  - intros scores. unfold add_score, document_score. simpl.
    unfold add_product at 1, dict_item. rewrite Ev. reflexivity.
Qed.

(** [load_documents] reads of the engine it starts from the documents and
    the metadata only, and leaves the index as it is. *)
Lemma load_documents_on_index (fs : file_system) (self0 fresh : engine) :
  documents self0 = [] -> metadata self0 = [] ->
  load_documents fs init = Ok fresh ->
  load_documents fs self0
  = Ok {| documents := documents fresh; metadata := metadata fresh;
          inverted_index := inverted_index self0;
          doc_vectors := doc_vectors self0;
          doc_lengths := doc_lengths self0;
          idf_values := idf_values self0;
          N := N fresh |}.
Proof.
  intros Ed Em. unfold load_documents. rewrite Ed, Em. simpl.
  destruct (metadata_file fs) as [rows|]; [|discriminate].
  destruct (foldM load_row rows []) as [md|]; simpl; [|discriminate].
  destruct (foldM (load_content fs) md []) as [docs|]; simpl; [|discriminate].
  intros E. inversion E. reflexivity.
Qed.

(** A build from a fresh engine stores vectors for the loaded documents
    only. *)
Lemma built_no_other_vector (P : pickle) (fs : file_system) (self : engine)
  (b : blob P) (doc_id : Z) :
  build_index P fs init = Ok (self, b) ->
  ~ In doc_id (keys (documents self)) ->
  dict_get doc_id (doc_vectors self) = None.
Proof.
  intros E Hni. apply build_index_Ok in E.
  destruct E as (e1 & e2 & E1 & E2 & E3 & _).
  apply load_documents_Ok in E1.
  destruct E1 as (_ & _ & _ & _ & _ & _ & _ & Hv1 & _).
  apply build_inverted_index_Ok in E2.
  destruct E2 as (_ & _ & _ & _ & _ & Hv2 & _).
  apply compute_document_vectors_Ok in E3.
  destruct E3 as (Hvec & Hd3 & _).
  rewrite Hd3 in Hni.
  destruct (proj2 (vectors_loop _ _ _ _ _ _ Hvec doc_id) Hni) as [-> _].
  rewrite Hv2, Hv1. reflexivity.
Qed.

(** X5. Searching on an index that is older than the corpus: when the
    index file an earlier build wrote is loaded into a fresh engine and the
    documents are then loaded from a table that lists a document the build
    did not have (the path of [main] when the file exists), every query
    with a term of the indexed vocabulary makes [search] raise [KeyError]
    ([pickle] giving back what it wrote). *)
Theorem search_on_a_stale_index_raises_KeyError (P : pickle)
  (fs0 fs : file_system) (old fresh : engine) (b : blob P) (query : string)
  (top_k : Z) (doc_id : Z) (term : string) :
  pickle_faithful P ->
  build_index P fs0 init = Ok (old, b) ->
  load_documents fs init = Ok fresh ->
  In doc_id (keys (documents fresh)) ->
  ~ In doc_id (keys (documents old)) ->
  In term (preprocess_text query) ->
  In term (keys (idf_values old)) ->
  exists loaded self,
    load_index P (Some b) init = Ok loaded
    /\ load_documents fs loaded = Ok self
    /\ documents self = documents fresh
    /\ search self query top_k = Err KeyError.
Proof.
  intros HP E El Id Hni Iq It.
  pose proof (built_no_other_vector P fs0 old b doc_id E Hni) as Ev.
  apply build_index_Ok in E. destruct E as (e1 & e2 & _ & _ & _ & ->).
  eexists. eexists. split; [apply (load_save_index P old init HP)|].
  split; [apply load_documents_on_index; [reflexivity | reflexivity | exact El]|].
  split; [reflexivity|].
  apply (search_missing_vector _ query top_k doc_id).
  - simpl. intros Hq.
    assert (I : In term (keys (build_query_vector (idf_values old)
                                                  (preprocess_text query)))).
    { unfold build_query_vector. apply query_vector_keys. right. split.
      - apply count_words_keys. exact Iq.
      - exact It. }
    rewrite Hq in I. destruct I.
  - exact Id.
  - exact Ev.
Qed.

Lemma search_on_a_stale_index_raises_KeyError_witness :
  exists loaded self,
    load_index demo_pickle (Some (save_index demo_pickle solo_engine)) init
    = Ok loaded
    /\ load_documents demo_fs loaded = Ok self
    /\ documents self = documents demo_loaded
    /\ search self "alpha" 10 = Err KeyError.
Proof.
  apply (search_on_a_stale_index_raises_KeyError demo_pickle solo_fs demo_fs
           solo_engine demo_loaded (save_index demo_pickle solo_engine)
           "alpha" 10 2 "alpha" demo_pickle_faithful solo_build demo_load).
  - simpl. left. reflexivity.
  - simpl. intros [H|[]]. discriminate H.
  - vm_compute. left. reflexivity.
  - simpl. left. reflexivity.
Defined.

(** ** The shape of the results *)

Lemma insert_desc_Permutation x l : Permutation (insert_desc x l) (x :: l).
Proof.
  induction l as [|y l IH]; simpl; [apply Permutation_refl|].
  destruct (Rltb (snd x) (snd y)); [|apply Permutation_refl].
  eapply Permutation_trans; [apply perm_skip; exact IH | apply perm_swap].
Qed.

(** The sort rearranges, it neither drops nor repeats. *)
Lemma sorted_desc_Permutation l : Permutation (sorted_desc l) l.
Proof.
  induction l as [|x l IH]; simpl; [apply perm_nil|].
  eapply Permutation_trans; [apply insert_desc_Permutation|].
  apply perm_skip. exact IH.
Qed.

Lemma NoDup_firstn {A : Type} n : forall l : list A,
  NoDup l -> NoDup (firstn n l).
Proof.
  induction n as [|n IH]; intros l Hnd; simpl; [constructor|].
  destruct l as [|x l]; [constructor|].
  inversion Hnd as [|? ? Hni Hnd']; subst. constructor; [|apply IH; exact Hnd'].
  intros I. apply Hni. revert I. apply In_firstn.
Qed.

Lemma NoDup_slice_to {A : Type} k (l : list A) : NoDup l -> NoDup (slice_to k l).
Proof. unfold slice_to. destruct (k <? 0)%Z; apply NoDup_firstn. Qed.

Lemma map_slice_to {A B : Type} (f : A -> B) k (l : list A) :
  map f (slice_to k l) = slice_to k (map f l).
Proof.
  unfold slice_to. rewrite length_map.
  destruct (k <? 0)%Z; symmetry; apply firstn_map.
Qed.

Lemma length_slice_to {A : Type} k (l : list A) :
  (length (slice_to k l) <= length l)%nat
  /\ ((k < 0)%Z \/ (Z.of_nat (length (slice_to k l)) <= k)%Z).
Proof.
  unfold slice_to. destruct (Z.ltb_spec k 0) as [Hk|Hk].
  - split; [rewrite length_firstn; lia | left; exact Hk].
  - split; [rewrite length_firstn; lia|]. right.
    pose proof (firstn_le_length (Z.to_nat k) l). lia.
Qed.

(** The scoring loop records each document at most once. *)
Lemma score_entries_NoDup self qv qlen ks :
  NoDup ks -> NoDup (map fst (flat_map (score_entry self qv qlen) ks)).
Proof.
  induction ks as [|k ks IH]; intros Hnd; simpl; [constructor|].
  inversion Hnd as [|? ? Hni Hnd']; subst.
  rewrite map_app.
  pose proof (score_entry_length self qv qlen k) as Hl.
  pose proof (score_entry_In self qv qlen k) as Hk.
  destruct (score_entry self qv qlen k) as [|p [|q r]]; simpl in *;
    [apply IH; exact Hnd' | | lia].
  constructor; [|apply IH; exact Hnd'].
  destruct (Hk p (or_introl eq_refl)) as [-> _].
  intros I. apply in_map_iff in I. destruct I as [x [Ex I]].
  apply in_flat_map in I. destruct I as [d [Id I]].
  apply score_entry_In in I. destruct I as [Ed _].
  apply Hni. congruence.
Qed.

Lemma score_entries_length self qv qlen ks :
  (length (flat_map (score_entry self qv qlen) ks) <= length ks)%nat.
Proof.
  induction ks as [|k ks IH]; simpl; [lia|].
  rewrite length_app. pose proof (score_entry_length self qv qlen k). lia.
Qed.

Lemma ranked_NoDup self query top_k :
  NoDup (keys (documents self)) -> NoDup (map fst (ranked self query top_k)).
Proof.
  intros Hnd. unfold ranked. destruct (preprocess_text query) as [|w ws];
    [constructor|].
  destruct (build_query_vector (idf_values self) (w :: ws)) as [|e qv];
    [constructor|].
  rewrite map_slice_to. apply NoDup_slice_to.
  eapply Permutation_NoDup;
    [apply Permutation_sym, Permutation_map, sorted_desc_Permutation|].
  apply score_entries_NoDup. exact Hnd.
Qed.

Lemma ranked_length self query top_k :
  (length (ranked self query top_k) <= length (documents self))%nat
  /\ ((top_k < 0)%Z \/ (Z.of_nat (length (ranked self query top_k)) <= top_k)%Z).
Proof.
  unfold ranked. destruct (preprocess_text query) as [|w ws];
    [simpl; split; lia|].
  destruct (build_query_vector (idf_values self) (w :: ws)) as [|e qv];
    [simpl; split; lia|].
  match goal with
  | |- context [slice_to top_k ?l] => pose proof (length_slice_to top_k l) as [H1 H2]
  end.
  split; [|exact H2].
  eapply Nat.le_trans; [exact H1|].
  rewrite (Permutation_length (sorted_desc_Permutation _)).
  eapply Nat.le_trans; [apply score_entries_length|].
  unfold keys. rewrite length_map. lia.
Qed.

Lemma hits_of_ranked self query_terms items hits :
  Forall2 (hit_of self query_terms) items hits ->
  map Hit.doc_id hits = map fst items /\ length hits = length items.
Proof.
  induction 1 as [|item h items hits Hh HF [IH1 IH2]]; [split; reflexivity|].
  destruct Hh as (c & m & _ & _ & ->). simpl. split; congruence.
Qed.

(** X6. On a built index [search] returns, for every query and every
    [top_k], results for distinct loaded documents, each carrying the title,
    url and date of its metadata entry; there are at most [N] of them and,
    when [top_k] is not negative, at most [top_k]. *)
Theorem search_results_well_formed (P : pickle) (fs : file_system)
  (self : engine) (b : blob P) (query : string) (top_k : Z) :
  build_index P fs init = Ok (self, b) ->
  exists hits,
    search self query top_k = Ok hits
    /\ NoDup (map Hit.doc_id hits)
    /\ (forall h, In h hits ->
          exists content meta,
            dict_get (Hit.doc_id h) (documents self) = Some content
            /\ dict_get (Hit.doc_id h) (metadata self) = Some meta
            /\ Hit.title h = Meta.title meta
            /\ Hit.url h = Meta.url meta
            /\ Hit.date h = Meta.date meta)
    /\ (length hits <= N self)%nat
    /\ ((top_k < 0)%Z \/ (Z.of_nat (length hits) <= top_k)%Z).
Proof.
  intros E. apply build_index_built in E.
  destruct (search_built self query top_k E) as [hits [Es HF]].
  destruct (hits_of_ranked _ _ _ _ HF) as [Hids Hlen].
  destruct (ranked_length self query top_k) as [Hl1 Hl2].
  exists hits. split; [exact Es|]. split.
  - rewrite Hids. apply ranked_NoDup. apply (built_docs _ E).
  - split.
    + intros h I. destruct (Forall2_In_r _ _ _ _ HF I)
        as [item [_ (c & m & Ec & Em & ->)]].
      exists c, m. simpl. auto.
    + rewrite Hlen, (built_N _ E). split; [exact Hl1 | exact Hl2].
Qed.

Lemma search_results_well_formed_witness :
  exists hits,
    search demo_engine "alpha" 1 = Ok hits
    /\ NoDup (map Hit.doc_id hits)
    /\ (forall h, In h hits ->
          exists content meta,
            dict_get (Hit.doc_id h) (documents demo_engine) = Some content
            /\ dict_get (Hit.doc_id h) (metadata demo_engine) = Some meta
            /\ Hit.title h = Meta.title meta
            /\ Hit.url h = Meta.url meta
            /\ Hit.date h = Meta.date meta)
    /\ (length hits <= N demo_engine)%nat
    /\ ((1 < 0)%Z \/ (Z.of_nat (length hits) <= 1)%Z).
Proof.
  exact (search_results_well_formed demo_pickle demo_fs demo_engine
           (save_index demo_pickle demo_engine) "alpha" 1 demo_build).
Defined.

(** ** What is retrieved *)

Lemma dot_nonzero qv vec :
  dot qv vec <> 0 ->
  exists t qw w, In (t, qw) qv /\ dict_get t vec = Some w /\ qw * w <> 0.
Proof.
  unfold dot. induction qv as [|[t qw] qv IH]; simpl; intros Hd;
    [congruence|].
  destruct (Req_dec (qw * weight_in vec t) 0) as [E0|Hn].
  - destruct IH as (t' & qw' & w & I & Ew & Hw); [lra|].
    exists t', qw', w. auto.
  - unfold weight_in, dict_get_default in Hn.
    destruct (dict_get t vec) as [w|] eqn:Ew; [|lra].
    exists t, qw, w. auto.
Qed.

(** A positive score needs a non-zero dot product. *)
Lemma positive_score_dot (len qlen d : R) :
  (if Rgtb len 0 && Rgtb qlen 0 then (0 + d) / (len * qlen) else 0 + d) > 0 ->
  d <> 0.
Proof.
  intros Hs ->. destruct (Rgtb len 0 && Rgtb qlen 0).
  - unfold Rdiv in Hs. rewrite Rplus_0_l, Rmult_0_l in Hs. lra.
  - lra.
Qed.

(** On a built index the posting of a document for a term says that the
    document has the term. *)
Lemma built_posting_has_term self term ps doc_id tf :
  built self -> In (term, ps) (inverted_index self) -> In (doc_id, tf) ps ->
  exists content,
    dict_get doc_id (documents self) = Some content
    /\ In term (preprocess_text content)
    /\ 0 < tf <= 1.
Proof.
  intros B It Ip.
  pose proof (postings_of_In _ _ _ (built_index _ B) It) as Eps.
  rewrite (built_postings _ B) in Eps. rewrite <- Eps in Ip.
  apply in_flat_map in Ip. destruct Ip as [[d c] [Id Ip]].
  apply doc_posting_In in Ip. simpl in Ip. destruct Ip as (<- & Hin & Htf).
  exists c. split; [|auto].
  apply In_dict_get; [apply (built_docs _ B) | exact Id].
Qed.

(** On a built index every ranked pair is a document that shares a term
    with the query. *)
Lemma ranked_shares_a_term self query top_k item :
  built self -> In item (ranked self query top_k) ->
  exists term content,
    In term (preprocess_text query)
    /\ dict_get (fst item) (documents self) = Some content
    /\ In term (preprocess_text content).
Proof.
  intros E Ii. apply ranked_In in Ii. destruct Ii as (Id & Esc & Hpos).
  set (qv := build_query_vector (idf_values self) (preprocess_text query)) in *.
  destruct (built_document_score self qv (sqrt (sum_squares (values qv)))
              (fst item) E Id) as (vec & len & _ & _ & _ & Hv & Esc').
  rewrite Esc' in Esc. inversion Esc as [Eq]. rewrite <- Eq in Hpos.
  apply positive_score_dot in Hpos. apply dot_nonzero in Hpos.
  destruct Hpos as (t & qw & w & Iq & Ew & _).
  destruct (proj2 (query_vector_from (idf_values self) (preprocess_text query))
                  t qw Iq) as (cq & i & Ic & _ & _).
  apply dict_get_Some_In in Ew.
  destruct (proj2 Hv t w Ew) as (ps & tf & i' & It & Ip & _ & _).
  destruct (built_posting_has_term self t ps (fst item) tf E It Ip)
    as (content & Ec & Hin & _).
  exists t, content. split; [|auto].
  apply (count_words_keys (preprocess_text query) t).
  apply (in_map fst) in Ic. exact Ic.
Qed.

(** X7. On a built index every result is a document that shares a term
    with the query: some token of the query is a token of its text.
    Documents without a query term are never returned. *)
Theorem search_results_share_a_term (P : pickle) (fs : file_system)
  (self : engine) (b : blob P) (query : string) (top_k : Z)
  (hits : list Hit.t) (h : Hit.t) :
  build_index P fs init = Ok (self, b) ->
  search self query top_k = Ok hits ->
  In h hits ->
  exists term content,
    In term (preprocess_text query)
    /\ dict_get (Hit.doc_id h) (documents self) = Some content
    /\ In term (preprocess_text content).
Proof.
  intros E Es Ih. apply build_index_built in E.
  destruct (search_built self query top_k E) as [hits' [Es' HF]].
  rewrite Es in Es'. inversion Es'; subst hits'. clear Es'.
  destruct (Forall2_In_r _ _ _ _ HF Ih) as [item [Ii (c & m & _ & _ & ->)]].
  simpl. apply (ranked_shares_a_term self query top_k item E Ii).
Qed.

Lemma search_results_share_a_term_witness :
  exists term content,
    In term (preprocess_text "alpha")
    /\ dict_get (Hit.doc_id (Hit.mk 2 demo_score (Some "Second")
                                    "Alpha. Alpha." (Some "u2") (Some "d2")))
                (documents demo_engine) = Some content
    /\ In term (preprocess_text content).
Proof.
  apply (search_results_share_a_term demo_pickle demo_fs demo_engine
           (save_index demo_pickle demo_engine) "alpha" 10 demo_hits _
           demo_build demo_search).
  left. reflexivity.
Defined.

(** ** The contents of the index *)

Lemma idf_loop_keys n index : forall idf0 idf,
  NoDup (keys index) ->
  (forall t, In t (keys index) -> ~ In t (keys idf0)) ->
  foldM (set_idf n) index idf0 = Ok idf ->
  keys idf = keys idf0 ++ keys index.
Proof.
  induction index as [|[t ps] index IH]; intros idf0 idf Hnd Hfresh E;
    simpl in E.
  - inversion E. simpl. now rewrite app_nil_r.
  - simpl in Hnd. inversion Hnd as [|? ? Hni Hnd']; subst.
    destruct (set_idf n idf0 (t, ps)) as [idf1|] eqn:E1; simpl in E;
      [|discriminate].
    apply set_idf_Ok in E1. destruct E1 as (_ & _ & ->).
    rewrite dict_set_absent in E by (apply Hfresh; left; reflexivity).
    assert (Hfresh' : forall t', In t' (keys index) ->
              ~ In t' (keys (idf0 ++ [(t, ln (INR n / INR (length ps)))]))).
    { intros t' I. unfold keys. rewrite map_app, in_app_iff. simpl.
      intros [I'|[<-|[]]]; [|contradiction].
      apply (Hfresh t'); [right; exact I | exact I']. }
    rewrite (IH _ _ Hnd' Hfresh' E).
    unfold keys. rewrite map_app, <- app_assoc. reflexivity.
Qed.

Lemma doc_postings_NoDup term docs :
  NoDup (keys docs) -> NoDup (map fst (flat_map (doc_posting term) docs)).
Proof.
  induction docs as [|doc docs IH]; intros Hnd; simpl; [constructor|].
  simpl in Hnd. inversion Hnd as [|? ? Hni Hnd']; subst.
  rewrite map_app. unfold doc_posting at 1.
  destruct (count_occ string_dec (preprocess_text (snd doc)) term); simpl;
    [apply IH; exact Hnd'|].
  constructor; [|apply IH; exact Hnd'].
  intros I. apply in_map_iff in I. destruct I as [p [Ep I]].
  apply in_flat_map in I. destruct I as [doc' [Id I]].
  apply doc_posting_In in I. destruct I as [Ef _].
  apply Hni. rewrite <- Ep, Ef. apply (in_map fst). exact Id.
Qed.

(** X8. After a build from a fresh engine the vocabulary is exactly the
    set of tokens of the loaded documents, and the IDF table has the same
    terms as the inverted index, in the same order. *)
Theorem vocabulary_is_the_corpus_terms (P : pickle) (fs : file_system)
  (self : engine) (b : blob P) :
  build_index P fs init = Ok (self, b) ->
  (forall term,
      In term (keys (inverted_index self))
      <-> exists doc_id content,
            In (doc_id, content) (documents self)
            /\ In term (preprocess_text content))
  /\ keys (idf_values self) = keys (inverted_index self).
Proof.
  intros E. pose proof (build_index_built _ _ _ _ E) as B. split.
  - intros term. split.
    + intros I. apply In_keys_dict_get in I. destruct I as [ps Eps].
      destruct (built_term self term ps B Eps) as (Ef & Hdf & _).
      destruct ps as [|[d tf] ps]; [simpl in Hdf; lia|].
      assert (Ip : In (d, tf) (flat_map (doc_posting term) (documents self)))
        by (rewrite <- Ef; left; reflexivity).
      apply in_flat_map in Ip. destruct Ip as [[d' c] [Id Ip]].
      apply doc_posting_In in Ip. simpl in Ip. exists d', c. tauto.
    + intros (d & c & Id & It).
      destruct (dict_get term (inverted_index self)) as [ps|] eqn:Eg;
        [apply dict_get_Some_key in Eg; exact Eg|].
      exfalso. pose proof (built_postings _ B term) as Hp.
      unfold postings_of, dict_get_default in Hp. rewrite Eg in Hp.
      assert (Hl : length (flat_map (doc_posting term) (documents self)) = 0%nat)
        by (rewrite <- Hp; reflexivity).
      apply in_split in Id. destruct Id as (l1 & l2 & Ed).
      rewrite Ed, flat_map_app, length_app in Hl. simpl in Hl.
      rewrite length_app, doc_posting_length in Hl. simpl in Hl.
      destruct (in_dec string_dec term (preprocess_text c)); [lia | contradiction].
  - apply build_index_Ok in E. destruct E as (e1 & e2 & E1 & E2 & E3 & _).
    apply load_documents_Ok in E1.
    destruct E1 as (_ & _ & _ & _ & _ & _ & Hidf & _).
    apply build_inverted_index_Ok in E2. destruct E2 as (_ & Hloop & _).
    apply compute_document_vectors_Ok in E3.
    destruct E3 as (_ & _ & _ & _ & Hidx3 & Hidf3).
    rewrite Hidf in Hloop. simpl in Hloop. rewrite Hidf3, Hidx3.
    apply (idf_loop_keys _ _ [] _) in Hloop; [exact Hloop | | intros ? _ []].
    rewrite <- Hidx3. apply (built_index _ B).
Qed.

Lemma vocabulary_is_the_corpus_terms_witness :
  (forall term,
      In term (keys (inverted_index demo_engine))
      <-> exists doc_id content,
            In (doc_id, content) (documents demo_engine)
            /\ In term (preprocess_text content))
  /\ keys (idf_values demo_engine) = keys (inverted_index demo_engine).
Proof.
  exact (vocabulary_is_the_corpus_terms demo_pickle demo_fs demo_engine
           (save_index demo_pickle demo_engine) demo_build).
Defined.

(** X9. After a build from a fresh engine the posting list of a term holds,
    in the order of the documents, one posting [(doc_id, count / len)] for
    each document in which the term occurs [count > 0] times among its
    [len] tokens, and no other posting; no document appears twice in it
    and every stored frequency is in (0,1]. *)
Theorem posting_lists_follow_the_documents (P : pickle) (fs : file_system)
  (self : engine) (b : blob P) (term : string) :
  build_index P fs init = Ok (self, b) ->
  postings_of (inverted_index self) term
  = flat_map (doc_posting term) (documents self)
  /\ NoDup (map fst (postings_of (inverted_index self) term))
  /\ Forall (fun p => 0 < snd p <= 1) (postings_of (inverted_index self) term).
Proof.
  intros E. apply build_index_built in E.
  rewrite (built_postings _ E). split; [reflexivity|]. split.
  - apply doc_postings_NoDup. apply (built_docs _ E).
  - apply Forall_forall. intros p I. apply in_flat_map in I.
    destruct I as [doc [_ I]]. apply doc_posting_In in I. tauto.
Qed.

Lemma posting_lists_follow_the_documents_witness :
  postings_of (inverted_index demo_engine) "alpha"
  = flat_map (doc_posting "alpha") (documents demo_engine)
  /\ NoDup (map fst (postings_of (inverted_index demo_engine) "alpha"))
  /\ Forall (fun p => 0 < snd p <= 1)
            (postings_of (inverted_index demo_engine) "alpha").
Proof.
  exact (posting_lists_follow_the_documents demo_pickle demo_fs demo_engine
           (save_index demo_pickle demo_engine) "alpha" demo_build).
Defined.

(** ** The document vectors, term by term *)

Lemma add_weight_loop_keys idf doc_id term ps : forall v v' k,
  foldM (add_weight idf doc_id term) ps v = Ok v' ->
  In k (keys v) -> In k (keys v').
Proof.
  induction ps as [|p ps IH]; intros v v' k E I; simpl in E.
  - inversion E; subst. exact I.
  - destruct (add_weight idf doc_id term v p) as [v1|] eqn:E1; simpl in E;
      [|discriminate].
    apply (IH _ _ k E). apply add_weight_Ok in E1.
    destruct E1 as [[_ ->]|[_ [i [_ ->]]]]; [exact I|].
    apply In_keys_dict_set. right. exact I.
Qed.

Lemma add_weight_loop_covers idf doc_id term ps : forall v v' tf,
  foldM (add_weight idf doc_id term) ps v = Ok v' ->
  In (doc_id, tf) ps -> In term (keys v').
Proof.
  induction ps as [|p ps IH]; intros v v' tf E I; simpl in E; [destruct I|].
  destruct (add_weight idf doc_id term v p) as [v1|] eqn:E1; simpl in E;
    [|discriminate].
  destruct I as [->|I]; [|apply (IH _ _ tf E I)].
  apply (add_weight_loop_keys _ _ _ _ _ _ _ E).
  apply add_weight_Ok in E1. simpl in E1.
  destruct E1 as [[Hne _]|[_ [i [_ ->]]]]; [congruence|].
  apply In_keys_dict_set. left. reflexivity.
Qed.

Lemma vector_loop_keys idf doc_id index : forall v v' k,
  foldM (add_term_weights idf doc_id) index v = Ok v' ->
  In k (keys v) -> In k (keys v').
Proof.
  induction index as [|[t ps] index IH]; intros v v' k E I; simpl in E.
  - inversion E; subst. exact I.
  - destruct (add_term_weights idf doc_id v (t, ps)) as [v1|] eqn:E1;
      simpl in E; [|discriminate].
    apply (IH _ _ k E). unfold add_term_weights in E1.
    apply (add_weight_loop_keys _ _ _ _ _ _ _ E1 I).
Qed.

(** The vector loop gives a weight to every term that has a posting of the
    document. *)
Lemma vector_loop_covers idf doc_id index : forall v v' term ps tf,
  foldM (add_term_weights idf doc_id) index v = Ok v' ->
  In (term, ps) index -> In (doc_id, tf) ps -> In term (keys v').
Proof.
  induction index as [|[t ps0] index IH]; intros v v' term ps tf E It Ip;
    simpl in E; [destruct It|].
  destruct (add_term_weights idf doc_id v (t, ps0)) as [v1|] eqn:E1;
    simpl in E; [|discriminate].
  destruct It as [Eq|It]; [|apply (IH _ _ term ps tf E It Ip)].
  inversion Eq; subst. apply (vector_loop_keys _ _ _ _ _ _ E).
  unfold add_term_weights in E1.
  apply (add_weight_loop_covers _ _ _ _ _ _ tf E1 Ip).
Qed.

(** The vector stored for a document is the one the vector loop computes
    over the final index. *)
Lemma built_vector_loop (P : pickle) (fs : file_system) (self : engine)
  (b : blob P) (doc_id : Z) :
  build_index P fs init = Ok (self, b) ->
  In doc_id (keys (documents self)) ->
  has_vector self (doc_vectors self) (doc_lengths self) doc_id.
Proof.
  intros E I. apply build_index_Ok in E.
  destruct E as (e1 & e2 & _ & _ & E3 & _).
  apply compute_document_vectors_Ok in E3.
  destruct E3 as (Hvec & Hd3 & _ & _ & Hidx3 & Hidf3).
  rewrite Hd3 in I.
  destruct (proj1 (vectors_loop _ _ _ _ _ _ Hvec doc_id) I)
    as (vec & Ev & EV & EL).
  exists vec. rewrite Hidf3, Hidx3. auto.
Qed.

Lemma unique_value {V : Type} (l : dict Z V) k a c :
  NoDup (keys l) -> In (k, a) l -> In (k, c) l -> a = c.
Proof.
  intros Hnd Ia Ic. apply (In_dict_get _ _ _ Hnd) in Ia.
  apply (In_dict_get _ _ _ Hnd) in Ic. congruence.
Qed.

(** The weight of a term in the vector of a document: none if the document
    lacks the term, [tf * idf] if it has it. *)
Lemma built_vector_weight (P : pickle) (fs : file_system) (self : engine)
  (b : blob P) (doc_id : Z) (content : string) (vec : dict string R)
  (term : string) :
  build_index P fs init = Ok (self, b) ->
  In (doc_id, content) (documents self) ->
  dict_get doc_id (doc_vectors self) = Some vec ->
  dict_get term vec
  = match count_occ string_dec (preprocess_text content) term with
    | O => None
    | S n =>
        Some (INR (S n) / INR (length (preprocess_text content))
              * ln (INR (N self)
                    / INR (length (postings_of (inverted_index self) term))))
    end.
Proof.
  intros E Id Ev. pose proof (build_index_built _ _ _ _ E) as B.
  assert (Ik : In doc_id (keys (documents self)))
    by (apply (in_map fst) in Id; exact Id).
  destruct (built_vector_loop P fs self b doc_id E Ik) as (vec' & Eloop & Ev' & _).
  rewrite Ev in Ev'. inversion Ev'; subst vec'. clear Ev'.
  pose proof (vector_loop_from _ _ _ _ Eloop) as [Hnd Hfrom].
  assert (Ec : dict_get doc_id (documents self) = Some content).
  { apply In_dict_get; [apply (built_docs _ B) | exact Id]. }
  destruct (count_occ string_dec (preprocess_text content) term) as [|n] eqn:Eo.
  - destruct (dict_get term vec) as [w|] eqn:Ew; [|reflexivity]. exfalso.
    apply dict_get_Some_In in Ew.
    destruct (Hfrom term w Ew) as (ps & tf & i & It & Ip & _ & _).
    destruct (built_posting_has_term self term ps doc_id tf B It Ip)
      as (c' & Ec' & Hin & _).
    rewrite Ec in Ec'. inversion Ec'; subst c'.
    apply (count_occ_In string_dec) in Hin. lia.
  - assert (Ip0 : In (doc_id, INR (S n) / INR (length (preprocess_text content)))
                     (postings_of (inverted_index self) term)).
    { rewrite (built_postings _ B). apply in_flat_map.
      exists (doc_id, content). split; [exact Id|].
      unfold doc_posting. simpl. rewrite Eo. left. reflexivity. }
    destruct (dict_get term (inverted_index self)) as [ps|] eqn:Eg.
    2:{ unfold postings_of, dict_get_default in Ip0. rewrite Eg in Ip0.
        destruct Ip0. }
    assert (Eps : postings_of (inverted_index self) term = ps).
    { unfold postings_of, dict_get_default. now rewrite Eg. }
    rewrite Eps in *.
    pose proof (dict_get_Some_In _ _ _ Eg) as It.
    pose proof (vector_loop_covers _ _ _ _ _ _ _ _ Eloop It Ip0) as Ik'.
    apply In_keys_dict_get in Ik'. destruct Ik' as [w Ew]. rewrite Ew. f_equal.
    apply dict_get_Some_In in Ew.
    destruct (Hfrom term w Ew) as (ps' & tf & i & It' & Ip & Ei & ->).
    assert (ps' = ps).
    { apply (In_dict_get _ _ _ (built_index _ B)) in It'. congruence. }
    subst ps'.
    destruct (built_term self term ps B Eg) as (Ef & _ & Eidf).
    rewrite Eidf in Ei. inversion Ei; subst i. f_equal.
    apply (unique_value ps doc_id); [|exact Ip | exact Ip0].
    rewrite Ef. apply doc_postings_NoDup. apply (built_docs _ B).
Qed.

(** X10. After a build from a fresh engine every loaded document has a
    vector and a norm: the vector has distinct terms, it gives each term
    that occurs [count > 0] times among the [len] tokens of the document
    the weight [(count / len) * ln (N / df)] and holds no other term, and
    the norm stored is the square root of the sum of the squared weights. *)
Theorem document_vector_is_tf_idf (P : pickle) (fs : file_system)
  (self : engine) (b : blob P) (doc_id : Z) (content : string) :
  build_index P fs init = Ok (self, b) ->
  In (doc_id, content) (documents self) ->
  exists vec,
    dict_get doc_id (doc_vectors self) = Some vec
    /\ NoDup (keys vec)
    /\ dict_get doc_id (doc_lengths self)
       = Some (sqrt (sum_squares (values vec)))
    /\ forall term,
         dict_get term vec
         = match count_occ string_dec (preprocess_text content) term with
           | O => None
           | S n =>
               Some (INR (S n) / INR (length (preprocess_text content))
                     * ln (INR (N self)
                           / INR (length (postings_of (inverted_index self)
                                                      term))))
           end.
Proof.
  intros E Id. pose proof (build_index_built _ _ _ _ E) as B.
  assert (Ik : In doc_id (keys (documents self)))
    by (apply (in_map fst) in Id; exact Id).
  destruct (built_vectors _ B doc_id Ik) as (vec & Ev & El & Hnd & _).
  exists vec. split; [exact Ev|]. split; [exact Hnd|]. split; [exact El|].
  intros term. apply (built_vector_weight P fs self b doc_id content vec term E Id Ev).
Qed.

Lemma document_vector_is_tf_idf_witness :
  exists vec,
    dict_get 2%Z (doc_vectors demo_engine) = Some vec
    /\ NoDup (keys vec)
    /\ dict_get 2%Z (doc_lengths demo_engine)
       = Some (sqrt (sum_squares (values vec)))
    /\ forall term,
         dict_get term vec
         = match count_occ string_dec (preprocess_text demo_text) term with
           | O => None
           | S n =>
               Some (INR (S n) / INR (length (preprocess_text demo_text))
                     * ln (INR (N demo_engine)
                           / INR (length (postings_of (inverted_index demo_engine)
                                                      term))))
           end.
Proof.
  apply (document_vector_is_tf_idf demo_pickle demo_fs demo_engine
           (save_index demo_pickle demo_engine) 2 demo_text demo_build).
  simpl. left. reflexivity.
Defined.

(** ** Which documents are returned *)

Lemma sum_squares_pos vals w : In w vals -> w <> 0 -> 0 < sum_squares vals.
Proof.
  intros I Hw. destruct (sum_squares_nonneg vals) as [Hlt|E]; [exact Hlt|].
  exfalso. symmetry in E. apply sum_squares_zero in E.
  rewrite Forall_forall in E. apply Hw. apply (E w I).
Qed.

Lemma weight_in_nonneg vec t :
  (forall t' w, In (t', w) vec -> 0 <= w) -> 0 <= weight_in vec t.
Proof.
  intros Hv. unfold weight_in, dict_get_default.
  destruct (dict_get t vec) as [w|] eqn:E; [|lra].
  apply (Hv t w). apply dict_get_Some_In. exact E.
Qed.

(** Two vectors of non-negative weights that share a term of positive
    weight have a positive dot product. *)
Lemma dot_pos qv vec t qw w :
  (forall t w, In (t, w) qv -> 0 <= w) ->
  (forall t w, In (t, w) vec -> 0 <= w) ->
  In (t, qw) qv -> dict_get t vec = Some w -> 0 < qw -> 0 < w ->
  0 < dot qv vec.
Proof.
  intros Hq Hv I Ew Hqw Hw. induction qv as [|[t' qw'] qv IH]; [destruct I|].
  change (dot ((t', qw') :: qv) vec)
    with (qw' * weight_in vec t' + dot qv vec).
  assert (Hq' : forall t w, In (t, w) qv -> 0 <= w).
  { intros t0 w0 I0. apply (Hq t0). right. exact I0. }
  destruct I as [Eq|I].
  - inversion Eq; subst. pose proof (dot_nonneg qv vec Hq' Hv).
    unfold weight_in, dict_get_default. rewrite Ew.
    pose proof (Rmult_lt_0_compat _ _ Hqw Hw). lra.
  - assert (0 <= qw') by (apply (Hq t'); left; reflexivity).
    pose proof (weight_in_nonneg vec t' Hv).
    pose proof (Rmult_le_pos _ _ H H0).
    pose proof (IH Hq' I). lra.
Qed.

Lemma slice_to_all {A : Type} (k : Z) (l : list A) :
  (Z.of_nat (length l) <= k)%Z -> slice_to k l = l.
Proof.
  intros H. unfold slice_to.
  destruct (k <? 0)%Z eqn:E; [apply Z.ltb_lt in E; lia|].
  apply firstn_all2. lia.
Qed.

(** On a built index a term that some document has and some document lacks
    has a positive IDF. *)
Lemma built_idf_pos self term doc_id content other text :
  built self ->
  In (doc_id, content) (documents self) ->
  In term (preprocess_text content) ->
  In (other, text) (documents self) ->
  ~ In term (preprocess_text text) ->
  exists i, dict_get term (idf_values self) = Some i /\ 0 < i
            /\ i = ln (INR (N self)
                       / INR (length (postings_of (inverted_index self) term))).
Proof.
  intros B Id It Io Hno.
  assert (Ip : exists p, In p (postings_of (inverted_index self) term)).
  { rewrite (built_postings _ B).
    destruct (doc_posting term (doc_id, content)) as [|p l] eqn:Ep.
    - exfalso. pose proof (doc_posting_length term (doc_id, content)) as Hl.
      rewrite Ep in Hl. simpl in Hl.
      destruct (in_dec string_dec term (preprocess_text content));
        [discriminate | contradiction].
    - exists p. apply in_flat_map. exists (doc_id, content).
      split; [exact Id | rewrite Ep; left; reflexivity]. }
  destruct Ip as [p Ip].
  destruct (dict_get term (inverted_index self)) as [ps|] eqn:Eg.
  2:{ unfold postings_of, dict_get_default in Ip. rewrite Eg in Ip.
      destruct Ip. }
  destruct (built_term self term ps B Eg) as (Ef & Hdf & Eidf).
  assert (Eps : postings_of (inverted_index self) term = ps).
  { unfold postings_of, dict_get_default. now rewrite Eg. }
  rewrite Eps. eexists. split; [exact Eidf|]. split; [|reflexivity].
  destruct (ln_ratio_nonneg _ _ Hdf) as [Hlt|E0]; [exact Hlt|].
  exfalso. symmetry in E0. apply (proj1 (ln_ratio_zero _ _ Hdf)) in E0.
  rewrite (built_N _ B), Ef in E0.
  apply (proj1 (df_eq_N term (documents self))) with (doc := (other, text)) in E0;
    [|exact Io].
  apply Hno. exact E0.
Qed.

(** X11. On a built index, a document that has a token of the query is
    returned as soon as some loaded document lacks that token (so the IDF of
    the token is positive) and [top_k] is at least the number of documents.
    With X7: when no slicing cuts the list, the results are documents that
    share a term with the query, and every document sharing a term that is
    not in all documents is among them. *)
Theorem search_returns_documents_with_a_distinguishing_term (P : pickle)
  (fs : file_system) (self : engine) (b : blob P) (query : string)
  (top_k : Z) (doc_id : Z) (content : string) (term : string)
  (other : Z) (text : string) :
  build_index P fs init = Ok (self, b) ->
  In (doc_id, content) (documents self) ->
  In term (preprocess_text query) ->
  In term (preprocess_text content) ->
  In (other, text) (documents self) ->
  ~ In term (preprocess_text text) ->
  (Z.of_nat (N self) <= top_k)%Z ->
  exists hits,
    search self query top_k = Ok hits /\ In doc_id (map Hit.doc_id hits).
Proof.
  intros E Id Iq It Io Hno Hk. pose proof (build_index_built _ _ _ _ E) as B.
  destruct (search_built self query top_k B) as [hits [Es HF]].
  exists hits. split; [exact Es|].
  rewrite (proj1 (hits_of_ranked _ _ _ _ HF)).
  assert (Ik : In doc_id (keys (documents self)))
    by (apply (in_map fst) in Id; exact Id).
  destruct (built_idf_pos self term doc_id content other text B Id It Io Hno)
    as (i & Ei & Hi & Eiv).
  set (qt := preprocess_text query) in *.
  set (qv := build_query_vector (idf_values self) qt) in *.
  (* the weight of the term in the query vector *)
  assert (Ikq : In term (keys qv)).
  { unfold qv, build_query_vector. apply query_vector_keys. right. split.
    - apply count_words_keys. exact Iq.
    - apply dict_get_Some_key in Ei. exact Ei. }
  apply In_keys_dict_get in Ikq. destruct Ikq as [qw Eqw].
  apply dict_get_Some_In in Eqw.
  destruct (query_vector_from (idf_values self) qt) as [_ Hqfrom].
  fold qv in Hqfrom.
  assert (Hqw : 0 < qw).
  { destruct (Hqfrom term qw Eqw) as (c & i' & Ic & Ei' & ->).
    rewrite Ei in Ei'. inversion Ei'; subst i'.
    apply (In_dict_get _ _ _ (count_words_NoDup qt)) in Ic.
    rewrite count_words_get in Ic.
    destruct (count_occ string_dec qt term) as [|n]; [discriminate|].
    inversion Ic; subst c.
    assert (0 < INR (S n)) by (apply lt_0_INR; lia).
    assert (0 < INR (length qt)).
    { apply lt_0_INR. destruct qt; [destruct Iq | simpl; lia]. }
    apply Rmult_lt_0_compat; [|exact Hi].
    apply Rdiv_lt_0_compat; assumption. }
  (* the weight of the term in the document vector *)
  destruct (built_document_score self qv (sqrt (sum_squares (values qv)))
              doc_id B Ik) as (vec & len & Ev & El & Elen & Hv & Esc).
  pose proof (built_vector_weight P fs self b doc_id content vec term E Id Ev)
    as Ew.
  apply (count_occ_In string_dec) in It.
  destruct (count_occ string_dec (preprocess_text content) term) as [|n] eqn:Eo;
    [lia|].
  rewrite <- Eiv in Ew.
  assert (Hw : 0 < INR (S n) / INR (length (preprocess_text content)) * i).
  { assert (0 < INR (S n)) by (apply lt_0_INR; lia).
    assert (0 < INR (length (preprocess_text content))).
    { apply lt_0_INR. pose proof (count_occ_bound string_dec term
                                    (preprocess_text content)). lia. }
    apply Rmult_lt_0_compat; [|exact Hi].
    apply Rdiv_lt_0_compat; assumption. }
  (* the score is positive *)
  assert (Hdot : 0 < dot qv vec).
  { apply (dot_pos qv vec term qw
             (INR (S n) / INR (length (preprocess_text content)) * i));
      try assumption.
    - intros t w I. apply (query_weight_nonneg self qt t w B).
      apply Hqfrom. exact I.
    - intros t w I. apply (vector_weight_nonneg self doc_id vec t w B Hv I). }
  assert (Hlen : 0 < len).
  { rewrite Elen. apply sqrt_lt_R0.
    apply (sum_squares_pos _ (INR (S n) / INR (length (preprocess_text content)) * i)).
    - apply dict_get_Some_In in Ew. apply (in_map snd) in Ew. exact Ew.
    - lra. }
  assert (Hqlen : 0 < sqrt (sum_squares (values qv))).
  { apply sqrt_lt_R0. apply (sum_squares_pos _ qw).
    - apply (in_map snd) in Eqw. exact Eqw.
    - lra. }
  rewrite (Rgtb_true len 0), (Rgtb_true _ 0) in Esc by lra.
  simpl andb in Esc. cbv iota in Esc.
  set (s := (0 + dot qv vec) / (len * sqrt (sum_squares (values qv)))) in *.
  assert (Hs : s > 0).
  { unfold s. apply Rdiv_lt_0_compat; [lra|].
    apply Rmult_lt_0_compat; assumption. }
  (* so the document is ranked, and nothing is cut *)
  assert (Ir : In (doc_id, s)
                  (flat_map (score_entry self qv (sqrt (sum_squares (values qv))))
                            (keys (documents self)))).
  { apply in_flat_map. exists doc_id. split; [exact Ik|].
    unfold score_entry. rewrite Esc, (Rgtb_true s 0) by exact Hs.
    left. reflexivity. }
  apply in_map_iff. exists (doc_id, s). split; [reflexivity|].
  unfold ranked. fold qt. fold qv.
  destruct qt as [|q0 qt']; [destruct Iq|].
  destruct qv as [|e qv'] eqn:Eqv; [destruct Eqw|].
  rewrite slice_to_all.
  - apply sorted_desc_In. exact Ir.
  - rewrite (Permutation_length (sorted_desc_Permutation _)).
    pose proof (score_entries_length self (e :: qv')
                  (sqrt (sum_squares (values (e :: qv'))))
                  (keys (documents self))) as Hl.
    unfold keys in Hl at 2. rewrite length_map in Hl.
    rewrite (built_N _ B) in Hk. lia.
Qed.

Lemma search_returns_documents_with_a_distinguishing_term_witness :
  exists hits,
    search demo_engine "alpha" 3 = Ok hits /\ In 1%Z (map Hit.doc_id hits).
Proof.
  apply (search_returns_documents_with_a_distinguishing_term demo_pickle
           demo_fs demo_engine (save_index demo_pickle demo_engine)
           "alpha" 3 1 demo_text "alpha" 3 "Gamma" demo_build).
  - simpl. right. left. reflexivity.
  - vm_compute. left. reflexivity.
  - vm_compute. left. reflexivity.
  - simpl. right. right. left. reflexivity.
  - vm_compute. intros [H|[]]. discriminate H.
  - simpl. lia.
Defined.

(** ** Documents without tokens *)

(** X12. After a build, a loaded document whose text has no token (empty,
    or only stop words, short words and non-letters) has the empty vector
    and the norm 0, no posting of the index names it, and no query ever
    returns it. *)
Theorem document_without_tokens_is_never_returned (P : pickle)
  (fs : file_system) (self : engine) (b : blob P) (doc_id : Z)
  (content : string) :
  build_index P fs init = Ok (self, b) ->
  In (doc_id, content) (documents self) ->
  preprocess_text content = [] ->
  dict_get doc_id (doc_vectors self) = Some []
  /\ dict_get doc_id (doc_lengths self) = Some 0
  /\ (forall term ps, In (term, ps) (inverted_index self) ->
                      ~ In doc_id (map fst ps))
  /\ forall query top_k hits,
       search self query top_k = Ok hits -> ~ In doc_id (map Hit.doc_id hits).
Proof.
  intros E Id Hno. pose proof (build_index_built _ _ _ _ E) as B.
  assert (Ik : In doc_id (keys (documents self)))
    by (apply (in_map fst) in Id; exact Id).
  assert (Ec : dict_get doc_id (documents self) = Some content).
  { apply In_dict_get; [apply (built_docs _ B) | exact Id]. }
  assert (Hpost : forall term ps tf, In (term, ps) (inverted_index self) ->
                                     ~ In (doc_id, tf) ps).
  { intros term ps tf It Ip.
    destruct (built_posting_has_term self term ps doc_id tf B It Ip)
      as (c & Ec' & Hin & _).
    rewrite Ec in Ec'. inversion Ec'; subst c. rewrite Hno in Hin.
    destruct Hin. }
  destruct (built_vectors _ B doc_id Ik) as (vec & Ev & El & Hnd & Hfrom).
  assert (Evec : vec = []).
  { destruct vec as [|[t w] vec]; [reflexivity|]. exfalso.
    destruct (Hfrom t w (or_introl eq_refl)) as (ps & tf & i & It & Ip & _).
    apply (Hpost t ps tf It Ip). }
  subst vec. split; [exact Ev|]. split.
  { rewrite El. f_equal. simpl. apply sqrt_0. }
  split.
  { intros term ps It I. apply in_map_iff in I.
    destruct I as [[d tf] [Ed I]]. simpl in Ed. subst d.
    apply (Hpost term ps tf It I). }
  intros query top_k hits Es I.
  destruct (search_built self query top_k B) as [hits' [Es' HF]].
  rewrite Es in Es'. inversion Es'; subst hits'. clear Es'.
  rewrite (proj1 (hits_of_ranked _ _ _ _ HF)) in I.
  apply in_map_iff in I. destruct I as [item [Ef Ii]].
  apply ranked_In in Ii. destruct Ii as (_ & Esc & Hpos). rewrite Ef in Esc.
  rewrite (document_score_Ok self _ _ doc_id [] _ Ev El) in Esc.
  assert (E0 : sqrt (sum_squares (values (@nil (string * R)))) = 0)
    by (simpl; apply sqrt_0).
  rewrite E0, (Rgtb_false 0 0) in Esc by lra. simpl andb in Esc.
  cbv iota in Esc. inversion Esc as [Eq]. rewrite <- Eq in Hpos.
  assert (Ed : forall qv, dot qv [] = 0).
  { intros qv. unfold dot. induction qv as [|[t w] qv IH]; simpl; [reflexivity|].
    rewrite IH. unfold weight_in, dict_get_default. simpl. ring. }
  rewrite Ed in Hpos. lra.
Qed.

Lemma document_without_tokens_is_never_returned_witness :
  dict_get 2%Z (doc_vectors blank_engine) = Some []
  /\ dict_get 2%Z (doc_lengths blank_engine) = Some 0
  /\ (forall term ps, In (term, ps) (inverted_index blank_engine) ->
                      ~ In 2%Z (map fst ps))
  /\ forall query top_k hits,
       search blank_engine query top_k = Ok hits ->
       ~ In 2%Z (map Hit.doc_id hits).
Proof.
  apply (document_without_tokens_is_never_returned demo_pickle blank_fs
           blank_engine (save_index demo_pickle blank_engine) 2 "It is on!"
           blank_build).
  - simpl. right. left. reflexivity.
  - vm_compute. reflexivity.
Defined.

(** ** What [top_k] does *)

Lemma Forall2_firstn {A B : Type} (M : A -> B -> Prop) n : forall l l',
  Forall2 M l l' -> Forall2 M (firstn n l) (firstn n l').
Proof.
  induction n as [|n IH]; intros l l' HF; [constructor|].
  destruct HF as [|a c l l' Ha HF]; simpl; [constructor|].
  constructor; [exact Ha | apply IH; exact HF].
Qed.

Lemma Forall2_slice_to {A B : Type} (M : A -> B -> Prop) k l l' :
  Forall2 M l l' -> Forall2 M (slice_to k l) (slice_to k l').
Proof.
  intros HF. unfold slice_to. rewrite (Forall2_length HF).
  destruct (k <? 0)%Z; apply Forall2_firstn; exact HF.
Qed.

Lemma hit_of_functional self query_terms items : forall hits hits',
  Forall2 (hit_of self query_terms) items hits ->
  Forall2 (hit_of self query_terms) items hits' ->
  hits = hits'.
Proof.
  induction items as [|item items IH]; intros hits hits' H1 H2;
    inversion H1 as [|? h ? hs Hh HF]; inversion H2 as [|? h' ? hs' Hh' HF'];
    subst; [reflexivity|].
  f_equal; [|apply IH; assumption].
  destruct Hh as (c & m & Ec & Em & ->).
  destruct Hh' as (c' & m' & Ec' & Em' & ->).
  congruence.
Qed.

(** The ranking cut at [top_k] is the slice of the ranking cut at [N]. *)
Lemma ranked_slice self query top_k :
  N self = length (documents self) ->
  ranked self query top_k
  = slice_to top_k (ranked self query (Z.of_nat (N self))).
Proof.
  intros EN. unfold ranked.
  destruct (preprocess_text query) as [|w ws];
    [symmetry; apply slice_to_nil|].
  destruct (build_query_vector (idf_values self) (w :: ws)) as [|e qv];
    [symmetry; apply slice_to_nil|].
  f_equal. symmetry. apply slice_to_all.
  rewrite (Permutation_length (sorted_desc_Permutation _)).
  pose proof (score_entries_length self (e :: qv)
                (sqrt (sum_squares (values (e :: qv))))
                (keys (documents self))) as Hl.
  unfold keys in Hl at 2. rewrite length_map in Hl. lia.
Qed.

(** X13. On a built index [top_k] only cuts the ranking: with [all] the
    results of the query for [top_k = N], the results for any [top_k] are
    the Python slice [all[:top_k]]; so a larger [top_k] extends the list
    without reordering it, [top_k = 0] gives nothing, and a negative
    [top_k] drops the last [-top_k] results instead of raising. *)
Theorem search_top_k_is_a_slice (P : pickle) (fs : file_system)
  (self : engine) (b : blob P) (query : string) :
  build_index P fs init = Ok (self, b) ->
  exists all,
    search self query (Z.of_nat (N self)) = Ok all
    /\ forall top_k, search self query top_k = Ok (slice_to top_k all).
Proof.
  intros E. apply build_index_built in E.
  destruct (search_built self query (Z.of_nat (N self)) E) as [all [Ea HFa]].
  exists all. split; [exact Ea|]. intros top_k.
  destruct (search_built self query top_k E) as [hits [Es HF]].
  rewrite Es. f_equal.
  rewrite (ranked_slice self query top_k (built_N _ E)) in HF.
  apply (hit_of_functional self (preprocess_text query)
           (slice_to top_k (ranked self query (Z.of_nat (N self))))).
  - exact HF.
  - apply Forall2_slice_to. exact HFa.
Qed.

Lemma search_top_k_is_a_slice_witness :
  exists all,
    search demo_engine "alpha" (Z.of_nat (N demo_engine)) = Ok all
    /\ forall top_k, search demo_engine "alpha" top_k = Ok (slice_to top_k all).
Proof.
  apply (search_top_k_is_a_slice demo_pickle demo_fs demo_engine
           (save_index demo_pickle demo_engine) "alpha" demo_build).
Defined.

(** ** The tokenizer *)

Lemma string_app_nil_r (s : string) : (s ++ "")%string = s.
Proof. induction s as [|c s IH]; simpl; [reflexivity | now rewrite IH]. Qed.

Lemma string_app_assoc (a b c : string) :
  ((a ++ b) ++ c)%string = (a ++ (b ++ c))%string.
Proof. induction a as [|x a IH]; simpl; [reflexivity | now rewrite IH]. Qed.

Lemma string_app_snoc (cur : string) (c : ascii) (s : string) :
  ((cur ++ String c "") ++ s)%string = (cur ++ String c s)%string.
Proof. rewrite string_app_assoc. reflexivity. Qed.

Lemma all_az_app a b : all_az (a ++ b) = all_az a && all_az b.
Proof.
  induction a as [|c a IH]; simpl; [reflexivity|].
  rewrite IH. apply andb_assoc.
Qed.

Lemma is_empty_false s : is_empty s = false -> s <> "".
Proof. destruct s; [discriminate | intros _; discriminate]. Qed.

(** Every run [findall_az] returns is a non-empty string of letters. *)
Lemma findall_az_tokens s : forall cur w,
  all_az cur = true -> In w (findall_az cur s) ->
  all_az w = true /\ w <> "".
Proof.
  induction s as [|c s IH]; intros cur w Hc I; simpl in I.
  - destruct (is_empty cur) eqn:Ee; [destruct I|].
    destruct I as [<-|[]]. split; [exact Hc | apply is_empty_false; exact Ee].
  - destruct (is_az c) eqn:Ec.
    + apply (IH (cur ++ String c "")%string w); [|exact I].
      rewrite all_az_app. simpl. rewrite Hc, Ec. reflexivity.
    + apply in_app_or in I. destruct I as [I|I].
      * destruct (is_empty cur) eqn:Ee; [destruct I|].
        destruct I as [<-|[]].
        split; [exact Hc | apply is_empty_false; exact Ee].
      * apply (IH "" w eq_refl I).
Qed.

(** Every run is a piece of the text read. *)
Lemma findall_az_sub s : forall cur w,
  In w (findall_az cur s) ->
  exists pre post, (cur ++ s)%string = (pre ++ w ++ post)%string.
Proof.
  induction s as [|c s IH]; intros cur w I; simpl in I.
  - destruct (is_empty cur); [destruct I|]. destruct I as [<-|[]].
    exists "", "". reflexivity.
  - destruct (is_az c).
    + destruct (IH _ _ I) as (pre & post & E). exists pre, post.
      rewrite <- E. symmetry. apply string_app_snoc.
    + apply in_app_or in I. destruct I as [I|I].
      * destruct (is_empty cur); [destruct I|]. destruct I as [<-|[]].
        exists "", (String c s). reflexivity.
      * destruct (IH _ _ I) as (pre & post & E). simpl in E.
        exists (cur ++ String c pre)%string, post.
        rewrite E, string_app_assoc. reflexivity.
Qed.

Lemma prefix_app w r : prefix w (w ++ r) = true.
Proof.
  induction w as [|c w IH]; simpl; [destruct r; reflexivity|].
  destruct (ascii_dec c c); [exact IH | congruence].
Qed.

Lemma contains_unfold needle hay :
  contains needle hay
  = prefix needle hay
    || match hay with
       | EmptyString => false
       | String _ hay' => contains needle hay'
       end.
Proof. destruct hay; reflexivity. Qed.

Lemma contains_app pre w post : contains w (pre ++ w ++ post) = true.
Proof.
  induction pre as [|c pre IH].
  - simpl append. rewrite contains_unfold, prefix_app. reflexivity.
  - simpl append. rewrite contains_unfold, IH. apply orb_true_r.
Qed.

Lemma in_list_In w l : in_list w l = true <-> In w l.
Proof.
  unfold in_list. rewrite existsb_exists. split.
  - intros [x [I E]]. apply String.eqb_eq in E. subst. exact I.
  - intros I. exists w. split; [exact I | apply String.eqb_refl].
Qed.

(** X14. Every token [preprocess_text] returns is a word of three or more
    letters [a] to [z] that is not a stop word, and it occurs as a
    substring of the lower-cased text. *)
Theorem tokens_are_lowercase_words (text w : string) :
  In w (preprocess_text text) ->
  all_az w = true
  /\ (3 <= String.length w)%nat
  /\ ~ In w stopwords
  /\ contains w (lower text) = true.
Proof.
  unfold preprocess_text. intros I. apply filter_In in I.
  destruct I as [I Hf]. apply andb_true_iff in Hf. destruct Hf as [Hs Hl].
  split; [apply (findall_az_tokens (lower text) "" w eq_refl I)|].
  split; [apply Nat.ltb_lt in Hl; lia|].
  split.
  - intros Hin. apply in_list_In in Hin. rewrite Hin in Hs. discriminate.
  - destruct (findall_az_sub _ _ _ I) as (pre & post & E). simpl in E.
    rewrite E. apply contains_app.
Qed.

Lemma tokens_are_lowercase_words_witness :
  all_az "alpha" = true
  /\ (3 <= String.length "alpha")%nat
  /\ ~ In "alpha" stopwords
  /\ contains "alpha" (lower "The ALPHA, the beta!") = true.
Proof.
  apply (tokens_are_lowercase_words "The ALPHA, the beta!" "alpha").
  vm_compute. left. reflexivity.
Defined.

Lemma lower_char_idem c : lower_char (lower_char c) = lower_char c.
Proof. destruct c as [[] [] [] [] [] [] [] []]; reflexivity. Qed.

Lemma lower_lower s : lower (lower s) = lower s.
Proof.
  induction s as [|c s IH]; simpl; [reflexivity|].
  rewrite lower_char_idem, IH. reflexivity.
Qed.

Lemma lower_char_az c : is_az c = true -> lower_char c = c.
Proof.
  destruct c as [[] [] [] [] [] [] [] []]; intros H;
    first [reflexivity | discriminate H].
Qed.

Lemma lower_all_az w : all_az w = true -> lower w = w.
Proof.
  induction w as [|c w IH]; simpl; intros H; [reflexivity|].
  apply andb_true_iff in H. destruct H as [Hc Hw].
  rewrite (lower_char_az c Hc), (IH Hw). reflexivity.
Qed.

Lemma lower_app a b : lower (a ++ b) = (lower a ++ lower b)%string.
Proof. induction a as [|c a IH]; simpl; [reflexivity | now rewrite IH]. Qed.

Lemma join_cons sep w w' l :
  join sep (w :: w' :: l) = (w ++ sep ++ join sep (w' :: l))%string.
Proof. reflexivity. Qed.

Lemma lower_join_tokens l :
  Forall (fun w => all_az w = true /\ w <> "") l ->
  lower (join " " l) = join " " l.
Proof.
  induction 1 as [|w l [Hw _] HF IH]; [reflexivity|].
  destruct l as [|w' l]; [simpl; apply lower_all_az; exact Hw|].
  rewrite join_cons, !lower_app, IH, (lower_all_az w Hw). reflexivity.
Qed.

(** A run of letters at the head of the text extends the run being read. *)
Lemma findall_az_run w : forall cur s,
  all_az w = true ->
  findall_az cur (w ++ s) = findall_az (cur ++ w)%string s.
Proof.
  induction w as [|c w IH]; intros cur s H; simpl.
  - rewrite string_app_nil_r. reflexivity.
  - simpl in H. apply andb_true_iff in H. destruct H as [Hc Hw].
    rewrite Hc, (IH _ _ Hw), string_app_snoc. reflexivity.
Qed.

Lemma findall_az_blank cur s :
  findall_az cur (String " " s)
  = (if is_empty cur then [] else [cur]) ++ findall_az "" s.
Proof. reflexivity. Qed.

(** Words joined with blanks are read back as the same words. *)
Lemma findall_az_join l :
  Forall (fun w => all_az w = true /\ w <> "") l ->
  findall_az "" (join " " l) = l.
Proof.
  induction 1 as [|w l [Hw Hne] HF IH]; [reflexivity|].
  assert (He : is_empty w = false) by (destruct w; [congruence | reflexivity]).
  destruct l as [|w' l].
  - simpl join. rewrite <- (string_app_nil_r w) at 1.
    rewrite (findall_az_run w "" "" Hw). simpl. rewrite He. reflexivity.
  - rewrite join_cons, (findall_az_run w "" _ Hw).
    change ("" ++ w)%string with w.
    change (" " ++ join " " (w' :: l))%string
      with (String " " (join " " (w' :: l))).
    rewrite findall_az_blank, He, IH. reflexivity.
Qed.

Lemma filter_idem {A : Type} (f : A -> bool) l :
  filter f (filter f l) = filter f l.
Proof.
  induction l as [|a l IH]; simpl; [reflexivity|].
  destruct (f a) eqn:E; simpl; [rewrite E, IH; reflexivity | exact IH].
Qed.

Lemma preprocess_text_tokens text :
  Forall (fun w => all_az w = true /\ w <> "") (preprocess_text text).
Proof.
  apply Forall_forall. intros w I. unfold preprocess_text in I.
  apply filter_In in I. destruct I as [I _].
  apply (findall_az_tokens (lower text) "" w eq_refl I).
Qed.

(** X15. Only the tokens of a query matter.  Lower-casing a text, or
    replacing it by its tokens joined with blanks, leaves its tokens
    unchanged; so [search] returns the same for a query, for the
    lower-cased query and for the query rebuilt from its tokens (stop
    words, short words, digits and punctuation dropped), on every engine
    state and for every [top_k]. *)
Theorem search_sees_only_the_query_tokens (query : string) :
  preprocess_text (lower query) = preprocess_text query
  /\ preprocess_text (join " " (preprocess_text query)) = preprocess_text query
  /\ forall self top_k,
       search self (lower query) top_k = search self query top_k
       /\ search self (join " " (preprocess_text query)) top_k
          = search self query top_k.
Proof.
  assert (E1 : preprocess_text (lower query) = preprocess_text query).
  { unfold preprocess_text. rewrite lower_lower. reflexivity. }
  assert (E2 : preprocess_text (join " " (preprocess_text query))
               = preprocess_text query).
  { pose proof (preprocess_text_tokens query) as HF.
    unfold preprocess_text at 1.
    rewrite (lower_join_tokens _ HF), (findall_az_join _ HF).
    unfold preprocess_text. apply filter_idem. }
  split; [exact E1|]. split; [exact E2|].
  intros self top_k. unfold search. rewrite E1, E2. split; reflexivity.
Qed.

(** ** Summaries of the results *)

Lemma az_not_terminator c :
  is_az (lower_char c) = true -> is_terminator c = false.
Proof.
  destruct c as [[] [] [] [] [] [] [] []]; intros H;
    first [reflexivity | discriminate H].
Qed.

(** Some piece [re_split] returns extends the piece being read. *)
Lemma re_split_head s : forall cur,
  exists r, In (cur ++ r)%string (re_split cur s).
Proof.
  induction s as [|c s IH]; intros cur; simpl.
  - exists "". left. symmetry. apply string_app_nil_r.
  - destruct (is_terminator c).
    + exists "". left. symmetry. apply string_app_nil_r.
    + destruct (IH (cur ++ String c "")%string) as [r I].
      exists (String c r). rewrite <- string_app_snoc. exact I.
Qed.

Lemma contains_suffix p w : contains w (p ++ w) = true.
Proof.
  rewrite <- (string_app_nil_r (p ++ w)), string_app_assoc.
  apply contains_app.
Qed.

(** A token of the text lies within one of its sentences: runs of letters
    hold no terminator. *)
Lemma token_in_sentence s : forall cur_tok cur_sent p w,
  lower cur_sent = (p ++ cur_tok)%string ->
  In w (findall_az cur_tok (lower s)) ->
  exists sentence,
    In sentence (re_split cur_sent s) /\ contains w (lower sentence) = true.
Proof.
  induction s as [|c s IH]; intros cur_tok cur_sent p w Hp I; simpl in I.
  - destruct (is_empty cur_tok); [destruct I|]. destruct I as [<-|[]].
    exists cur_sent. split; [left; reflexivity|].
    rewrite Hp. apply contains_suffix.
  - simpl re_split. destruct (is_az (lower_char c)) eqn:Ec.
    + rewrite (az_not_terminator c Ec).
      apply (IH (cur_tok ++ String (lower_char c) "")%string
                (cur_sent ++ String c "")%string p w); [|exact I].
      rewrite lower_app, Hp, string_app_assoc. reflexivity.
    + apply in_app_or in I. destruct I as [I|I].
      * destruct (is_empty cur_tok); [destruct I|]. destruct I as [<-|[]].
        destruct (is_terminator c).
        -- exists cur_sent. split; [left; reflexivity|].
           rewrite Hp. apply contains_suffix.
        -- destruct (re_split_head s (cur_sent ++ String c "")%string)
             as [r Ir].
           exists ((cur_sent ++ String c "") ++ r)%string.
           split; [exact Ir|].
           rewrite string_app_assoc, lower_app, Hp, string_app_assoc.
           apply contains_app.
      * destruct (is_terminator c).
        -- destruct (IH "" "" "" w eq_refl I) as [sentence [Is Hc]].
           exists sentence. split; [right; exact Is | exact Hc].
        -- apply (IH "" (cur_sent ++ String c "")%string
                     (lower (cur_sent ++ String c "")) w); [|exact I].
           symmetry. apply string_app_nil_r.
Qed.

(** A document that has a token of the query gets a summary. *)
Lemma summarize_shared_term query_terms content term :
  In term query_terms -> In term (preprocess_text content) ->
  exists body, summarize query_terms content = (body ++ ".")%string.
Proof.
  intros Iq It. unfold preprocess_text in It. apply filter_In in It.
  destruct It as [It _].
  destruct (token_in_sentence content "" "" "" term eq_refl It)
    as [sentence [Is Hc]].
  rewrite summarize_spec. unfold snippet_spec.
  destruct (filter _ (re_split "" content)) as [|m ms] eqn:Ef.
  - exfalso.
    assert (I : In sentence
                   (filter (fun sentence =>
                              existsb (fun term => contains term (lower sentence))
                                      query_terms)
                           (re_split "" content))).
    { apply filter_In. split; [exact Is|]. apply existsb_exists.
      exists term. split; [exact Iq | exact Hc]. }
    rewrite Ef in I. destruct I.
  - eexists. reflexivity.
Qed.

(** X16. On a built index every result carries a summary: the summary is
    never empty and ends with a period, because the token the document
    shares with the query lies within one of its sentences. *)
Theorem search_results_have_a_summary (P : pickle) (fs : file_system)
  (self : engine) (b : blob P) (query : string) (top_k : Z)
  (hits : list Hit.t) (h : Hit.t) :
  build_index P fs init = Ok (self, b) ->
  search self query top_k = Ok hits ->
  In h hits ->
  exists body, Hit.summary h = (body ++ ".")%string.
Proof.
  intros E Es Ih. apply build_index_built in E.
  destruct (search_built self query top_k E) as [hits' [Es' HF]].
  rewrite Es in Es'. inversion Es'; subst hits'. clear Es'.
  destruct (Forall2_In_r _ _ _ _ HF Ih) as [item [Ii (c & m & Ec & _ & ->)]].
  simpl.
  destruct (ranked_shares_a_term self query top_k item E Ii)
    as (term & content & Iq & Ec' & It).
  rewrite Ec in Ec'. inversion Ec'; subst content.
  apply (summarize_shared_term _ _ term Iq It).
Qed.

Lemma search_results_have_a_summary_witness :
  exists body,
    Hit.summary (Hit.mk 2 demo_score (Some "Second") "Alpha. Alpha." (Some "u2") (Some "d2"))
    = (body ++ ".")%string.
Proof.
  apply (search_results_have_a_summary demo_pickle demo_fs demo_engine
           (save_index demo_pickle demo_engine) "alpha" 10 demo_hits
           (Hit.mk 2 demo_score (Some "Second") "Alpha. Alpha." (Some "u2") (Some "d2"))
           demo_build demo_search).
  left. reflexivity.
Defined.

(** ** The table and the files *)

Lemma keys_dict_set {K V : Type} `{EqDec K} (k : K) (v : V) (d : dict K V) :
  keys (dict_set k v d) = if in_dec eq_dec k (keys d) then keys d
                          else keys d ++ [k].
Proof.
  destruct (in_dec eq_dec k (keys d)) as [I|Hni].
  - induction d as [|[k' v'] d IH]; [destruct I|]. simpl.
    destruct (eq_dec k k') as [->|Hne]; [reflexivity|]. simpl. f_equal.
    apply IH. destruct I as [E|I]; [simpl in E; congruence | exact I].
  - rewrite (dict_set_absent _ _ _ Hni). unfold keys. rewrite map_app.
    reflexivity.
Qed.

Lemma dict_get_app {K V : Type} `{EqDec K} (k : K) (a c : dict K V) :
  dict_get k (a ++ c)
  = match dict_get k a with
    | Some v => Some v
    | None => dict_get k c
    end.
Proof.
  induction a as [|[k' v'] a IH]; simpl; [reflexivity|].
  destruct (eq_dec k k'); [reflexivity | exact IH].
Qed.

(** Entries written one after the other: the keys come in the order they
    are first seen, and a later entry replaces an earlier one. *)
Lemma fold_dict_set_keys (entries : dict Z Meta.t) : forall acc,
  keys (fold_left (fun md e => dict_set (fst e) (snd e) md) entries acc)
  = fold_left (fun seen x => if in_dec Z.eq_dec x seen then seen
                             else seen ++ [x])
              (keys entries) (keys acc).
Proof.
  induction entries as [|[k v] entries IH]; intros acc; simpl; [reflexivity|].
  rewrite IH, keys_dict_set.
  destruct (in_dec eq_dec k (keys acc)), (in_dec Z.eq_dec k (keys acc));
    try reflexivity; contradiction.
Qed.

Lemma fold_dict_set_get (entries : dict Z Meta.t) : forall acc d,
  dict_get d (fold_left (fun md e => dict_set (fst e) (snd e) md) entries acc)
  = match dict_get d (rev entries) with
    | Some m => Some m
    | None => dict_get d acc
    end.
Proof.
  induction entries as [|[k v] entries IH]; intros acc d; simpl;
    [reflexivity|].
  rewrite IH, dict_get_app.
  destruct (dict_get d (rev entries)) as [m|]; [reflexivity|]. simpl.
  destruct (eq_dec d k) as [->|Hne].
  - apply dict_get_set_same.
  - apply dict_get_set_other. congruence.
Qed.

(** A table that loads has ids that all parse, and is written entry by
    entry. *)
Lemma load_rows_fold rows : forall md0 md,
  foldM load_row rows md0 = Ok md ->
  Forall (fun row => parsed_id row <> None) rows
  /\ md = fold_left (fun md e => dict_set (fst e) (snd e) md)
                    (row_entries rows) md0.
Proof.
  induction rows as [|row rows IH]; intros md0 md E; simpl in E.
  - inversion E; subst. split; [constructor | reflexivity].
  - destruct (load_row md0 row) as [md1|] eqn:E1; simpl in E; [|discriminate].
    apply load_row_Ok in E1. destruct E1 as (doc_id & meta & Epi & Emeta & ->).
    destruct (IH _ _ E) as [Hall ->]. split.
    + constructor; [congruence | exact Hall].
    + unfold row_entries. cbn [flat_map]. rewrite Epi, Emeta. reflexivity.
Qed.

(** The files are read in the order of the table of metadata, one per
    entry. *)
Lemma load_contents_exact fs items : forall docs0 docs,
  NoDup (keys items) ->
  (forall d, In d (keys items) -> ~ In d (keys docs0)) ->
  foldM (load_content fs) items docs0 = Ok docs ->
  exists tail,
    docs = docs0 ++ tail
    /\ Forall2 (fun item e =>
                  fst e = fst item
                  /\ named_file fs (snd item) = Some (snd e))
               items tail.
Proof.
  induction items as [|item items IH]; intros docs0 docs Hnd Hfresh E;
    simpl in E.
  - inversion E; subst. exists []. split; [now rewrite app_nil_r | constructor].
  - destruct (load_content fs docs0 item) as [docs1|] eqn:E1; simpl in E;
      [|discriminate].
    apply load_content_Ok in E1. destruct E1 as (content & Ea & ->).
    simpl in Hnd. inversion Hnd as [|? ? Hni Hnd']; subst.
    rewrite dict_set_absent in E by (apply Hfresh; left; reflexivity).
    assert (Hfresh' : forall d, In d (keys items) ->
                                ~ In d (keys (docs0 ++ [(fst item, content)]))).
    { intros d I. unfold keys. rewrite map_app, in_app_iff. simpl.
      intros [I'|[<-|[]]].
      - apply (Hfresh d); [right; exact I | exact I'].
      - contradiction. }
    destruct (IH _ _ Hnd' Hfresh' E) as (tail & -> & HF).
    exists ((fst item, content) :: tail). split.
    + rewrite <- app_assoc. reflexivity.
    + constructor; [split; [reflexivity | exact Ea] | exact HF].
Qed.

Lemma Forall2_keys (fs : file_system) (items : dict Z Meta.t)
  (tail : dict Z string) :
  Forall2 (fun item e =>
             fst e = fst item
             /\ named_file fs (snd item) = Some (snd e))
          items tail ->
  keys tail = keys items
  /\ forall d m, In (d, m) items ->
                 exists content,
                   named_file fs m = Some content
                   /\ In (d, content) tail.
Proof.
  induction 1 as [|item e items tail [Hk Ha] HF [IHk IHi]].
  - split; [reflexivity | intros d m []].
  - split; [simpl; congruence|].
    intros d m [->|I].
    + exists (snd e). split; [exact Ha|]. left. destruct e. simpl in *.
      congruence.
    + destruct (IHi d m I) as (c & Hc & Ic). exists c. split; [exact Hc|].
      right. exact Ic.
Qed.

(** X17. What a returning [load_documents] has read, on an engine that
    holds no document yet (a fresh one, or one that only loaded an index):
    every row of the table has an id that parses; the documents are the ids
    of the table in the order they are first seen, so [N] counts the
    distinct ids; when an id is repeated the last of its rows gives the
    metadata, and only the file named by that row is read: each document
    holds the text of the file its metadata names. *)
Theorem load_documents_last_row_wins (fs : file_system) (self0 self : engine) :
  metadata self0 = [] -> documents self0 = [] ->
  load_documents fs self0 = Ok self ->
  exists rows,
    metadata_file fs = Some rows
    /\ Forall (fun row => parsed_id row <> None) rows
    /\ keys (metadata self) = first_seen (keys (row_entries rows))
    /\ keys (documents self) = keys (metadata self)
    /\ N self = length (first_seen (keys (row_entries rows)))
    /\ (forall d, dict_get d (metadata self)
                  = dict_get d (rev (row_entries rows)))
    /\ (forall d m, dict_get d (metadata self) = Some m ->
                    exists content,
                      named_file fs m = Some content
                      /\ dict_get d (documents self) = Some content).
Proof.
  intros Em0 Ed0 E. apply load_documents_Ok in E.
  destruct E as (rows & Ef & Em & Ed & EN & _).
  rewrite Em0 in Em. rewrite Ed0 in Ed.
  exists rows. split; [exact Ef|].
  destruct (load_rows_fold rows [] _ Em) as [Hall Emd].
  split; [exact Hall|].
  assert (Hk : keys (metadata self) = first_seen (keys (row_entries rows))).
  { rewrite Emd. apply (fold_dict_set_keys (row_entries rows) []). }
  assert (Hnd : NoDup (keys (metadata self))).
  { rewrite Emd. apply (fold_left_invariant (fun md => NoDup (keys md))).
    - intros md e _ Hmd. apply NoDup_keys_dict_set. exact Hmd.
    - constructor. }
  destruct (load_contents_exact fs (metadata self) [] (documents self) Hnd
              ltac:(intros d _ []) Ed) as (tail & Et & HF).
  simpl in Et. subst tail. apply Forall2_keys in HF. destruct HF as [HFk HFi].
  split; [exact Hk|]. split; [exact HFk|]. split.
  { rewrite EN, <- Hk, <- HFk. unfold keys. rewrite length_map. reflexivity. }
  split.
  { intros d. rewrite Emd, fold_dict_set_get.
    destruct (dict_get d (rev (row_entries rows))); reflexivity. }
  intros d m Eg. apply dict_get_Some_In in Eg.
  destruct (HFi d m Eg) as (c & Hc & Ic). exists c. split; [exact Hc|].
  apply In_dict_get; [rewrite HFk; exact Hnd | exact Ic].
Qed.

Lemma load_documents_last_row_wins_witness :
  exists rows,
    metadata_file dup_fs = Some rows
    /\ Forall (fun row => parsed_id row <> None) rows
    /\ keys (metadata dup_loaded) = first_seen (keys (row_entries rows))
    /\ keys (documents dup_loaded) = keys (metadata dup_loaded)
    /\ N dup_loaded = length (first_seen (keys (row_entries rows)))
    /\ (forall d, dict_get d (metadata dup_loaded)
                  = dict_get d (rev (row_entries rows)))
    /\ (forall d m, dict_get d (metadata dup_loaded) = Some m ->
                    exists content,
                      named_file dup_fs m = Some content
                      /\ dict_get d (documents dup_loaded) = Some content).
Proof.
  apply (load_documents_last_row_wins dup_fs init dup_loaded).
  - reflexivity.
  - reflexivity.
  - vm_compute. reflexivity.
Defined.

(** ** When a build fails *)

(** X18. On a fresh engine [build_index] raises only what [load_documents]
    raises, and raises it before anything is saved; once the documents are
    loaded the build returns: no division by zero, no logarithm of zero and
    no missing key, also for an empty table.  The engine built holds the
    documents and the metadata that were loaded, and the contents saved are
    its index. *)
Theorem build_index_fails_only_in_load (P : pickle) (fs : file_system) :
  match load_documents fs init with
  | Ok loaded =>
      exists self,
        build_index P fs init = Ok (self, save_index P self)
        /\ documents self = documents loaded
        /\ metadata self = metadata loaded
        /\ N self = length (documents loaded)
  | Err e => build_index P fs init = Err e
  end.
Proof.
  destruct (load_documents fs init) as [loaded|e] eqn:El.
  - destruct (build_after_fresh_load P fs loaded El) as [self E].
    exists self. split; [exact E|].
    pose proof (build_index_built _ _ _ _ E) as B.
    apply build_index_Ok in E. destruct E as (e1 & e2 & E1 & E2 & E3 & _).
    rewrite El in E1. inversion E1; subst e1.
    apply build_inverted_index_Ok in E2.
    destruct E2 as (_ & _ & Hd2 & Hm2 & _).
    apply compute_document_vectors_Ok in E3.
    destruct E3 as (_ & Hd3 & Hm3 & _).
    assert (Hd : documents self = documents loaded) by congruence.
    split; [exact Hd|]. split; [congruence|].
    rewrite (built_N _ B), Hd. reflexivity.
  - unfold build_index. rewrite El. reflexivity.
Qed.


(** ** Sessions *)

(** X20. A session on a built index never ends with an exception: it ends
    when a line reads [quit] (in any case, blanks around it ignored), else
    at the end of the input.  The searches made are, in order, the lines
    before that one, stripped, the blank ones left out, each with what
    [search] returns for it with [top_k = 10]; the lines after [quit] are
    not read. *)
Theorem interactive_search_on_built_index (P : pickle) (fs : file_system)
  (self : engine) (b : blob P) (inputs : list string) :
  build_index P fs init = Ok (self, b) ->
  exists searches,
    interactive_search self inputs
    = (searches, if existsb is_quit inputs then Quit else EndOfInput)
    /\ map fst searches
       = filter (fun query => negb (is_empty query))
                (map strip (take_until is_quit inputs))
    /\ Forall (fun s => search self (fst s) 10 = Ok (snd s)) searches.
Proof.
  intros E. apply build_index_built in E.
  induction inputs as [|line rest (searches & Ei & Eq & HF)].
  - exists []. repeat split; constructor.
  - simpl. unfold is_quit at 1 3.
    destruct (String.eqb (lower (strip line)) "quit").
    + exists []. repeat split; constructor.
    + simpl. destruct (is_empty (strip line)) eqn:Ee; simpl.
      * exists searches. auto.
      * destruct (search_built self (strip line) 10 E) as [hits [Es _]].
        rewrite Es, Ei. exists ((strip line, hits) :: searches).
        split; [reflexivity|]. split; [simpl; congruence|].
        constructor; [exact Es | exact HF].
Qed.

Lemma interactive_search_on_built_index_witness :
  exists searches,
    interactive_search demo_engine ["  Alpha "; " "; "QUIT "; "gamma"]
    = (searches,
       if existsb is_quit ["  Alpha "; " "; "QUIT "; "gamma"]
       then Quit else EndOfInput)
    /\ map fst searches
       = filter (fun query => negb (is_empty query))
                (map strip
                     (take_until is_quit ["  Alpha "; " "; "QUIT "; "gamma"]))
    /\ Forall (fun s => search demo_engine (fst s) 10 = Ok (snd s)) searches.
Proof.
  apply (interactive_search_on_built_index demo_pickle demo_fs demo_engine
           (save_index demo_pickle demo_engine) _ demo_build).
Defined.

(** After a build, loading the saved index into a fresh engine and then the
    documents gives the engine built. *)
Lemma load_documents_after_load_index (P : pickle) (fs : file_system)
  (self : engine) (b : blob P) :
  pickle_faithful P ->
  build_index P fs init = Ok (self, b) ->
  (loaded <- load_index P (Some b) init ;; load_documents fs loaded) = Ok self.
Proof.
  intros HP E. pose proof (build_index_built _ _ _ _ E) as B.
  apply build_index_Ok in E. destruct E as (e1 & e2 & E1 & E2 & E3 & ->).
  rewrite (load_save_index P self init HP). simpl bind.
  apply load_documents_Ok in E1.
  destruct E1 as (rows & Er & Em & Ed & HN & _).
  apply build_inverted_index_Ok in E2.
  destruct E2 as (_ & _ & Hd2 & Hm2 & HN2 & _).
  apply compute_document_vectors_Ok in E3.
  destruct E3 as (_ & Hd3 & Hm3 & HN3 & _).
  unfold load_documents. rewrite Er. simpl in *.
  rewrite Em. simpl. rewrite Ed. simpl.
  rewrite <- Hd2, <- Hd3, <- Hm2, <- Hm3.
  rewrite <- (built_N _ B). destruct self. reflexivity.
Qed.

(** X21. The runs of [main] over a corpus that builds, [pickle] giving back
    what it wrote: without an index file [main] builds the index, saves it
    and searches on the engine built; run again with that file it searches
    on the same engine and leaves the file as it is, whatever the answer to
    the question whether to rebuild. *)
Theorem main_searches_on_the_built_engine (P : pickle) (fs : file_system)
  (self : engine) (b : blob P) (inputs : list string) :
  pickle_faithful P ->
  build_index P fs init = Ok (self, b) ->
  main P fs None inputs = (interactive_search self inputs, Some b)
  /\ forall answer,
       main P fs (Some b) (answer :: inputs)
       = (interactive_search self inputs, Some b).
Proof.
  intros HP E. split.
  - unfold main. rewrite E. reflexivity.
  - intros answer. unfold main.
    destruct (String.eqb (lower (strip answer)) "y").
    + rewrite E. reflexivity.
    + rewrite (load_documents_after_load_index P fs self b HP E). reflexivity.
Qed.

Lemma main_searches_on_the_built_engine_witness :
  main demo_pickle demo_fs None ["alpha"; "quit"]
  = (interactive_search demo_engine ["alpha"; "quit"],
     Some (save_index demo_pickle demo_engine))
  /\ forall answer,
       main demo_pickle demo_fs (Some (save_index demo_pickle demo_engine))
            (answer :: ["alpha"; "quit"])
       = (interactive_search demo_engine ["alpha"; "quit"],
          Some (save_index demo_pickle demo_engine)).
Proof.
  apply (main_searches_on_the_built_engine demo_pickle demo_fs demo_engine
           (save_index demo_pickle demo_engine) ["alpha"; "quit"]
           demo_pickle_faithful demo_build).
Defined.

(** * A second build on the same engine *)

Lemma solo_rebuild :
  build_index demo_pickle solo_fs solo_engine
  = Ok (solo_twice, save_index demo_pickle solo_twice).
Proof.
  unfold build_index.
  assert (El : load_documents solo_fs solo_engine = Ok solo_engine)
    by reflexivity.
  rewrite El. cbn [bind]. unfold build_inverted_index.
  assert (Ei : fold_left index_document (documents solo_engine)
                         (inverted_index solo_engine)
               = [("alpha", [(7%Z, INR 1 / INR 1); (7%Z, INR 1 / INR 1)])])
    by (cbv -[INR Rdiv]; reflexivity).
  rewrite Ei. cbn [foldM N solo_engine idf_values].
  rewrite set_idf_total by (try discriminate; lia). cbn [bind length].
  unfold compute_document_vectors.
  cbn [documents solo_engine solo_loaded keys map fst foldM].
  unfold document_vector.
  cbv -[vector_length INR Rdiv Rmult ln sqrt sum_squares solo_twice
        save_index].
  rewrite !vector_length_Ok. reflexivity.
Qed.

Lemma ln_half_neg : ln (INR 1 / INR 2) < 0.
Proof.
  rewrite <- ln_1. apply ln_increasing; rewrite !INR_IZR_INZ; simpl; lra.
Qed.

Lemma solo_twice_weight_neg : solo_twice_weight < 0.
Proof.
  unfold solo_twice_weight. pose proof ln_half_neg.
  replace (INR 1 / INR 1) with 1 by (rewrite !INR_IZR_INZ; simpl; lra). lra.
Qed.

Lemma solo_twice_norm_pos : sqrt (sum_squares [solo_twice_weight]) > 0.
Proof.
  apply sqrt_lt_R0. apply (sum_squares_pos _ solo_twice_weight).
  - left. reflexivity.
  - pose proof solo_twice_weight_neg. lra.
Qed.

Lemma solo_twice_score_pos : solo_twice_score > 0.
Proof.
  unfold solo_twice_score. pose proof solo_twice_weight_neg.
  pose proof solo_twice_norm_pos.
  replace (dot [("alpha", solo_twice_weight)] [("alpha", solo_twice_weight)])
    with (solo_twice_weight * solo_twice_weight)
    by (cbv -[Rmult Rplus solo_twice_weight IZR]; ring).
  apply Rdiv_lt_0_compat.
  - rewrite Rplus_0_l. nra.
  - apply Rmult_lt_0_compat; assumption.
Qed.

(** After the second build the query [alpha] finds the only document,
    though [alpha] is in every document. *)
Lemma solo_twice_search :
  search solo_twice "alpha" 10
  = Ok [Hit.mk 7 solo_twice_score (Some "Only") "Alpha." (Some "u7")
               (Some "d7")].
Proof.
  unfold search.
  assert (Eq : preprocess_text "alpha" = ["alpha"]) by (vm_compute; reflexivity).
  rewrite Eq.
  assert (Ev : build_query_vector (idf_values solo_twice) ["alpha"]
               = [("alpha", solo_twice_weight)])
    by (cbv -[INR Rdiv Rmult ln]; reflexivity).
  rewrite Ev. rewrite vector_length_Ok. cbn [bind].
  change (values [("alpha", solo_twice_weight)]) with [solo_twice_weight].
  cbn [foldM keys map documents solo_twice solo_loaded fst].
  unfold add_score.
  rewrite (document_score_Ok solo_twice _ _ 7 [("alpha", solo_twice_weight)]
             (sqrt (sum_squares [solo_twice_weight])) eq_refl eq_refl).
  rewrite (Rgtb_true _ _ solo_twice_norm_pos).
  cbn [andb bind]. fold solo_twice_score.
  rewrite (Rgtb_true _ _ solo_twice_score_pos).
  reflexivity.
Qed.

(** C3, the claim as worded, fails: a second [build_index] on the engine
    built from the one-document corpus returns with two postings for
    [alpha] and [N = 1]; [idf(alpha)] is [ln (1/2)], which is negative,
    though [alpha] occurs in every loaded document. *)
Lemma idf_negative_after_rebuild :
  build_index demo_pickle solo_fs init
  = Ok (solo_engine, save_index demo_pickle solo_engine)
  /\ build_index demo_pickle solo_fs solo_engine
     = Ok (solo_twice, save_index demo_pickle solo_twice)
  /\ N solo_twice = 1%nat
  /\ length (postings_of (inverted_index solo_twice) "alpha") = 2%nat
  /\ dict_get "alpha" (idf_values solo_twice) = Some (ln (INR 1 / INR 2))
  /\ ln (INR 1 / INR 2) < 0
  /\ forall doc_id content,
       In (doc_id, content) (documents solo_twice) ->
       In "alpha" (preprocess_text content).
Proof.
  split; [exact solo_build|]. split; [exact solo_rebuild|].
  split; [reflexivity|]. split; [reflexivity|]. split; [reflexivity|].
  split; [exact ln_half_neg|].
  intros d c [E|[]]. inversion E; subst. vm_compute. left. reflexivity.
Qed.

(** C10, the claim as worded, fails: after a second [build_index] on the
    engine built from the one-document corpus, the query [alpha] has its
    only token in the vocabulary and in every document, yet its weight is
    not 0 and [search] returns the document. *)
Lemma search_after_rebuild_finds_the_document :
  build_index demo_pickle solo_fs init
  = Ok (solo_engine, save_index demo_pickle solo_engine)
  /\ build_index demo_pickle solo_fs solo_engine
     = Ok (solo_twice, save_index demo_pickle solo_twice)
  /\ preprocess_text "alpha" = ["alpha"]
  /\ In "alpha" (keys (idf_values solo_twice))
  /\ (forall doc_id content,
         In (doc_id, content) (documents solo_twice) ->
         In "alpha" (preprocess_text content))
  /\ build_query_vector (idf_values solo_twice) (preprocess_text "alpha")
     = [("alpha", solo_twice_weight)]
  /\ solo_twice_weight <> 0
  /\ search solo_twice "alpha" 10
     = Ok [Hit.mk 7 solo_twice_score (Some "Only") "Alpha." (Some "u7")
                  (Some "d7")].
Proof.
  split; [exact solo_build|]. split; [exact solo_rebuild|].
  split; [vm_compute; reflexivity|].
  split; [simpl; left; reflexivity|].
  split.
  { intros d c [E|[]]. inversion E; subst. vm_compute. left. reflexivity. }
  split.
  { assert (Eq : preprocess_text "alpha" = ["alpha"])
      by (vm_compute; reflexivity).
    rewrite Eq. cbv -[INR Rdiv Rmult ln]. reflexivity. }
  split; [pose proof solo_twice_weight_neg; lra|].
  exact solo_twice_search.
Qed.

(** * The numbers as the interpreter stores them *)

(** C8, the claim as worded, fails.  As stored, the frequencies are
    binary64 numbers: for a document of seven distinct words each is the
    rounded quotient [1/7], and the seven add up to [0.9999999999999998],
    two floats below 1, in the arithmetic of the interpreter; nor is their
    sum 1 when they are added as fractions without rounding.  And after a
    second [build_index] on the same engine every posting is there twice:
    the frequencies of the document of the one-document corpus sum to 2. *)
Lemma stored_frequencies_do_not_sum_to_one :
  (exists self,
      Binary64.build_index Binary64.example_log seven_fs Binary64.init = Ok self
      /\ length (Binary64.doc_frequencies (Binary64.inverted_index self) 1)
         = 7%nat
      /\ Binary64.float_sum
           (Binary64.doc_frequencies (Binary64.inverted_index self) 1)
         = PrimFloat.next_down (PrimFloat.next_down PrimFloat.one)
      /\ exists q,
           Binary64.exact_sum
             (Binary64.doc_frequencies (Binary64.inverted_index self) 1)
           = Some q
           /\ QArith_base.Qeq_bool q (QArith_base.Qmake 1 1) = false)
  /\ build_index demo_pickle solo_fs init
     = Ok (solo_engine, save_index demo_pickle solo_engine)
  /\ build_index demo_pickle solo_fs solo_engine
     = Ok (solo_twice, save_index demo_pickle solo_twice)
  /\ Rsum (doc_frequencies (inverted_index solo_twice) 7) = 2.
Proof.
  split.
  { eexists. split; [vm_compute; reflexivity|].
    split; [vm_compute; reflexivity|].
    split; [vm_compute; reflexivity|].
    eexists. split; vm_compute; reflexivity. }
  split; [exact solo_build|]. split; [exact solo_rebuild|].
  cbv -[INR Rdiv Rplus IZR]. rewrite !INR_IZR_INZ. simpl. lra.
Qed.

(** C2, the claim as worded, fails: in the arithmetic of the interpreter
    the score of a document for a query made of its own text is
    [1.0000000000000002], the float after 1.  The corpus has one document
    with the words [alpha] and [beta] and one without tokens; [N / df] is
    [2.0] for both words. *)
Lemma binary64_score_exceeds_one :
  exists self,
    Binary64.build_index Binary64.example_log blank_fs Binary64.init = Ok self
    /\ Binary64.search self "Alpha beta" 10
       = Ok [Binary64.Hit.mk 1 (PrimFloat.next_up PrimFloat.one)
                             (Some "Words") "Alpha beta." (Some "u1")
                             (Some "d1")]
    /\ PrimFloat.ltb PrimFloat.one (PrimFloat.next_up PrimFloat.one) = true.
Proof.
  eexists. split; [vm_compute; reflexivity|].
  split; vm_compute; reflexivity.
Qed.
